(** * ethsnarks: prime-field arithmetic and JubJub point arithmetic

    A shallow embedding of [ethsnarks/field.py] and [ethsnarks/jubjub.py].

    Python integers are unbounded, so they are modelled by [Z]; Python's
    [%] and [//] are floored, exactly as [Z.modulo] and [Z.div], and [&]
    on integers is two's complement, exactly as [Z.land].  A Python
    exception is a value of [exn]; code that may raise lives in the error
    monad [result], and its statements are bound in the order in which
    Python evaluates them.

    Left out: the call counters of [FQ] (they do not touch any result),
    [FQ.sqrt], [FQ.random] and the methods built on them or on SHA-256
    ([Point.from_x], [from_y], [from_hash], [is_negative], [sign]), whose
    square root is computed outside these two files. *)

From Stdlib Require Import ZArith List Lia Bool Zdivisibility Znumtheory Zpow_facts.
From Stdlib Require Import Zmod.ZmodInv.
From Stdlib Require Import Setoid Morphisms.
Import ListNotations.
Local Open Scope Z_scope.

(** ** Exceptions and the error monad *)

Inductive exn : Set :=
| RuntimeError_modulus      (* "Other field element has different modulus" *)
| ValueError_math_domain    (* math.log of a non-positive number *)
| ValueError_field_modulus  (* "Invalid field modulus", raised by mult *)
| ZeroDivisionError         (* x % 0 *)
| RecursionError            (* unbounded recursion of __pow__ *)
| AssertionError.

Inductive result (A : Type) : Type :=
| Ok (a : A)
| Raise (e : exn).
Arguments Ok {A} a.
Arguments Raise {A} e.

Definition bind {A B : Type} (c : result A) (k : A -> result B) : result B :=
  match c with
  | Ok a => k a
  | Raise e => Raise e
  end.

Notation "x <- c ;; k" := (bind c (fun x => k))
  (at level 61, c at next level, right associativity).
Notation "'assert!' b ;; k" := (if b then k else Raise AssertionError)
  (at level 61, b at next level, right associativity).

(** The value [x % y] of Python. *)
Definition pymod (x y : Z) : result Z :=
  if y =? 0 then Raise ZeroDivisionError else Ok (x mod y).

(** ** field.py *)

Module Field.

Definition SNARK_SCALAR_FIELD : Z :=
  21888242871839275222246405745257275088548364400416034343698204186575808495617.

(** [int(math.log(b, 2))].  [math.log] raises [ValueError] ("math domain
    error") on every [b <= 0].  On [b > 0] the quotient of two
    floating-point logarithms is idealised to the exact [floor (log2 b)].
    The two can differ.  Just below a power of two (from [2^48 - 1] on)
    the quotient rounds up to the next integer: the loop of [powmod] then
    has one more leading round, on a clear bit, which only squares [f = 1]
    and leaves the result the same.  For some very large [b] (from about
    [2^2955] on) the quotient rounds down below the exact value: the
    interpreter then skips the top bit of [b] and returns another power
    than this model.  What is proved about [powmod] and [exp] below does
    not depend on the value of the logarithm: their behaviour on [b <= 0],
    the range of their results, and the result of the loop from any start
    at or above the top bit of [b]. *)
Definition int_log2 (b : Z) : result Z :=
  if b <=? 0 then Raise ValueError_math_domain else Ok (Z.log2 b).

(** The [while k >= 0] loop of [powmod]: [iters] is the number of rounds
    left, [k + 1] when the loop is entered. *)
Fixpoint powmod_loop (iters : nat) (a b n c f k : Z) : result Z :=
  match iters with
  | O => Ok f
  | S i =>
      let c := c * 2 in
      f <- pymod (f * f) n ;;
      if negb (Z.land b (Z.shiftl 1 k) =? 0)
      then f <- pymod (f * a) n ;; powmod_loop i a b n (c + 1) f (k - 1)
      else powmod_loop i a b n c f (k - 1)
  end.

Definition powmod (a b n : Z) : result Z :=
  k <- int_log2 b ;;
  powmod_loop (Z.to_nat (k + 1)) a b n 0 1 k.

(** The state of the loop of [inv]. *)
Record inv_state : Set := InvState { lm : Z; low : Z; hm : Z; high : Z }.

(** One round of [while low > 1]. *)
Definition inv_step (s : inv_state) : inv_state :=
  let r := high s / low s in
  let nm := hm s - lm s * r in
  let new := high s - low s * r in
  InvState nm new (lm s) (low s).

Fixpoint inv_loop (fuel : nat) (s : inv_state) : inv_state :=
  match fuel with
  | O => s
  | S fuel' => if 1 <? low s then inv_loop fuel' (inv_step s) else s
  end.

(** Rounds that the loop of [inv] is given for the modulus [n]; they are
    enough, since [log2 low + log2 high] gets smaller with every round
    ([inv_runs_loop] below). *)
Definition inv_fuel (n : Z) : nat := S (Z.to_nat (2 * Z.log2 n)).

Definition inv (a n : Z) : result Z :=
  if a =? 0 then Ok 0
  else
    low0 <- pymod a n ;;
    let s := inv_loop (inv_fuel n) (InvState 1 low0 0 n) in
    pymod (lm s) n.

(** The loop of [inv] as a relation: what [while low > 1] computes,
    whatever the number of rounds. *)
Inductive inv_while : inv_state -> inv_state -> Prop :=
| inv_while_exit s : low s <= 1 -> inv_while s s
| inv_while_round s s' : 1 < low s -> inv_while (inv_step s) s' -> inv_while s s'.

(** A field element: the class [FQ] with its attributes [n] and [m]. *)
Record FQ : Set := mkFQ { n : Z; m : Z }.

(** The operands the methods of [FQ] accept: a plain integer or another
    field element ([_other_n] refuses every other type). *)
Inductive value : Set :=
| VInt (z : Z)
| VFQ (a : FQ).

(** [FQ(n, field_modulus)]: a field element is copied as it is, an
    integer is reduced. *)
Definition FQ_init (v : value) (field_modulus : Z) : result FQ :=
  match v with
  | VFQ a => Ok (mkFQ (n a) field_modulus)
  | VInt z => r <- pymod z field_modulus ;; Ok (mkFQ r field_modulus)
  end.

Definition other_n (self : FQ) (other : value) : result Z :=
  match other with
  | VFQ o => if m o =? m self then Ok (n o) else Raise RuntimeError_modulus
  | VInt z => Ok z
  end.

(** [__add__] and [__radd__] *)
Definition add (self : FQ) (other : value) : result FQ :=
  on <- other_n self other ;;
  r <- pymod (n self + on) (m self) ;;
  FQ_init (VInt r) (m self).

(** [__mul__] and [__rmul__] *)
Definition mul (self : FQ) (other : value) : result FQ :=
  on <- other_n self other ;;
  r <- pymod (n self * on) (m self) ;;
  FQ_init (VInt r) (m self).

(** [__rsub__]: [other - self] *)
Definition rsub (self : FQ) (other : value) : result FQ :=
  on <- other_n self other ;;
  r <- pymod (on - n self) (m self) ;;
  FQ_init (VInt r) (m self).

(** [__sub__] *)
Definition sub (self : FQ) (other : value) : result FQ :=
  on <- other_n self other ;;
  r <- pymod (n self - on) (m self) ;;
  FQ_init (VInt r) (m self).

(** [FQ.inv] *)
Definition finv (self : FQ) : result FQ :=
  r <- inv (n self) (m self) ;;
  FQ_init (VInt r) (m self).

(** [FQ.exp] *)
Definition exp (self : FQ) (e : value) : result FQ :=
  e <- other_n self e ;;
  r <- powmod (n self) e (m self) ;;
  FQ_init (VInt r) (m self).

(** [__div__] and [__truediv__] *)
Definition div (self : FQ) (other : value) : result FQ :=
  on <- other_n self other ;;
  i <- inv on (m self) ;;
  r <- pymod (n self * i) (m self) ;;
  FQ_init (VInt r) (m self).

(** [__rdiv__] and [__rtruediv__]: [other / self] *)
Definition rdiv (self : FQ) (other : value) : result FQ :=
  on <- other_n self other ;;
  i <- inv (n self) (m self) ;;
  r <- pymod (i * on) (m self) ;;
  FQ_init (VInt r) (m self).

(** [__pow__] on an exponent [other > 1], by recursion on its bits:
    [other // 2] is the tail of the binary positive. *)
Fixpoint pow_pos (self : FQ) (other : positive) : result FQ :=
  match other with
  | xH => FQ_init (VInt (n self)) (m self)
  | xO p => s <- mul self (VFQ self) ;; pow_pos s p
  | xI p => s <- mul self (VFQ self) ;; r <- pow_pos s p ;; mul r (VFQ self)
  end.

(** [__pow__].  A negative exponent never reaches 0 or 1 under [// 2]:
    the recursion has no end and Python raises [RecursionError].  The
    recursion is one call deep for every bit of the exponent; the limit
    the interpreter puts on the depth of recursion (1000 frames by default),
    which makes it raise [RecursionError] on exponents of about a thousand
    bits as well, is not modelled. *)
Definition pow (self : FQ) (other : Z) : result FQ :=
  match other with
  | Z0 => FQ_init (VInt 1) (m self)
  | Zpos p => pow_pos self p
  | Zneg _ => Raise RecursionError
  end.

(** [__eq__].  [other == 0.] is itself a call of [__eq__] when [other] is
    a field element, and holds exactly when its value is 0; [other] is then
    replaced by the integer 0 and the moduli are not compared. *)
Definition eq (self : FQ) (other : value) : result bool :=
  let other :=
    match other with
    | VFQ o => if n o =? 0 then VInt 0 else other
    | VInt _ => other
    end in
  on <- other_n self other ;;
  Ok (n self =? on).

(** [__ne__] *)
Definition ne (self : FQ) (other : value) : result bool :=
  b <- eq self other ;; Ok (negb b).

(** [__neg__] *)
Definition neg (self : FQ) : result FQ :=
  FQ_init (VInt (- n self)) (m self).

Definition one (modulus : Z) : result FQ := FQ_init (VInt 1) modulus.
Definition zero (modulus : Z) : result FQ := FQ_init (VInt 0) modulus.

(** The invariant of the data model: [0 <= value < modulus]. *)
Definition in_range (a : FQ) : Prop := 0 <= n a < m a.

(** *** Notions used to state the properties of the module *)

(** An operand an operation of [self] accepts: an integer, or a field
    element of the same modulus. *)
Definition compatible (self : FQ) (other : value) : Prop :=
  match other with
  | VFQ o => m o = m self
  | VInt _ => True
  end.

(** The call [c] returns (it does not raise) a field element of modulus
    [q] that satisfies the invariant. *)
Definition returns_in_range (c : result FQ) (q : Z) : Prop :=
  exists r, c = Ok r /\ m r = q /\ in_range r.

(** [a * b == 1] evaluates to [True]. *)
Definition is_inverse (a b : FQ) : Prop :=
  (p <- mul a (VFQ b) ;; eq p (VInt 1)) = Ok true.

(** [F q x] is the element of the field of modulus [q] that the integer
    [x] denotes. *)
Definition F (q x : Z) : FQ := mkFQ (x mod q) q.

(** Each round makes [log2 low + log2 high] smaller. *)
Definition inv_measure (s : inv_state) : Z := Z.log2 (low s) + Z.log2 (high s).

(** The invariant of the extended Euclidean algorithm. *)
Definition inv_invariant (a q : Z) (s : inv_state) : Prop :=
  (lm s * a) mod q = low s mod q /\ (hm s * a) mod q = high s mod q /\
  0 < low s < high s /\ Z.gcd (low s) (high s) = 1.

End Field.

(** ** jubjub.py *)

Module Jubjub.
Import Field.

Definition JUBJUB_Q : Z := SNARK_SCALAR_FIELD.
Definition JUBJUB_ORDER : Z :=
  21888242871839275222246405745257275088614511777268538073601725287587578984328.
Definition JUBJUB_C : Z := 8.
Definition JUBJUB_L : Z := JUBJUB_ORDER / JUBJUB_C.
Definition JUBJUB_A : Z := 168700.
Definition JUBJUB_D : Z := 168696.

(** [FQ(k)]: a field element of the default modulus. *)
Definition FQ_ (k : Z) : result FQ := FQ_init (VInt k) SNARK_SCALAR_FIELD.

(** [a and b] on comparisons that may raise: [b] is evaluated only when
    [a] holds.  The equality of two tuples compares their items this way,
    from left to right. *)
Definition and_then (a b : result bool) : result bool :=
  x <- a ;; if x then b else Ok false.

(** The three named tuples. *)
Record Point : Set := mkPoint { Point_x : FQ; Point_y : FQ }.
Record ProjPoint : Set := mkProj { Proj_x : FQ; Proj_y : FQ; Proj_z : FQ }.
Record EtecPoint : Set :=
  mkEtec { Etec_x : FQ; Etec_y : FQ; Etec_t : FQ; Etec_z : FQ }.

(** The methods every representation provides, on which the shared code
    of [AbstractCurveOps] is written. *)
Class CurveOps (P : Type) : Type := {
  add : P -> P -> result P;
  double : P -> result P;
  infinity : result P
}.

(** *** class Point *)

Definition Point_eq (p q : Point) : result bool :=
  and_then (eq (Point_x p) (VFQ (Point_x q)))
           (eq (Point_y p) (VFQ (Point_y q))).

Definition Point_infinity : result Point :=
  x <- FQ_ 0 ;; y <- FQ_ 1 ;; Ok (mkPoint x y).

Definition Point_neg (self : Point) : result Point :=
  x <- neg (Point_x self) ;; Ok (mkPoint x (Point_y self)).

Definition Point_valid (self : Point) : result bool :=
  xsq <- mul (Point_x self) (VFQ (Point_x self)) ;;
  ysq <- mul (Point_y self) (VFQ (Point_y self)) ;;
  l0 <- mul xsq (VInt JUBJUB_A) ;;
  l <- Field.add l0 (VFQ ysq) ;;
  r0 <- mul xsq (VInt JUBJUB_D) ;;
  r1 <- mul r0 (VFQ ysq) ;;
  r <- Field.add r1 (VInt 1) ;;
  eq l (VFQ r).

Definition Point_add (self other : Point) : result Point :=
  zero_tuple <- and_then (eq (Point_x self) (VInt 0)) (eq (Point_y self) (VInt 0)) ;;
  if zero_tuple then Ok other
  else
    let u1 := Point_x self in
    let v1 := Point_y self in
    let u2 := Point_x other in
    let v2 := Point_y other in
    (* u3 = (u1*v2 + v1*u2) / (FQ.one() + JUBJUB_D*u1*u2*v1*v2) *)
    a0 <- mul u1 (VFQ v2) ;;
    a1 <- mul v1 (VFQ u2) ;;
    num <- Field.add a0 (VFQ a1) ;;
    o <- one SNARK_SCALAR_FIELD ;;
    d0 <- mul u1 (VInt JUBJUB_D) ;;
    d1 <- mul d0 (VFQ u2) ;;
    d2 <- mul d1 (VFQ v1) ;;
    d3 <- mul d2 (VFQ v2) ;;
    den <- Field.add o (VFQ d3) ;;
    u3 <- div num (VFQ den) ;;
    (* v3 = (v1*v2 - JUBJUB_A*u1*u2) / (FQ.one() - JUBJUB_D*u1*u2*v1*v2) *)
    b0 <- mul v1 (VFQ v2) ;;
    b1 <- mul u1 (VInt JUBJUB_A) ;;
    b2 <- mul b1 (VFQ u2) ;;
    num <- sub b0 (VFQ b2) ;;
    o <- one SNARK_SCALAR_FIELD ;;
    d0 <- mul u1 (VInt JUBJUB_D) ;;
    d1 <- mul d0 (VFQ u2) ;;
    d2 <- mul d1 (VFQ v1) ;;
    d3 <- mul d2 (VFQ v2) ;;
    den <- sub o (VFQ d3) ;;
    v3 <- div num (VFQ den) ;;
    Ok (mkPoint u3 v3).

(** [Point] inherits [double] from [AbstractCurveOps]. *)
Definition Point_double (self : Point) : result Point := Point_add self self.

Definition Point_as_proj (self : Point) : result ProjPoint :=
  z <- FQ_ 1 ;; Ok (mkProj (Point_x self) (Point_y self) z).

Definition Point_as_etec (self : Point) : result EtecPoint :=
  t <- mul (Point_x self) (VFQ (Point_y self)) ;;
  z <- FQ_ 1 ;;
  Ok (mkEtec (Point_x self) (Point_y self) t z).

Definition Point_as_point (self : Point) : result Point := Ok self.

#[export] Instance Point_ops : CurveOps Point :=
  {| add := Point_add; double := Point_double; infinity := Point_infinity |}.

(** *** class ProjPoint *)

Definition Proj_eq (p q : ProjPoint) : result bool :=
  and_then (eq (Proj_x p) (VFQ (Proj_x q)))
    (and_then (eq (Proj_y p) (VFQ (Proj_y q)))
              (eq (Proj_z p) (VFQ (Proj_z q)))).

Definition Proj_infinity : result ProjPoint :=
  x <- FQ_ 0 ;; y <- FQ_ 1 ;; z <- FQ_ 1 ;; Ok (mkProj x y z).

Definition Proj_rescale (self : ProjPoint) : result ProjPoint :=
  x <- div (Proj_x self) (VFQ (Proj_z self)) ;;
  y <- div (Proj_y self) (VFQ (Proj_z self)) ;;
  z <- FQ_ 1 ;;
  Ok (mkProj x y z).

Definition Proj_as_etec (self : ProjPoint) : result EtecPoint :=
  t <- mul (Proj_x self) (VFQ (Proj_y self)) ;;
  Ok (mkEtec (Proj_x self) (Proj_y self) t (Proj_z self)).

Definition Proj_as_point (self : ProjPoint) : result Point :=
  nz <- ne (Proj_z self) (VInt 0) ;;
  assert! nz ;;
  inv_z <- finv (Proj_z self) ;;
  x <- mul (Proj_x self) (VFQ inv_z) ;;
  y <- mul (Proj_y self) (VFQ inv_z) ;;
  Ok (mkPoint x y).

Definition Proj_valid (self : ProjPoint) : result bool :=
  p <- Proj_as_point self ;; Point_valid p.

Definition Proj_neg (self : ProjPoint) : result ProjPoint :=
  x <- neg (Proj_x self) ;; Ok (mkProj x (Proj_y self) (Proj_z self)).

Definition Proj_add (self other : ProjPoint) : result ProjPoint :=
  inf <- Proj_infinity ;;
  is_inf <- Proj_eq self inf ;;
  if is_inf then Ok other
  else
    a <- mul (Proj_z self) (VFQ (Proj_z other)) ;;
    b <- mul a (VFQ a) ;;
    c <- mul (Proj_x self) (VFQ (Proj_x other)) ;;
    d <- mul (Proj_y self) (VFQ (Proj_y other)) ;;
    t0 <- mul c (VFQ d) ;;
    e <- mul t0 (VInt JUBJUB_D) ;;
    f <- sub b (VFQ e) ;;
    g <- Field.add b (VFQ e) ;;
    t1 <- Field.add (Proj_x self) (VFQ (Proj_y self)) ;;
    t2 <- Field.add (Proj_x other) (VFQ (Proj_y other)) ;;
    t3 <- mul t1 (VFQ t2) ;;
    t4 <- sub t3 (VFQ c) ;;
    t5 <- sub t4 (VFQ d) ;;
    t6 <- mul f (VFQ t5) ;;
    x3 <- mul a (VFQ t6) ;;
    t7 <- mul c (VInt JUBJUB_A) ;;
    t8 <- sub d (VFQ t7) ;;
    t9 <- mul g (VFQ t8) ;;
    y3 <- mul a (VFQ t9) ;;
    z3 <- mul f (VFQ g) ;;
    Ok (mkProj x3 y3 z3).

Definition Proj_double (self : ProjPoint) : result ProjPoint :=
  inf <- Proj_infinity ;;
  is_inf <- Proj_eq self inf ;;
  if is_inf then Proj_infinity
  else
    t0 <- Field.add (Proj_x self) (VFQ (Proj_y self)) ;;
    b <- mul t0 (VFQ t0) ;;
    c <- mul (Proj_x self) (VFQ (Proj_x self)) ;;
    d <- mul (Proj_y self) (VFQ (Proj_y self)) ;;
    e <- mul c (VInt JUBJUB_A) ;;
    f <- Field.add e (VFQ d) ;;
    h <- mul (Proj_z self) (VFQ (Proj_z self)) ;;
    t1 <- mul h (VInt 2) ;;
    j <- sub f (VFQ t1) ;;
    t2 <- sub b (VFQ c) ;;
    t3 <- sub t2 (VFQ d) ;;
    x3 <- mul t3 (VFQ j) ;;
    t4 <- sub e (VFQ d) ;;
    y3 <- mul f (VFQ t4) ;;
    z3 <- mul f (VFQ j) ;;
    Ok (mkProj x3 y3 z3).

#[export] Instance Proj_ops : CurveOps ProjPoint :=
  {| add := Proj_add; double := Proj_double; infinity := Proj_infinity |}.

(** *** class EtecPoint *)

Definition Etec_eq (p q : EtecPoint) : result bool :=
  and_then (eq (Etec_x p) (VFQ (Etec_x q)))
    (and_then (eq (Etec_y p) (VFQ (Etec_y q)))
       (and_then (eq (Etec_t p) (VFQ (Etec_t q)))
                 (eq (Etec_z p) (VFQ (Etec_z q))))).

Definition Etec_as_point (self : EtecPoint) : result Point :=
  inv_z <- finv (Etec_z self) ;;
  x <- mul (Etec_x self) (VFQ inv_z) ;;
  y <- mul (Etec_y self) (VFQ inv_z) ;;
  Ok (mkPoint x y).

Definition Etec_as_proj (self : EtecPoint) : result ProjPoint :=
  Ok (mkProj (Etec_x self) (Etec_y self) (Etec_z self)).

Definition Etec_infinity : result EtecPoint :=
  x <- FQ_ 0 ;; y <- FQ_ 1 ;; t <- FQ_ 0 ;; z <- FQ_ 1 ;; Ok (mkEtec x y t z).

Definition Etec_neg (self : EtecPoint) : result EtecPoint :=
  x <- neg (Etec_x self) ;;
  t <- neg (Etec_t self) ;;
  Ok (mkEtec x (Etec_y self) t (Etec_z self)).

Definition Etec_valid (self : EtecPoint) : result bool :=
  p <- Etec_as_point self ;; Point_valid p.

Definition Etec_double (self : EtecPoint) : result EtecPoint :=
  inf <- Etec_infinity ;;
  is_inf <- Etec_eq self inf ;;
  if is_inf then Etec_infinity
  else
    a <- mul (Etec_x self) (VFQ (Etec_x self)) ;;
    b <- mul (Etec_y self) (VFQ (Etec_y self)) ;;
    t0 <- mul (Etec_z self) (VFQ (Etec_z self)) ;;
    c <- mul t0 (VInt 2) ;;
    d <- mul a (VInt JUBJUB_A) ;;
    t1 <- Field.add (Etec_x self) (VFQ (Etec_y self)) ;;
    t2 <- mul t1 (VFQ t1) ;;
    t3 <- sub t2 (VFQ a) ;;
    e <- sub t3 (VFQ b) ;;
    g <- Field.add d (VFQ b) ;;
    f <- sub g (VFQ c) ;;
    h <- sub d (VFQ b) ;;
    x3 <- mul e (VFQ f) ;;
    y3 <- mul g (VFQ h) ;;
    t3 <- mul e (VFQ h) ;;
    z3 <- mul f (VFQ g) ;;
    Ok (mkEtec x3 y3 t3 z3).

Definition Etec_add (self other : EtecPoint) : result EtecPoint :=
  inf <- Etec_infinity ;;
  is_inf <- Etec_eq self inf ;;
  if is_inf then Ok other
  else
    nz1 <- ne (Etec_z self) (VInt 0) ;;
    assert! nz1 ;;
    nz2 <- ne (Etec_z other) (VInt 0) ;;
    assert! nz2 ;;
    x1x2 <- mul (Etec_x self) (VFQ (Etec_x other)) ;;
    y1y2 <- mul (Etec_y self) (VFQ (Etec_y other)) ;;
    dt1 <- mul (Etec_t self) (VInt JUBJUB_D) ;;
    dt1t2 <- mul dt1 (VFQ (Etec_t other)) ;;
    z1z2 <- mul (Etec_z self) (VFQ (Etec_z other)) ;;
    e0 <- Field.add (Etec_x self) (VFQ (Etec_y self)) ;;
    e1 <- Field.add (Etec_x other) (VFQ (Etec_y other)) ;;
    e2 <- mul e0 (VFQ e1) ;;
    e3 <- sub e2 (VFQ x1x2) ;;
    e <- sub e3 (VFQ y1y2) ;;
    f <- sub z1z2 (VFQ dt1t2) ;;
    g <- Field.add z1z2 (VFQ dt1t2) ;;
    h0 <- mul x1x2 (VInt JUBJUB_A) ;;
    h <- sub y1y2 (VFQ h0) ;;
    x3 <- mul e (VFQ f) ;;
    y3 <- mul g (VFQ h) ;;
    t3 <- mul e (VFQ h) ;;
    z3 <- mul f (VFQ g) ;;
    Ok (mkEtec x3 y3 t3 z3).

#[export] Instance Etec_ops : CurveOps EtecPoint :=
  {| add := Etec_add; double := Etec_double; infinity := Etec_infinity |}.

(** *** AbstractCurveOps.mult *)

(** How a run of the loop, cut after [fuel] rounds, ends. *)
Inductive outcome (P : Type) : Type :=
| Returns (a : P)
| Raises (e : exn)
| StillRunning.
Arguments Returns {P} a.
Arguments Raises {P} e.
Arguments StillRunning {P}.

Section Mult.
Context {P : Type} `{CurveOps P}.

(** [while scalar != 0]: at most [fuel] rounds of it. *)
Fixpoint mult_loop (fuel : nat) (scalar : Z) (p a : P) : outcome P :=
  if scalar =? 0 then Returns a
  else
    match fuel with
    | O => StillRunning
    | S fuel' =>
        match (if negb (Z.land scalar 1 =? 0) then add a p else Ok a) with
        | Raise e => Raises e
        | Ok a' =>
            match double p with
            | Raise e => Raises e
            | Ok p' => mult_loop fuel' (scalar / 2) p' a'
            end
        end
    end.

(** The scalar [mult] works on: the value of a field element of one of
    the three accepted moduli, or the integer itself. *)
Definition mult_scalar (scalar : value) : result Z :=
  match scalar with
  | VFQ s =>
      if existsb (Z.eqb (m s)) [SNARK_SCALAR_FIELD; JUBJUB_ORDER; JUBJUB_L]
      then Ok (n s)
      else Raise ValueError_field_modulus
  | VInt z => Ok z
  end.

Definition mult (fuel : nat) (self : P) (scalar : value) : outcome P :=
  match mult_scalar scalar with
  | Raise e => Raises e
  | Ok k =>
      match infinity with
      | Raise e => Raises e
      | Ok a => mult_loop fuel k self a
      end
  end.
End Mult.


(** *** Notions used to state the properties of the module *)

(** A field element of the default field, with a reduced value. *)
Definition in_field (a : FQ) : Prop := m a = JUBJUB_Q /\ 0 <= n a < JUBJUB_Q.

Definition Point_in_field (p : Point) : Prop :=
  in_field (Point_x p) /\ in_field (Point_y p).

Definition Proj_in_field (p : ProjPoint) : Prop :=
  in_field (Proj_x p) /\ in_field (Proj_y p) /\ in_field (Proj_z p).

Definition Etec_in_field (p : EtecPoint) : Prop :=
  in_field (Etec_x p) /\ in_field (Etec_y p) /\ in_field (Etec_t p) /\
  in_field (Etec_z p).

(** The inverse that [inv] computes modulo [q], as a total function. *)
Definition invz (q x : Z) : Z :=
  match inv (x mod q) q with
  | Ok i => i
  | Raise _ => 0
  end.

(** The formulas of the point operations on integer coordinates, term by
    term as the methods compute them, without the reduction of each
    intermediate result.  The methods are proved to return these
    coordinates, reduced ([Etec_double_eval], [Etec_add_eval],
    [Proj_double_eval], [Proj_add_eval] below). *)

Definition etec_double_coords (x y t z : Z) : Z * Z * Z * Z :=
  let a := x * x in
  let b := y * y in
  let c := z * z * 2 in
  let d := a * JUBJUB_A in
  let e := (x + y) * (x + y) - a - b in
  let g := d + b in
  let f := g - c in
  let h := d - b in
  (e * f, g * h, e * h, f * g).

Definition etec_add_coords (x1 y1 t1 z1 x2 y2 t2 z2 : Z) : Z * Z * Z * Z :=
  let x1x2 := x1 * x2 in
  let y1y2 := y1 * y2 in
  let dt1t2 := t1 * JUBJUB_D * t2 in
  let z1z2 := z1 * z2 in
  let e := (x1 + y1) * (x2 + y2) - x1x2 - y1y2 in
  let f := z1z2 - dt1t2 in
  let g := z1z2 + dt1t2 in
  let h := y1y2 - x1x2 * JUBJUB_A in
  (e * f, g * h, e * h, f * g).

Definition proj_double_coords (x y z : Z) : Z * Z * Z :=
  let b := (x + y) * (x + y) in
  let c := x * x in
  let d := y * y in
  let e := c * JUBJUB_A in
  let f := e + d in
  let h := z * z in
  let j := f - h * 2 in
  ((b - c - d) * j, f * (e - d), f * j).

Definition proj_add_coords (x1 y1 z1 x2 y2 z2 : Z) : Z * Z * Z :=
  let a := z1 * z2 in
  let b := a * a in
  let c := x1 * x2 in
  let d := y1 * y2 in
  let e := c * d * JUBJUB_D in
  let f := b - e in
  let g := b + e in
  let t5 := (x1 + y1) * (x2 + y2) - c - d in
  (a * (f * t5), a * (g * (d - c * JUBJUB_A)), f * g).

(** The curve equation [A x^2 + y^2 = 1 + D x^2 y^2] modulo the field
    prime, as [Point.valid] evaluates it. *)
Definition on_curve (x y : Z) : bool :=
  (x * x * JUBJUB_A + y * y) mod JUBJUB_Q =? (x * x * JUBJUB_D * (y * y) + 1) mod JUBJUB_Q.

(** The test [self == self.infinity()] on integer coordinates, for the
    extended and for the projective representation. *)
Definition is_etec_infinity (x y t z : Z) : bool :=
  (x mod SNARK_SCALAR_FIELD =? 0 mod SNARK_SCALAR_FIELD) &&
  ((y mod SNARK_SCALAR_FIELD =? 1 mod SNARK_SCALAR_FIELD) &&
   ((t mod SNARK_SCALAR_FIELD =? 0 mod SNARK_SCALAR_FIELD) &&
    (z mod SNARK_SCALAR_FIELD =? 1 mod SNARK_SCALAR_FIELD))).

Definition is_proj_infinity (x y z : Z) : bool :=
  (x mod SNARK_SCALAR_FIELD =? 0 mod SNARK_SCALAR_FIELD) &&
  ((y mod SNARK_SCALAR_FIELD =? 1 mod SNARK_SCALAR_FIELD) &&
   (z mod SNARK_SCALAR_FIELD =? 1 mod SNARK_SCALAR_FIELD)).

(** The point of the test suite and its double. *)
Definition point_a_x : Z :=
  0x274dbce8d15179969bc0d49fa725bddf9de555e0ba6a693c6adb52fc9ee7a82c.
Definition point_a_y : Z :=
  0x5ce98c61b05f47fe2eae9a542bd99f6b2e78246231640b54595febfd51eb853.

Definition point_a : result Point :=
  x <- FQ_ point_a_x ;; y <- FQ_ point_a_y ;; Ok (mkPoint x y).

(** The same point as a record, and in extended and in projective
    coordinates as [as_etec] and [as_proj] build them. *)
Definition affine_a : Point :=
  mkPoint (mkFQ point_a_x JUBJUB_Q) (mkFQ point_a_y JUBJUB_Q).

Definition etec_a : EtecPoint :=
  mkEtec (mkFQ point_a_x JUBJUB_Q) (mkFQ point_a_y JUBJUB_Q)
         (mkFQ ((point_a_x * point_a_y) mod JUBJUB_Q) JUBJUB_Q) (mkFQ 1 JUBJUB_Q).

Definition proj_a : ProjPoint :=
  mkProj (mkFQ point_a_x JUBJUB_Q) (mkFQ point_a_y JUBJUB_Q) (mkFQ 1 JUBJUB_Q).

Definition point_a_double : result Point :=
  x <- FQ_ 6890855772600357754907169075114257697580319025794532037257385534741338397365 ;;
  y <- FQ_ 4338620300185947561074059802482547481416142213883829469920100239455078257889 ;;
  Ok (mkPoint x y).

(** *** Further methods and notions *)

(** [__sub__] of [AbstractCurveOps]: [self.add(other.neg())]. *)
Definition Point_sub (self other : Point) : result Point :=
  o <- Point_neg other ;; Point_add self o.

Definition Proj_sub (self other : ProjPoint) : result ProjPoint :=
  o <- Proj_neg other ;; Proj_add self o.

Definition Etec_sub (self other : EtecPoint) : result EtecPoint :=
  o <- Etec_neg other ;; Etec_add self o.

(** Congruence modulo the field prime. *)
Definition congruent (a b : Z) : Prop := (JUBJUB_Q | a - b).

(** The relation [T Z = X Y] that the extended coordinates of a point
    satisfy. *)
Definition Etec_coherent (p : EtecPoint) : Prop :=
  congruent (n (Etec_t p) * n (Etec_z p)) (n (Etec_x p) * n (Etec_y p)).

(** A square root of [JUBJUB_A] in the field. *)
Definition sqrt_A : Z :=
  7214280148105020021932206872019688659210616427216992810330019057549499971851.

(** An extended point the methods are meant for: reduced coordinates in
    the default field, on the curve, and [T Z = X Y]. *)
Definition Etec_wellformed (p : EtecPoint) : Prop :=
  Etec_in_field p /\ Etec_valid p = Ok true /\ Etec_coherent p.

(** The affine addition law on integer coordinates. *)
Definition affine_add_coords (x1 y1 x2 y2 : Z) : Z * Z :=
  ((x1 * y2 + y1 * x2) * invz JUBJUB_Q (1 + JUBJUB_D * x1 * x2 * y1 * y2),
   (y1 * y2 - JUBJUB_A * x1 * x2) * invz JUBJUB_Q (1 - JUBJUB_D * x1 * x2 * y1 * y2)).

End Jubjub.

(** ** Primality certificates

    The modulus of the field is prime; the proof checks a certificate. *)

Module Primality.

(** Trial division: no [d' >= d] with [d' * d' <= n] divides [n]. *)
Fixpoint trial_division (fuel : nat) (d n : Z) : bool :=
  match fuel with
  | O => false
  | S fuel' =>
      if n <? d * d then true
      else if n mod d =? 0 then false
      else trial_division fuel' (d + 1) n
  end.

Definition prime_by_trial (n : Z) : bool :=
  (1 <? n) && trial_division (Z.to_nat (Z.sqrt n)) 2 n.

(** A Pocklington certificate for [N]: a base [a] and prime powers
    [q ^ e] that divide [N - 1]. *)
Definition pock_factor_ok (N a : Z) (f : Z * Z) : bool :=
  let '(q, e) := f in
  (0 <? e) && ((N - 1) mod q ^ e =? 0) &&
  (Z.gcd (Zpow_mod a ((N - 1) / q) N - 1) N =? 1).

Fixpoint pock_product (N a : Z) (fs : list (Z * Z)) (acc : Z) : option Z :=
  match fs with
  | [] => Some acc
  | f :: fs' =>
      if pock_factor_ok N a f && (Z.gcd acc (fst f ^ snd f) =? 1)
      then pock_product N a fs' (acc * fst f ^ snd f)
      else None
  end.

Definition pock_check (N a : Z) (fs : list (Z * Z)) : bool :=
  (1 <? N) && (Zpow_mod a (N - 1) N =? 1) &&
  match pock_product N a fs 1 with
  | Some F => N <? (F + 1) * (F + 1)
  | None => false
  end.

Definition cert_primes (fs : list (Z * Z)) : Prop :=
  Forall (fun f => Z.prime (fst f)) fs.

End Primality.

Import Field Jubjub Primality.

(** * Facts about field.py *)

(** ** The error monad *)

Lemma pymod_ok x y : y <> 0 -> pymod x y = Ok (x mod y).
Proof.
  intros Hy. unfold pymod. destruct (Z.eqb_spec y 0); [contradiction | reflexivity].
Qed.

Lemma bind_Ok {A B} (c : result A) (k : A -> result B) b :
  bind c k = Ok b -> exists a, c = Ok a /\ k a = Ok b.
Proof. destruct c as [a|e]; simpl; [eauto | discriminate]. Qed.

(** ** Construction *)

Lemma FQ_init_int z q : q <> 0 -> FQ_init (VInt z) q = Ok (F q z).
Proof. intros Hq. unfold FQ_init. rewrite pymod_ok by assumption. reflexivity. Qed.

Lemma F_in_range q x : 0 < q -> in_range (F q x).
Proof. intros Hq. unfold in_range, F; simpl. apply Z.mod_pos_bound; assumption. Qed.

Lemma F_n_id (a : FQ) : in_range a -> F (m a) (n a) = a.
Proof.
  destruct a as [v q]; unfold in_range, F; simpl; intros Hr.
  rewrite Z.mod_small by assumption. reflexivity.
Qed.

Lemma F_eq_iff q x y : F q x = F q y <-> x mod q = y mod q.
Proof.
  unfold F; split; intros Heq; [now injection Heq | now rewrite Heq].
Qed.

(** ** The loop of [inv] *)

Lemma inv_loop_while fuel s :
  low (inv_loop fuel s) <= 1 -> inv_while s (inv_loop fuel s).
Proof.
  revert s; induction fuel as [|fuel IH]; intros s Hexit; simpl in *.
  - apply inv_while_exit; assumption.
  - destruct (Z.ltb_spec 1 (low s)) as [Hlt|Hge].
    + apply inv_while_round; [assumption | apply IH; assumption].
    + apply inv_while_exit; assumption.
Qed.

Lemma inv_while_deterministic s s1 s2 :
  inv_while s s1 -> inv_while s s2 -> s1 = s2.
Proof.
  intros H1; revert s2; induction H1 as [s Hs | s s' Hs _ IH]; intros s2 H2;
    inversion H2; subst; try lia; auto.
Qed.

Lemma inv_step_bounds s :
  1 < low s < high s ->
  0 <= low (inv_step s) < high (inv_step s) /\
  inv_measure (inv_step s) < inv_measure s.
Proof.
  intros [Hlow Hhigh]. unfold inv_measure, inv_step; simpl.
  pose proof (Z.mod_pos_bound (high s) (low s) ltac:(lia)) as Hmod.
  pose proof (Z.div_mod (high s) (low s) ltac:(lia)) as Hdm.
  rewrite Z.mul_comm in Hdm.
  assert (Hnew : high s - low s * (high s / low s) = high s mod low s).
  { rewrite (Z.mul_comm (low s)). lia. }
  rewrite Hnew. split; [lia|].
  assert (Hr : 1 <= high s / low s).
  { apply Z.div_le_lower_bound; lia. }
  enough (Z.log2 (high s mod low s) < Z.log2 (high s)) by lia.
  destruct (Z.eq_dec (high s mod low s) 0) as [E|NE].
  - rewrite E. simpl. apply Z.log2_pos. lia.
  - assert (H2 : 2 * (high s mod low s) <= high s) by nia.
    apply Z.log2_le_mono in H2.
    rewrite Z.log2_double in H2 by lia. lia.
Qed.

Lemma inv_loop_exits fuel s :
  0 <= low s < high s -> inv_measure s < Z.of_nat fuel ->
  low (inv_loop fuel s) <= 1.
Proof.
  revert s; induction fuel as [|fuel IH]; intros s Hs Hm.
  - unfold inv_measure in Hm.
    pose proof (Z.log2_nonneg (low s)). pose proof (Z.log2_nonneg (high s)). lia.
  - simpl. destruct (Z.ltb_spec 1 (low s)) as [Hlt|Hge]; [|assumption].
    destruct (inv_step_bounds s ltac:(lia)) as [Hb Hdec].
    apply IH; [assumption | lia].
Qed.

(** [inv] runs its loop to the end: the state it reads [lm] from is the
    one [while low > 1] stops in. *)
Lemma inv_runs_loop a q :
  a <> 0 -> q <> 0 ->
  exists s, inv_while (InvState 1 (a mod q) 0 q) s /\ inv a q = Ok (lm s mod q).
Proof.
  intros Ha Hq. unfold inv.
  destruct (Z.eqb_spec a 0); [contradiction|].
  rewrite pymod_ok by assumption. simpl.
  exists (inv_loop (inv_fuel q) (InvState 1 (a mod q) 0 q)).
  split; [|apply pymod_ok; assumption].
  apply inv_loop_while.
  destruct (Z.lt_ge_cases q 0) as [Hneg|Hpos].
  - pose proof (Z.mod_neg_bound a q Hneg).
    unfold inv_fuel. simpl.
    destruct (Z.ltb_spec 1 (a mod q)); simpl; lia.
  - apply inv_loop_exits; cbn [low high].
    + apply Z.mod_pos_bound; lia.
    + pose proof (Z.mod_pos_bound a q ltac:(lia)) as Hb.
      unfold inv_measure, inv_fuel; cbn [low high].
      pose proof (Z.log2_le_mono (a mod q) q ltac:(lia)).
      pose proof (Z.log2_nonneg q).
      rewrite Nat2Z.inj_succ, Z2Nat.id by lia. lia.
Qed.

Lemma inv_total a q : q <> 0 -> exists i, inv a q = Ok i /\ i = i mod q.
Proof.
  intros Hq. destruct (Z.eq_dec a 0) as [->|Ha].
  - exists 0. split; [reflexivity | now rewrite Z.mod_0_l].
  - destruct (inv_runs_loop a q Ha Hq) as (s & _ & Hs).
    exists (lm s mod q). split; [assumption | now rewrite Z.mod_mod].
Qed.

Lemma inv_step_invariant a q s :
  1 < low s -> inv_invariant a q s -> inv_invariant a q (inv_step s).
Proof.
  intros Hlow (Hlm & Hhm & Hb & Hg). unfold inv_invariant, inv_step; simpl.
  set (r := high s / low s).
  assert (Hnew : high s - low s * r = high s mod low s).
  { unfold r. rewrite Z.mod_eq by lia. reflexivity. }
  split; [|split; [assumption|]].
  - replace ((hm s - lm s * r) * a) with (hm s * a - (lm s * a) * r) by ring.
    rewrite Zminus_mod, Hhm, (Zmult_mod (lm s * a)), Hlm.
    rewrite <- Zmult_mod, <- Zminus_mod. reflexivity.
  - rewrite Hnew.
    pose proof (Z.mod_pos_bound (high s) (low s) ltac:(lia)) as Hmod.
    split; [|rewrite Z.gcd_mod by lia; assumption].
    destruct (Z.eq_dec (high s mod low s) 0) as [E|NE]; [|lia].
    exfalso.
    assert (Hd : (low s | high s)) by (apply Z.mod_divide; lia).
    apply Z.divide_gcd_iff in Hd; lia.
Qed.

Lemma inv_while_invariant a q s s' :
  inv_while s s' -> inv_invariant a q s -> inv_invariant a q s' /\ low s' = 1.
Proof.
  induction 1 as [s Hs | s s' Hs _ IH]; intros Hinv.
  - split; [assumption|]. destruct Hinv as (_ & _ & Hb & _). lia.
  - apply IH, inv_step_invariant; assumption.
Qed.

(** [inv] computes the modular inverse of every [a] coprime to the
    modulus. *)
Lemma inv_coprime a q :
  1 < q -> Z.gcd a q = 1 ->
  exists i, inv a q = Ok i /\ 0 <= i < q /\ (a * i) mod q = 1.
Proof.
  intros Hq Hg.
  assert (Ha : a <> 0).
  { intros ->. rewrite Z.gcd_0_l in Hg. lia. }
  destruct (inv_runs_loop a q Ha ltac:(lia)) as (s & Hw & Hs).
  exists (lm s mod q). split; [assumption|].
  split; [apply Z.mod_pos_bound; lia|].
  pose proof (Z.mod_pos_bound a q ltac:(lia)) as Hb.
  assert (Hg' : Z.gcd (a mod q) q = 1).
  { rewrite Z.gcd_mod, Z.gcd_comm by lia. assumption. }
  assert (Hnz : a mod q <> 0).
  { intros E. rewrite E, Z.gcd_0_l in Hg'. lia. }
  destruct (inv_while_invariant a q _ _ Hw) as ((Hlm & _) & Hone).
  { unfold inv_invariant; cbn [lm low hm high].
    split; [|split; [|split; [lia | assumption]]].
    - rewrite Z.mul_1_l, Z.mod_mod by lia. reflexivity.
    - rewrite Z.mul_0_l, Z.mod_same, Z.mod_0_l by lia. reflexivity. }
  rewrite Z.mul_mod_idemp_r, Z.mul_comm, Hlm, Hone by lia.
  apply Z.mod_small; lia.
Qed.

Lemma prime_coprime p a : Z.prime p -> a mod p <> 0 -> Z.gcd a p = 1.
Proof.
  intros Hp Ha. pose proof (Z.prime_ge_2 p Hp) as Hge.
  rewrite Z.gcd_comm. apply Z.coprime_prime_l; [assumption|].
  intros Hd. apply Ha, Z.mod_divide; [lia | assumption].
Qed.

(** Inverses modulo [q] are unique. *)
Lemma inverse_unique q a b c :
  0 < q -> (a * b) mod q = 1 -> (a * c) mod q = 1 -> b mod q = c mod q.
Proof.
  intros Hq Hb Hc.
  assert (E1 : (b * (a * c)) mod q = b mod q).
  { rewrite <- Z.mul_mod_idemp_r, Hc, Z.mul_1_r by lia. reflexivity. }
  assert (E2 : (c * (a * b)) mod q = c mod q).
  { rewrite <- Z.mul_mod_idemp_r, Hb, Z.mul_1_r by lia. reflexivity. }
  rewrite <- E1, <- E2. f_equal. ring.
Qed.

(** ** The operations on elements of one field *)

Lemma other_n_compatible (self : FQ) other :
  compatible self other -> exists on, other_n self other = Ok on.
Proof.
  destruct other as [z|o]; simpl; intros Hc; [eauto|].
  rewrite Hc, Z.eqb_refl. eauto.
Qed.

Lemma other_n_FQ (self o : FQ) : m o = m self -> other_n self (VFQ o) = Ok (n o).
Proof. intros E. simpl. rewrite E, Z.eqb_refl. reflexivity. Qed.

Lemma reduce_twice q x : q <> 0 ->
  (r <- pymod x q ;; FQ_init (VInt r) q) = Ok (F q x).
Proof.
  intros Hq. rewrite pymod_ok by assumption. cbn [bind].
  rewrite FQ_init_int by assumption. unfold F. rewrite Z.mod_mod by assumption.
  reflexivity.
Qed.

Lemma add_F (a b : FQ) q : q <> 0 -> m a = q -> m b = q ->
  Field.add a (VFQ b) = Ok (F q (n a + n b)).
Proof.
  intros Hq Ha Hb. unfold Field.add. rewrite other_n_FQ by congruence.
  simpl. rewrite Ha. apply reduce_twice; assumption.
Qed.

Lemma add_int_F (a : FQ) z q : q <> 0 -> m a = q ->
  Field.add a (VInt z) = Ok (F q (n a + z)).
Proof.
  intros Hq Ha. unfold Field.add. simpl. rewrite Ha. apply reduce_twice; assumption.
Qed.

Lemma sub_F (a b : FQ) q : q <> 0 -> m a = q -> m b = q ->
  sub a (VFQ b) = Ok (F q (n a - n b)).
Proof.
  intros Hq Ha Hb. unfold sub. rewrite other_n_FQ by congruence.
  simpl. rewrite Ha. apply reduce_twice; assumption.
Qed.

Lemma mul_F (a b : FQ) q : q <> 0 -> m a = q -> m b = q ->
  mul a (VFQ b) = Ok (F q (n a * n b)).
Proof.
  intros Hq Ha Hb. unfold mul. rewrite other_n_FQ by congruence.
  simpl. rewrite Ha. apply reduce_twice; assumption.
Qed.

Lemma mul_int_F (a : FQ) z q : q <> 0 -> m a = q ->
  mul a (VInt z) = Ok (F q (n a * z)).
Proof.
  intros Hq Ha. unfold mul. simpl. rewrite Ha. apply reduce_twice; assumption.
Qed.

Lemma neg_F (a : FQ) q : q <> 0 -> m a = q -> neg a = Ok (F q (- n a)).
Proof. intros Hq Ha. unfold neg. rewrite Ha. apply FQ_init_int; assumption. Qed.

Lemma powmod_loop_total i a b q : q <> 0 ->
  forall c f k, exists r, powmod_loop i a b q c f k = Ok r.
Proof.
  intros Hq. induction i as [|i IH]; intros c f k; simpl; [eauto|].
  rewrite pymod_ok by assumption. simpl.
  destruct (negb _); [rewrite pymod_ok by assumption; simpl|]; apply IH.
Qed.

Lemma in_range_intro c q :
  q <> 0 -> 0 < q -> (exists x, c = Ok (F q x)) -> returns_in_range c q.
Proof.
  intros _ Hq [x ->]. exists (F q x). split; [reflexivity|].
  split; [reflexivity | apply F_in_range; assumption].
Qed.

(** C4 (the defect): [exp] and [powmod] take the logarithm of the exponent
    before anything else, so the exponent 0 raises [ValueError] and no
    field element is returned, whatever the base and the modulus. *)
Theorem exp_zero_raises (a : FQ) (b q : Z) :
  powmod b 0 q = Raise ValueError_math_domain /\
  exp a (VInt 0) = Raise ValueError_math_domain /\
  exp a (VFQ (mkFQ 0 (m a))) = Raise ValueError_math_domain.
Proof.
  split; [reflexivity|]. split; [reflexivity|].
  unfold exp. rewrite other_n_FQ by reflexivity. reflexivity.
Qed.

(** The operator [**] does what [exp] misses: it answers 1 on the
    exponent 0. *)
Lemma pow_zero (a : FQ) : m a <> 0 -> pow a 0 = Ok (F (m a) 1).
Proof. intros Hm. unfold pow. apply FQ_init_int; assumption. Qed.

(** C5 (as stated, refuted): building a field element from a field element
    copies the value as it is; the element 5 of the field of modulus 7,
    taken into the field of modulus 3, keeps the value 5. *)
Lemma FQ_init_copies_unreduced :
  in_range (mkFQ 5 7) /\
  FQ_init (VFQ (mkFQ 5 7)) 3 = Ok (mkFQ 5 3) /\ ~ in_range (mkFQ 5 3).
Proof.
  split; [unfold in_range; simpl; lia|].
  split; [reflexivity | unfold in_range; simpl; lia].
Qed.

(** C5 (amended): with a positive modulus, a field element built from an
    integer, or from a field element whose value is already below that
    modulus, satisfies [0 <= value < modulus]; and every arithmetic
    operation on a field element and a compatible operand (exponentiation:
    with a positive exponent) returns a field element of the same modulus
    whose value lies in [0, modulus), whether or not the operands did. *)
Theorem FQ_values_in_range (a : FQ) (other : value) (z e : Z) :
  0 < m a -> compatible a other -> 0 < e ->
  returns_in_range (FQ_init (VInt z) (m a)) (m a) /\
  (forall b, 0 <= n b < m a -> returns_in_range (FQ_init (VFQ b) (m a)) (m a)) /\
  returns_in_range (Field.add a other) (m a) /\
  returns_in_range (sub a other) (m a) /\
  returns_in_range (rsub a other) (m a) /\
  returns_in_range (mul a other) (m a) /\
  returns_in_range (neg a) (m a) /\
  returns_in_range (finv a) (m a) /\
  returns_in_range (exp a (VInt e)) (m a) /\
  returns_in_range (div a other) (m a) /\
  returns_in_range (rdiv a other) (m a).
Proof.
  intros Hm Hc He.
  assert (Hq : m a <> 0) by lia.
  destruct (other_n_compatible a other Hc) as [on Hon].
  assert (Hred : forall x,
    returns_in_range (r <- pymod x (m a) ;; FQ_init (VInt r) (m a)) (m a)).
  { intros x. apply in_range_intro; try assumption.
    exists x. apply reduce_twice; assumption. }
  repeat match goal with |- _ /\ _ => split end.
  - apply in_range_intro; try assumption. exists z. apply FQ_init_int; assumption.
  - intros b Hb. exists (mkFQ (n b) (m a)). simpl. repeat split; apply Hb.
  - unfold Field.add. rewrite Hon. apply Hred.
  - unfold sub. rewrite Hon. apply Hred.
  - unfold rsub. rewrite Hon. apply Hred.
  - unfold mul. rewrite Hon. apply Hred.
  - apply in_range_intro; try assumption. exists (- n a). apply neg_F; auto.
  - unfold finv. destruct (inv_total (n a) (m a) Hq) as (i & -> & _). simpl.
    apply in_range_intro; try assumption. exists i. apply FQ_init_int; assumption.
  - unfold exp, powmod, int_log2. simpl.
    destruct (Z.leb_spec e 0) as [Hle|_]; [lia|]. simpl.
    destruct (powmod_loop_total (Z.to_nat (Z.log2 e + 1)) (n a) e (m a) Hq 0 1 (Z.log2 e))
      as [r ->]. simpl.
    apply in_range_intro; try assumption. exists r. apply FQ_init_int; assumption.
  - unfold div. rewrite Hon. simpl.
    destruct (inv_total on (m a) Hq) as (i & -> & _). apply Hred.
  - unfold rdiv. rewrite Hon. simpl.
    destruct (inv_total (n a) (m a) Hq) as (i & -> & _). apply Hred.
Qed.

Lemma FQ_values_in_range_witness :
  0 < m (mkFQ 5 7) /\ compatible (mkFQ 5 7) (VFQ (mkFQ 6 7)) /\ 0 < 3 /\
  returns_in_range (mul (mkFQ 5 7) (VFQ (mkFQ 6 7))) 7 /\
  returns_in_range (exp (mkFQ 5 7) (VInt 3)) 7.
Proof.
  assert (H1 : 0 < m (mkFQ 5 7)) by (simpl; lia).
  assert (H2 : compatible (mkFQ 5 7) (VFQ (mkFQ 6 7))) by reflexivity.
  assert (H3 : 0 < 3) by lia.
  pose proof (FQ_values_in_range (mkFQ 5 7) (VFQ (mkFQ 6 7)) 10 3 H1 H2 H3) as H.
  repeat split; try assumption; apply H.
Defined.

(** ** The inverse *)

Lemma finv_zero (a : FQ) : m a <> 0 -> n a = 0 -> finv a = Ok (mkFQ 0 (m a)).
Proof.
  intros Hm Hn. unfold finv, inv. rewrite Hn. simpl.
  rewrite pymod_ok by assumption. simpl. rewrite Z.mod_0_l by assumption.
  reflexivity.
Qed.

Lemma finv_coprime (a : FQ) :
  1 < m a -> Z.gcd (n a) (m a) = 1 ->
  exists i, finv a = Ok (mkFQ i (m a)) /\ 0 <= i < m a /\ (n a * i) mod m a = 1.
Proof.
  intros Hm Hg. destruct (inv_coprime _ _ Hm Hg) as (i & Hi & Hr & Hone).
  exists i. split; [|split; assumption].
  unfold finv. rewrite Hi. cbn [bind]. rewrite FQ_init_int by lia.
  unfold F. rewrite Z.mod_small by assumption. reflexivity.
Qed.

Lemma is_inverse_iff (a b : FQ) :
  m a <> 0 -> m b = m a -> (is_inverse a b <-> (n a * n b) mod m a = 1).
Proof.
  intros Hm Hb. unfold is_inverse. rewrite (mul_F a b (m a)) by auto.
  unfold eq, F. cbn [bind other_n n].
  split; intros H.
  - injection H as H. apply Z.eqb_eq in H. assumption.
  - rewrite H. reflexivity.
Qed.

(** C8: in a prime field, the inverse of the zero element is the zero
    element, not an error; and the inverse of a non-zero element [a] is
    the one element [b] of the field with [a * b == 1]. *)
Theorem finv_spec (a : FQ) :
  Z.prime (m a) -> in_range a ->
  (n a = 0 -> finv a = Ok (mkFQ 0 (m a))) /\
  (n a <> 0 ->
   exists b, finv a = Ok b /\ m b = m a /\ in_range b /\ is_inverse a b /\
     forall c, m c = m a -> in_range c -> is_inverse a c -> c = b).
Proof.
  intros Hp Hr. pose proof (Z.prime_ge_2 _ Hp) as Hge.
  split; [apply finv_zero; lia|].
  intros Hn.
  assert (Hg : Z.gcd (n a) (m a) = 1).
  { apply prime_coprime; [assumption|].
    unfold in_range in Hr. rewrite Z.mod_small by assumption. assumption. }
  destruct (finv_coprime a ltac:(lia) Hg) as (i & Hi & Hir & Hone).
  exists (mkFQ i (m a)). split; [assumption|]. split; [reflexivity|].
  split; [exact Hir|].
  split; [apply is_inverse_iff; [lia | reflexivity | exact Hone]|].
  intros [c mc] Hmc Hc Hinv. simpl in Hmc; subst mc.
  apply is_inverse_iff in Hinv; [|lia | reflexivity]. simpl in Hinv.
  f_equal. unfold in_range in Hc; simpl in Hc.
  pose proof (inverse_unique (m a) (n a) c i ltac:(lia) Hinv Hone) as E.
  rewrite !Z.mod_small in E by lia. assumption.
Qed.

(** * The field modulus is prime *)

Lemma trial_division_sound fuel d n :
  2 <= d ->
  trial_division fuel d n = true ->
  (forall k, 2 <= k < d -> ~ (k | n)) ->
  forall k, 2 <= k -> k * k <= n -> ~ (k | n).
Proof.
  revert d; induction fuel as [|fuel IH]; intros d Hd Ht Hlow k Hk Hkk; simpl in Ht.
  - discriminate.
  - destruct (Z.ltb_spec n (d * d)) as [Hlt|Hge].
    + apply Hlow. split; [assumption | nia].
    + destruct (Z.eqb_spec (n mod d) 0) as [E|NE]; [discriminate|].
      apply (IH (d + 1)); try assumption; try lia.
      intros k' Hk'. destruct (Z.eq_dec k' d) as [->|Hne].
      * intros Hdiv. apply NE. apply Z.mod_divide; [lia | assumption].
      * apply Hlow; lia.
Qed.

Lemma small_divisor n d :
  1 < d < n -> (d | n) -> exists k, 2 <= k /\ k * k <= n /\ (k | n).
Proof.
  intros Hd [c Hc].
  assert (Hcpos : 1 < c) by nia.
  destruct (Z.le_gt_cases d c) as [Hle|Hgt].
  - exists d. repeat split; [lia | nia | exists c; assumption].
  - exists c. repeat split; [lia | nia | exists d; lia].
Qed.

Lemma prime_by_trial_sound n : prime_by_trial n = true -> Z.prime n.
Proof.
  unfold prime_by_trial. intros H. apply andb_true_iff in H as [H1 H2].
  apply Z.ltb_lt in H1. split; [assumption|].
  intros d Hd Hdiv.
  destruct (small_divisor n d Hd Hdiv) as (k & Hk & Hkk & Hkn).
  revert Hkn. eapply (trial_division_sound _ 2 n); [lia | exact H2 | lia | exact Hk | exact Hkk].
Qed.

Lemma exists_prime_divisor n : 1 < n -> exists p, Z.prime p /\ (p | n).
Proof.
  intros Hn. assert (H0 : 0 <= n) by lia. revert Hn.
  pattern n. apply Z_lt_induction; [|assumption].
  clear n H0. intros n IH Hn.
  destruct (prime_dec n) as [Hp|Hnp].
  - exists n. split; [apply prime_alt; assumption | apply Z.divide_refl].
  - destruct (not_prime_divide n Hn Hnp) as (d & Hd & Hdn).
    destruct (IH d ltac:(lia) ltac:(lia)) as (p & Hp & Hpd).
    exists p. split; [assumption | eapply Z.divide_trans; eassumption].
Qed.

(** Exponents [u] with [a ^ u = 1] modulo [p] are closed under gcd. *)
Lemma pow_one_mul p a u k :
  1 < p -> 0 <= u -> 0 <= k -> a ^ u mod p = 1 -> a ^ (u * k) mod p = 1.
Proof.
  intros Hp Hu Hk H.
  rewrite Z.pow_mul_r, <- Z.mod_pow_l, H, Z.pow_1_l by assumption.
  apply Z.mod_small; lia.
Qed.

Lemma pow_one_gcd p a : 1 < p ->
  forall v, 0 <= v -> forall u, 0 <= u ->
  a ^ u mod p = 1 -> a ^ v mod p = 1 -> a ^ Z.gcd u v mod p = 1.
Proof.
  intros Hp v Hv. generalize Hv. pattern v. apply Z_lt_induction; [|assumption].
  clear v Hv. intros v IH Hv u Hu Hau Hav.
  destruct (Z.eq_dec v 0) as [->|Hnz].
  - rewrite Z.gcd_0_r, Z.abs_eq by assumption. assumption.
  - assert (Hvpos : 0 < v) by lia.
    pose proof (Z.mod_pos_bound u v Hvpos) as Hb.
    rewrite <- Z.gcd_mod_l, Z.gcd_comm.
    apply IH; try lia; try assumption.
    pose proof (Z.div_mod u v ltac:(lia)) as Hdm.
    assert (Hq : 0 <= u / v) by (apply Z.div_pos; lia).
    rewrite Hdm, Z.pow_add_r in Hau by nia.
    rewrite <- Z.mul_mod_idemp_l, (pow_one_mul p a v (u / v)) in Hau by lia.
    rewrite Z.mul_1_l in Hau. assumption.
Qed.

(** One prime power of the certificate divides [p - 1] for every prime
    divisor [p] of [N]. *)
Lemma pock_factor_sound N a f p :
  1 < N -> a ^ (N - 1) mod N = 1 ->
  Z.prime (fst f) -> pock_factor_ok N a f = true ->
  Z.prime p -> (p | N) ->
  (fst f ^ snd f | p - 1).
Proof.
  destruct f as [q e]; simpl. intros HN Hpow Hq Hok Hp HpN.
  unfold pock_factor_ok in Hok.
  apply andb_true_iff in Hok as [Hok Hgcd].
  apply andb_true_iff in Hok as [He Hqe].
  apply Z.ltb_lt in He. apply Z.eqb_eq in Hgcd, Hqe.
  rewrite Zpow_mod_correct in Hgcd by lia.
  pose proof (Z.prime_ge_2 _ Hp) as Hp2. pose proof (Z.prime_ge_2 _ Hq) as Hq2.
  assert (Hdiv : (q ^ e | N - 1)) by (apply Z.mod_divide; [|assumption]; nia).
  assert (HqN : (q | N - 1)).
  { eapply Z.divide_trans; [|exact Hdiv]. apply Z.divide_pow_same_r; lia. }
  assert (H1 : a ^ (N - 1) mod p = 1).
  { rewrite <- (Z.mod_mod_divide _ N p), Hpow by assumption.
    apply Z.mod_small; lia. }
  assert (Hanz : a mod p <> 0).
  { intros E. rewrite <- Z.mod_pow_l, E, Z.pow_0_l, Z.mod_0_l in H1 by lia. lia. }
  pose proof (Z.fermat_nz p a Hp Hanz) as H2.
  pose proof (pow_one_gcd p a ltac:(lia) (p - 1) ltac:(lia) (N - 1) ltac:(lia) H1 H2) as Hg.
  set (g := Z.gcd (N - 1) (p - 1)) in *.
  assert (Hgpos : 0 < g).
  { unfold g. pose proof (Z.gcd_nonneg (N - 1) (p - 1)).
    destruct (Z.eq_dec (Z.gcd (N - 1) (p - 1)) 0) as [E|]; [|lia].
    apply Z.gcd_eq_0_l in E. lia. }
  destruct (Z.gcd_divide_l (N - 1) (p - 1)) as [h Hh]. fold g in Hh.
  assert (Hhpos : 0 < h) by nia.
  assert (Hqh : ~ (q | h)).
  { intros [h' Hh'].
    assert (E : (N - 1) / q = g * h').
    { rewrite Hh, Hh'. replace (h' * q * g) with (g * h' * q) by ring.
      apply Z.div_mul; lia. }
    assert (Hh'pos : 0 <= h') by nia.
    pose proof (pow_one_mul p a g h' ltac:(lia) ltac:(lia) Hh'pos Hg) as H3.
    rewrite <- E in H3.
    assert (Hpd : (p | a ^ ((N - 1) / q) mod N - 1)).
    { apply Z.mod_divide; [lia|].
      rewrite Zminus_mod, (Z.mod_mod_divide _ N p), H3 by assumption.
      rewrite Z.mod_1_l, Z.sub_diag by lia. apply Z.mod_0_l; lia. }
    pose proof (Z.gcd_greatest _ _ _ Hpd HpN) as Hp1.
    rewrite Hgcd in Hp1. apply Z.divide_1_r in Hp1. lia. }
  assert (Hcop : Z.coprime (q ^ e) h).
  { apply Z.coprime_pow_l; [lia|]. apply Z.coprime_prime_l; assumption. }
  assert (Hqg : (q ^ e | g)).
  { apply (Z.gauss _ h); [|exact Hcop]. rewrite <- Hh. assumption. }
  eapply Z.divide_trans; [exact Hqg | apply Z.gcd_divide_r].
Qed.

Lemma divide_mul_coprime a b c :
  Z.gcd a b = 1 -> (a | c) -> (b | c) -> (a * b | c).
Proof.
  intros Hg [k Hk] Hb. subst c.
  assert (Hbk : (b | k)).
  { apply (Z.gauss _ a); [|rewrite Z.gcd_comm; assumption].
    rewrite Z.mul_comm. assumption. }
  destruct Hbk as [k' ->]. exists k'. ring.
Qed.

Lemma pock_product_sound N a p :
  1 < N -> a ^ (N - 1) mod N = 1 -> Z.prime p -> (p | N) ->
  forall fs acc F, cert_primes fs -> (acc | p - 1) ->
  pock_product N a fs acc = Some F -> (F | p - 1).
Proof.
  intros HN Hpow Hp HpN fs; induction fs as [|f fs IH]; intros acc F Hfs Hacc H;
    cbn [pock_product] in H.
  - injection H as <-. assumption.
  - destruct (pock_factor_ok N a f) eqn:Hok; [|discriminate].
    destruct (Z.eqb_spec (Z.gcd acc (fst f ^ snd f)) 1) as [Hg|]; [|discriminate].
    cbn [andb] in H. inversion Hfs as [|? ? Hq Hfs']; subst.
    apply (IH (acc * fst f ^ snd f) F); try assumption.
    apply divide_mul_coprime; try assumption.
    apply (pock_factor_sound N a f p); assumption.
Qed.

Theorem pock_check_sound N a fs :
  cert_primes fs -> pock_check N a fs = true -> Z.prime N.
Proof.
  intros Hfs H. unfold pock_check in H.
  apply andb_true_iff in H as [H HF].
  apply andb_true_iff in H as [HN Hpow].
  apply Z.ltb_lt in HN. apply Z.eqb_eq in Hpow.
  rewrite Zpow_mod_correct in Hpow by lia.
  destruct (pock_product N a fs 1) as [F|] eqn:E; [|discriminate].
  apply Z.ltb_lt in HF.
  split; [assumption|]. intros d Hd Hdiv.
  destruct (small_divisor N d Hd Hdiv) as (k & Hk & Hkk & HkN).
  destruct (exists_prime_divisor k ltac:(lia)) as (p & Hp & Hpk).
  assert (HpN : (p | N)) by (eapply Z.divide_trans; eassumption).
  pose proof (pock_product_sound N a p HN Hpow Hp HpN fs 1 F Hfs (Z.divide_1_l _) E)
    as HFp.
  pose proof (Z.prime_ge_2 _ Hp) as Hp2.
  assert (Hple : p <= k) by (apply Z.divide_pos_le; [lia | assumption]).
  assert (HFle : Z.abs F <= p - 1).
  { apply Z.divide_pos_le; [lia | apply Z.divide_abs_l; assumption]. }
  pose proof (Z.abs_spec F). nia.
Qed.

Create HintDb primes.
#[local] Hint Resolve Z.prime_2 Z.prime_3 : primes.

Ltac prime_by_trial := apply prime_by_trial_sound; vm_cast_no_check (eq_refl true).
Ltac prime_by_cert a fs :=
  apply (pock_check_sound _ a fs);
  [ unfold cert_primes; repeat (apply Forall_cons; [simpl; auto with primes|]);
    apply Forall_nil
  | vm_cast_no_check (eq_refl true) ].

Lemma prime_661 : Z.prime 661.
Proof. prime_by_trial. Qed.
#[local] Hint Resolve prime_661 : primes.

Lemma prime_93001 : Z.prime 93001.
Proof. prime_by_trial. Qed.
#[local] Hint Resolve prime_93001 : primes.

Lemma prime_12048837557 : Z.prime 12048837557.
Proof. prime_by_cert 2 [(661, 1); (93001, 1)]. Qed.
#[local] Hint Resolve prime_12048837557 : primes.

Lemma prime_5156902474397 : Z.prime 5156902474397.
Proof. prime_by_cert 2 [(12048837557, 1)]. Qed.
#[local] Hint Resolve prime_5156902474397 : primes.

Lemma prime_1670836401704629 : Z.prime 1670836401704629.
Proof. prime_by_cert 2 [(5156902474397, 1)]. Qed.
#[local] Hint Resolve prime_1670836401704629 : primes.

Lemma prime_853 : Z.prime 853.
Proof. prime_by_trial. Qed.
#[local] Hint Resolve prime_853 : primes.

Lemma prime_1637 : Z.prime 1637.
Proof. prime_by_trial. Qed.
#[local] Hint Resolve prime_1637 : primes.

Lemma prime_639533339 : Z.prime 639533339.
Proof. prime_by_cert 2 [(853, 1); (1637, 1)]. Qed.
#[local] Hint Resolve prime_639533339 : primes.

Lemma prime_65865678001877903 : Z.prime 65865678001877903.
Proof. prime_by_cert 2 [(639533339, 1)]. Qed.
#[local] Hint Resolve prime_65865678001877903 : primes.

Lemma prime_13818364434197438864469338081 : Z.prime 13818364434197438864469338081.
Proof. prime_by_cert 2 [(65865678001877903, 1)]. Qed.
#[local] Hint Resolve prime_13818364434197438864469338081 : primes.

Lemma prime_21888242871839275222246405745257275088548364400416034343698204186575808495617 : Z.prime 21888242871839275222246405745257275088548364400416034343698204186575808495617.
Proof. prime_by_cert 2 [(1670836401704629, 1); (13818364434197438864469338081, 1)]. Qed.
#[local] Hint Resolve prime_21888242871839275222246405745257275088548364400416034343698204186575808495617 : primes.

Theorem SNARK_SCALAR_FIELD_prime : Z.prime SNARK_SCALAR_FIELD.
Proof. exact prime_21888242871839275222246405745257275088548364400416034343698204186575808495617. Qed.

Lemma finv_spec_witness :
  Z.prime (m (mkFQ 5 SNARK_SCALAR_FIELD)) /\ in_range (mkFQ 5 SNARK_SCALAR_FIELD) /\
  exists b, finv (mkFQ 5 SNARK_SCALAR_FIELD) = Ok b /\
            is_inverse (mkFQ 5 SNARK_SCALAR_FIELD) b.
Proof.
  assert (H1 : Z.prime (m (mkFQ 5 SNARK_SCALAR_FIELD))) by exact SNARK_SCALAR_FIELD_prime.
  assert (H2 : in_range (mkFQ 5 SNARK_SCALAR_FIELD))
    by (unfold in_range, SNARK_SCALAR_FIELD; simpl; lia).
  split; [assumption|]. split; [assumption|].
  destruct (finv_spec (mkFQ 5 SNARK_SCALAR_FIELD) H1 H2) as [_ H].
  destruct (H ltac:(cbn [n]; lia)) as (b & Hb & _ & _ & Hinv & _).
  exists b. split; assumption.
Defined.

(** * Facts about jubjub.py *)

(** ** Scalar multiplication *)

Section MultFacts.
Context {P : Type} `{CurveOps P}.

Lemma mult_loop_terminates (fuel : nat) :
  forall z p a, 0 <= z < 2 ^ Z.of_nat fuel -> mult_loop fuel z p a <> StillRunning.
Proof.
  induction fuel as [|fuel IH]; intros z p a Hz.
  - simpl in Hz. assert (z = 0) by lia. subst z. simpl. discriminate.
  - cbn [mult_loop]. destruct (Z.eqb_spec z 0) as [|Hnz]; [discriminate|].
    destruct (if negb (Z.land z 1 =? 0) then add a p else Ok a) as [a'|e];
      [|discriminate].
    destruct (double p) as [p'|e]; [|discriminate].
    apply IH. rewrite Nat2Z.inj_succ, Z.pow_succ_r in Hz by lia.
    split; [apply Z.div_pos; lia | apply Z.div_lt_upper_bound; lia].
Qed.

Lemma mult_loop_negative (fuel : nat) :
  forall z p a r, z < 0 -> mult_loop fuel z p a <> Returns r.
Proof.
  induction fuel as [|fuel IH]; intros z p a r Hz; cbn [mult_loop];
    destruct (Z.eqb_spec z 0) as [|Hnz]; try lia; try discriminate.
  destruct (if negb (Z.land z 1 =? 0) then add a p else Ok a) as [a'|e];
    [|discriminate].
  destruct (double p) as [p'|e]; [|discriminate].
  apply IH. apply Z.div_lt_upper_bound; lia.
Qed.

(** When [add] and [double] do not raise on the points met, a negative
    scalar keeps the loop running for ever. *)
Lemma mult_loop_negative_diverges (good : P -> Prop) :
  (forall a p, good a -> good p -> exists r, add a p = Ok r /\ good r) ->
  (forall p, good p -> exists r, double p = Ok r /\ good r) ->
  forall fuel z p a, z < 0 -> good p -> good a ->
  mult_loop fuel z p a = StillRunning.
Proof.
  intros Hadd Hdbl fuel; induction fuel as [|fuel IH]; intros z p a Hz Hp Ha;
    cbn [mult_loop]; destruct (Z.eqb_spec z 0) as [|Hnz]; try lia; try reflexivity.
  assert (Ha' : exists a', (if negb (Z.land z 1 =? 0) then add a p else Ok a) = Ok a'
                           /\ good a').
  { destruct (negb (Z.land z 1 =? 0)); [apply Hadd; assumption | eauto]. }
  destruct Ha' as (a' & -> & Hga').
  destruct (Hdbl p Hp) as (p' & -> & Hgp').
  apply IH; try assumption. apply Z.div_lt_upper_bound; lia.
Qed.

Lemma mult_loop_returns (good : P -> Prop) :
  (forall a p, good a -> good p -> exists r, add a p = Ok r /\ good r) ->
  (forall p, good p -> exists r, double p = Ok r /\ good r) ->
  forall fuel z p a, 0 <= z < 2 ^ Z.of_nat fuel -> good p -> good a ->
  exists r, mult_loop fuel z p a = Returns r.
Proof.
  intros Hadd Hdbl fuel; induction fuel as [|fuel IH]; intros z p a Hz Hp Ha.
  - simpl in Hz. assert (z = 0) by lia. subst z. simpl. eauto.
  - cbn [mult_loop]. destruct (Z.eqb_spec z 0) as [|Hnz]; [eauto|].
    assert (Ha' : exists a', (if negb (Z.land z 1 =? 0) then add a p else Ok a) = Ok a'
                             /\ good a').
    { destruct (negb (Z.land z 1 =? 0)); [apply Hadd; assumption | eauto]. }
    destruct Ha' as (a' & -> & Hga').
    destruct (Hdbl p Hp) as (p' & -> & Hgp').
    apply IH; try assumption. rewrite Nat2Z.inj_succ, Z.pow_succ_r in Hz by lia.
    split; [apply Z.div_pos; lia | apply Z.div_lt_upper_bound; lia].
Qed.

(** C9: [mult] takes a plain integer as it is, and a field element of
    modulus [SNARK_SCALAR_FIELD], [JUBJUB_ORDER] or [JUBJUB_L] by its
    value; a field element of any other modulus makes it raise
    [ValueError] before the loop, so that no point is returned. *)
Theorem mult_scalar_domain (fuel : nat) (self : P) (s : FQ) :
  (In (m s) [SNARK_SCALAR_FIELD; JUBJUB_ORDER; JUBJUB_L] ->
   mult fuel self (VFQ s) = mult fuel self (VInt (n s))) /\
  (~ In (m s) [SNARK_SCALAR_FIELD; JUBJUB_ORDER; JUBJUB_L] ->
   mult fuel self (VFQ s) = Raises ValueError_field_modulus) /\
  (forall z, mult_scalar (VInt z) = Ok z).
Proof.
  assert (Hin : existsb (Z.eqb (m s)) [SNARK_SCALAR_FIELD; JUBJUB_ORDER; JUBJUB_L] = true
                <-> In (m s) [SNARK_SCALAR_FIELD; JUBJUB_ORDER; JUBJUB_L]).
  { rewrite existsb_exists. split.
    - intros (x & Hx & E). apply Z.eqb_eq in E. subst x. assumption.
    - intros Hx. exists (m s). split; [assumption | apply Z.eqb_refl]. }
  split; [|split].
  - intros Hm. unfold mult; cbn [mult_scalar].
    apply Hin in Hm. rewrite Hm. reflexivity.
  - intros Hm. unfold mult; cbn [mult_scalar].
    destruct (existsb _ _) eqn:E; [exfalso; apply Hm, Hin; reflexivity | reflexivity].
  - reflexivity.
Qed.

End MultFacts.

(** ** Evaluating the field operations on [F q x] *)

Section FieldEval.
Variable q : Z.
Hypothesis Hq : q <> 0.

Lemma F_mod x : F q (x mod q) = F q x.
Proof. apply F_eq_iff. apply Z.mod_mod; assumption. Qed.

Lemma mulF x y : mul (F q x) (VFQ (F q y)) = Ok (F q (x * y)).
Proof.
  rewrite (mul_F _ _ q) by auto. f_equal. apply F_eq_iff. cbn [n F].
  symmetry. apply Zmult_mod.
Qed.

Lemma mul_intF x z : mul (F q x) (VInt z) = Ok (F q (x * z)).
Proof.
  rewrite (mul_int_F _ _ q) by auto. f_equal. apply F_eq_iff. cbn [n F].
  apply Z.mul_mod_idemp_l; assumption.
Qed.

Lemma addF x y : Field.add (F q x) (VFQ (F q y)) = Ok (F q (x + y)).
Proof.
  rewrite (add_F _ _ q) by auto. f_equal. apply F_eq_iff. cbn [n F].
  symmetry. apply Zplus_mod.
Qed.

Lemma add_intF x z : Field.add (F q x) (VInt z) = Ok (F q (x + z)).
Proof.
  rewrite (add_int_F _ _ q) by auto. f_equal. apply F_eq_iff. cbn [n F].
  apply Z.add_mod_idemp_l; assumption.
Qed.

Lemma subF x y : sub (F q x) (VFQ (F q y)) = Ok (F q (x - y)).
Proof.
  rewrite (sub_F _ _ q) by auto. f_equal. apply F_eq_iff. cbn [n F].
  symmetry. apply Zminus_mod.
Qed.

Lemma negF x : neg (F q x) = Ok (F q (- x)).
Proof.
  rewrite (neg_F _ q) by auto. f_equal. apply F_eq_iff. cbn [n F].
  rewrite <- (Z.sub_0_l (x mod q)), <- (Z.sub_0_l x).
  rewrite Zminus_mod_idemp_r. reflexivity.
Qed.

Lemma invz_ok x : inv (x mod q) q = Ok (invz q x).
Proof.
  unfold invz. destruct (inv_total (x mod q) q Hq) as (i & -> & _). reflexivity.
Qed.

Lemma finvF x : finv (F q x) = Ok (F q (invz q x)).
Proof.
  unfold finv. cbn [n m F]. rewrite invz_ok. cbn [bind].
  apply FQ_init_int; assumption.
Qed.

Lemma divF x y : div (F q x) (VFQ (F q y)) = Ok (F q (x * invz q y)).
Proof.
  unfold div. rewrite other_n_FQ by reflexivity. cbn [bind n m F].
  rewrite invz_ok. cbn [bind]. rewrite reduce_twice by assumption.
  f_equal. apply F_eq_iff. apply Z.mul_mod_idemp_l; assumption.
Qed.

Lemma eqF x y : eq (F q x) (VFQ (F q y)) = Ok (x mod q =? y mod q).
Proof.
  unfold eq. cbn [n F].
  destruct (Z.eqb_spec (y mod q) 0) as [E|NE].
  - cbn [other_n bind]. rewrite E. reflexivity.
  - rewrite other_n_FQ by reflexivity. reflexivity.
Qed.

Lemma eq_intF x z : eq (F q x) (VInt z) = Ok (x mod q =? z).
Proof. reflexivity. Qed.

Lemma ne_intF x z : ne (F q x) (VInt z) = Ok (negb (x mod q =? z)).
Proof. reflexivity. Qed.

Lemma invz_zero x : x mod q = 0 -> invz q x = 0.
Proof. intros E. unfold invz. rewrite E. reflexivity. Qed.

Lemma invz_mod x : invz q (x mod q) = invz q x.
Proof. unfold invz. rewrite Z.mod_mod by assumption. reflexivity. Qed.

End FieldEval.

Lemma invz_inverse q x : Z.prime q -> x mod q <> 0 -> (x * invz q x) mod q = 1.
Proof.
  intros Hp Hx. pose proof (Z.prime_ge_2 _ Hp) as Hge.
  assert (Hg : Z.gcd (x mod q) q = 1).
  { apply prime_coprime; [assumption|]. rewrite Z.mod_mod by lia. assumption. }
  destruct (inv_coprime (x mod q) q ltac:(lia) Hg) as (i & Hi & _ & Hone).
  unfold invz. rewrite Hi. rewrite Z.mul_mod_idemp_l in Hone by lia. assumption.
Qed.

(** ** The default field *)

Lemma Q_nonzero : SNARK_SCALAR_FIELD <> 0.
Proof. discriminate. Qed.

Lemma in_field_F (a : FQ) : in_field a -> a = F SNARK_SCALAR_FIELD (n a).
Proof.
  intros [Hm Hr]. unfold JUBJUB_Q in *. destruct a as [v q]; simpl in *. subst q.
  unfold F. rewrite Z.mod_small by assumption. reflexivity.
Qed.

Lemma F_in_field x : in_field (F SNARK_SCALAR_FIELD x).
Proof.
  split; [reflexivity|]. cbn [n F]. apply Z.mod_pos_bound. reflexivity.
Qed.

Lemma FQ_F k : FQ_ k = Ok (F SNARK_SCALAR_FIELD k).
Proof. apply FQ_init_int, Q_nonzero. Qed.

Lemma one_F : one SNARK_SCALAR_FIELD = Ok (F SNARK_SCALAR_FIELD 1).
Proof. apply FQ_init_int, Q_nonzero. Qed.

Lemma bind_ret {A B} (a : A) (k : A -> result B) : bind (Ok a) k = k a.
Proof. reflexivity. Qed.

Lemma and_then_ret b c : and_then (Ok b) c = if b then c else Ok false.
Proof. reflexivity. Qed.

(** One step of the evaluation of a method on reduced field elements. *)
Ltac fq_step :=
  first
    [ rewrite bind_ret | rewrite and_then_ret
    | rewrite (mulF _ Q_nonzero) | rewrite (mul_intF _ Q_nonzero)
    | rewrite (addF _ Q_nonzero) | rewrite (add_intF _ Q_nonzero)
    | rewrite (subF _ Q_nonzero) | rewrite (negF _ Q_nonzero)
    | rewrite (finvF _ Q_nonzero) | rewrite (divF _ Q_nonzero)
    | rewrite eqF | rewrite eq_intF | rewrite ne_intF
    | rewrite FQ_F | rewrite one_F ];
  cbv beta.

Ltac fq_eval := repeat fq_step.

(** ** Affine points *)

Lemma Point_in_field_F (p : Point) :
  Point_in_field p ->
  p = mkPoint (F SNARK_SCALAR_FIELD (n (Point_x p))) (F SNARK_SCALAR_FIELD (n (Point_y p))).
Proof.
  intros [Hx Hy]. destruct p as [x y]; cbn [Point_x Point_y] in *.
  rewrite <- (in_field_F x Hx), <- (in_field_F y Hy). reflexivity.
Qed.

Lemma affine_quotients_congr q e1 d1 e2 d2 e1' d1' e2' d2' :
  e1 = e1' -> d1 = d1' -> e2 = e2' -> d2 = d2' ->
  Ok (mkPoint (F q (e1 * invz q d1)) (F q (e2 * invz q d2))) =
  Ok (mkPoint (F q (e1' * invz q d1')) (F q (e2' * invz q d2'))).
Proof. intros -> -> -> ->. reflexivity. Qed.

Lemma Point_add_eval x1 y1 x2 y2 :
  Point_add (mkPoint (F SNARK_SCALAR_FIELD x1) (F SNARK_SCALAR_FIELD y1))
            (mkPoint (F SNARK_SCALAR_FIELD x2) (F SNARK_SCALAR_FIELD y2)) =
  if (x1 mod SNARK_SCALAR_FIELD =? 0) && (y1 mod SNARK_SCALAR_FIELD =? 0)
  then Ok (mkPoint (F SNARK_SCALAR_FIELD x2) (F SNARK_SCALAR_FIELD y2))
  else Ok (mkPoint
    (F SNARK_SCALAR_FIELD
       ((x1 * y2 + y1 * x2) *
        invz SNARK_SCALAR_FIELD (1 + JUBJUB_D * x1 * x2 * y1 * y2)))
    (F SNARK_SCALAR_FIELD
       ((y1 * y2 - JUBJUB_A * x1 * x2) *
        invz SNARK_SCALAR_FIELD (1 - JUBJUB_D * x1 * x2 * y1 * y2)))).
Proof.
  unfold Point_add. cbv beta iota delta [Point_x Point_y]. fq_eval.
  destruct (x1 mod SNARK_SCALAR_FIELD =? 0); cbv beta iota delta [andb];
    [destruct (y1 mod SNARK_SCALAR_FIELD =? 0); [reflexivity|] |]; fq_eval.
  all: apply affine_quotients_congr; ring.
Qed.

(** C7: affine addition returns [other] as it is when [self] is the
    all-zero pair (0, 0), whatever [other] is; for every other [self]
    (the identity (0, 1) among them) it applies the unified formula
    u3 = (u1*v2 + v1*u2) / (1 + D*u1*u2*v1*v2),
    v3 = (v1*v2 - A*u1*u2) / (1 - D*u1*u2*v1*v2), the division being the
    product by the inverse that [inv] computes. *)
Theorem Point_add_cases (self other : Point) :
  (n (Point_x self) = 0 -> n (Point_y self) = 0 -> Point_add self other = Ok other) /\
  (Point_in_field self -> Point_in_field other ->
   ~ (n (Point_x self) = 0 /\ n (Point_y self) = 0) ->
   let u1 := n (Point_x self) in
   let v1 := n (Point_y self) in
   let u2 := n (Point_x other) in
   let v2 := n (Point_y other) in
   Point_add self other =
   Ok (mkPoint
         (F JUBJUB_Q ((u1 * v2 + v1 * u2) *
                      invz JUBJUB_Q (1 + JUBJUB_D * u1 * u2 * v1 * v2)))
         (F JUBJUB_Q ((v1 * v2 - JUBJUB_A * u1 * u2) *
                      invz JUBJUB_Q (1 - JUBJUB_D * u1 * u2 * v1 * v2))))).
Proof.
  split.
  - intros Hx Hy. unfold Point_add, and_then, eq. cbn [other_n bind].
    rewrite Hx, Hy. reflexivity.
  - intros Hs Ho Hnz u1 v1 u2 v2.
    rewrite (Point_in_field_F self Hs), (Point_in_field_F other Ho) at 1.
    rewrite Point_add_eval. fold u1 v1 u2 v2.
    destruct Hs as [[_ Hx] [_ Hy]]. fold u1 in Hx. fold v1 in Hy.
    unfold JUBJUB_Q in *. rewrite (Z.mod_small u1), (Z.mod_small v1) by assumption.
    destruct (Z.eqb_spec u1 0) as [E1|]; [|reflexivity].
    destruct (Z.eqb_spec v1 0) as [E2|]; [|reflexivity].
    exfalso. apply Hnz. split; assumption.
Qed.

Lemma Point_add_cases_identity_not_guarded :
  Point_add (mkPoint (F JUBJUB_Q 0) (F JUBJUB_Q 1)) (mkPoint (F JUBJUB_Q 3) (F JUBJUB_Q 5)) =
  Ok (mkPoint (F JUBJUB_Q 3) (F JUBJUB_Q 5)).
Proof. vm_compute. reflexivity. Qed.

(** ** Conversion to affine coordinates with [Z = 0] *)

(** C10: an extended point with [Z = 0] is taken to the affine pair
    (0, 0) by [EtecPoint.as_point], without any error, because the inverse
    of 0 is 0; [ProjPoint.as_point] on the same coordinates fails its
    assertion [Z != 0]. *)
Theorem as_point_of_zero_Z (x y t z : FQ) :
  m z <> 0 -> m x = m z -> m y = m z -> n z = 0 ->
  Etec_as_point (mkEtec x y t z) = Ok (mkPoint (mkFQ 0 (m z)) (mkFQ 0 (m z))) /\
  Proj_as_point (mkProj x y z) = Raise AssertionError.
Proof.
  intros Hm Hx Hy Hz. split.
  - unfold Etec_as_point. cbn [Etec_x Etec_y Etec_z].
    rewrite (finv_zero z Hm Hz). cbn [bind].
    rewrite (mul_F x _ (m z)), (mul_F y _ (m z)) by auto. cbn [bind n].
    rewrite !Z.mul_0_r. unfold F. rewrite Z.mod_0_l by assumption. reflexivity.
  - unfold Proj_as_point, ne, eq. cbn [Proj_z other_n bind].
    rewrite Hz. reflexivity.
Qed.

Lemma as_point_of_zero_Z_witness :
  m (F JUBJUB_Q 0) <> 0 /\ m (F JUBJUB_Q 3) = m (F JUBJUB_Q 0) /\
  m (F JUBJUB_Q 4) = m (F JUBJUB_Q 0) /\ n (F JUBJUB_Q 0) = 0 /\
  Etec_as_point (mkEtec (F JUBJUB_Q 3) (F JUBJUB_Q 4) (F JUBJUB_Q 12) (F JUBJUB_Q 0)) =
    Ok (mkPoint (mkFQ 0 JUBJUB_Q) (mkFQ 0 JUBJUB_Q)) /\
  Proj_as_point (mkProj (F JUBJUB_Q 3) (F JUBJUB_Q 4) (F JUBJUB_Q 0)) =
    Raise AssertionError.
Proof.
  assert (H1 : m (F JUBJUB_Q 0) <> 0) by (vm_compute; discriminate).
  assert (H2 : m (F JUBJUB_Q 3) = m (F JUBJUB_Q 0)) by reflexivity.
  assert (H3 : m (F JUBJUB_Q 4) = m (F JUBJUB_Q 0)) by reflexivity.
  assert (H4 : n (F JUBJUB_Q 0) = 0) by reflexivity.
  repeat (split; [assumption|]).
  exact (as_point_of_zero_Z (F JUBJUB_Q 3) (F JUBJUB_Q 4) (F JUBJUB_Q 12) (F JUBJUB_Q 0)
           H1 H2 H3 H4).
Defined.

(** ** The test vector *)

(** C2: for the point A of the test suite, the affine [A.add(A)], the
    extended [A.as_etec().double()] and the projective
    [A.as_proj().double()], each taken to affine coordinates, are the point
    (68908557726003577549...397365, 43386203001859475610...257889). *)
Theorem point_a_doubles :
  point_a =
    Ok (mkPoint
          (mkFQ 0x274dbce8d15179969bc0d49fa725bddf9de555e0ba6a693c6adb52fc9ee7a82c JUBJUB_Q)
          (mkFQ 0x5ce98c61b05f47fe2eae9a542bd99f6b2e78246231640b54595febfd51eb853 JUBJUB_Q)) /\
  point_a_double =
    Ok (mkPoint
          (mkFQ 6890855772600357754907169075114257697580319025794532037257385534741338397365 JUBJUB_Q)
          (mkFQ 4338620300185947561074059802482547481416142213883829469920100239455078257889 JUBJUB_Q)) /\
  (a <- point_a ;; r <- Point_add a a ;; Point_as_point r) = point_a_double /\
  (a <- point_a ;; e <- Point_as_etec a ;; r <- Etec_double e ;; Etec_as_point r)
    = point_a_double /\
  (a <- point_a ;; j <- Point_as_proj a ;; r <- Proj_double j ;; Proj_as_point r)
    = point_a_double.
Proof.
  split; [vm_compute; reflexivity|].
  split; [vm_compute; reflexivity|].
  split; [vm_compute; reflexivity|].
  split; vm_compute; reflexivity.
Qed.

(** ** Congruences modulo the field prime *)

Local Notation "'Q'" := SNARK_SCALAR_FIELD (only parsing).

Lemma cong_iff a b : a mod Q = b mod Q <-> (Q | a - b).
Proof. apply Z.cong_iff_ex. Qed.

Lemma F_cong a b : (Q | a - b) -> F Q a = F Q b.
Proof. intros H. apply F_eq_iff, cong_iff. assumption. Qed.

Lemma divide_comb1 h c g : (Q | h) -> g = c * h -> (Q | g).
Proof. intros H ->. apply Z.divide_mul_r. assumption. Qed.

Lemma divide_comb2 h1 h2 c1 c2 g :
  (Q | h1) -> (Q | h2) -> g = c1 * h1 + c2 * h2 -> (Q | g).
Proof.
  intros H1 H2 ->. apply Z.divide_add_r; apply Z.divide_mul_r; assumption.
Qed.

Lemma divide_comb3 h1 h2 h3 c1 c2 c3 g :
  (Q | h1) -> (Q | h2) -> (Q | h3) -> g = c1 * h1 + c2 * h2 + c3 * h3 -> (Q | g).
Proof.
  intros H1 H2 H3 ->.
  repeat apply Z.divide_add_r; apply Z.divide_mul_r; assumption.
Qed.

Lemma nonzero_iff w : w mod Q <> 0 <-> ~ (Q | w).
Proof. rewrite (Z.mod_divide w Q Q_nonzero). reflexivity. Qed.

Lemma nonzero_mul l w : l mod Q <> 0 -> w mod Q <> 0 -> (l * w) mod Q <> 0.
Proof.
  rewrite !nonzero_iff. intros Hl Hw H.
  apply (Z.divide_prime_mul _ _ _ SNARK_SCALAR_FIELD_prime) in H.
  destruct H; contradiction.
Qed.

Lemma invz_cong w w' : (Q | w' - w) -> invz Q w' = invz Q w.
Proof.
  intros H. apply cong_iff in H.
  rewrite <- (invz_mod Q Q_nonzero w'), H. apply (invz_mod Q Q_nonzero).
Qed.

Lemma invz_divides w : w mod Q <> 0 -> (Q | w * invz Q w - 1).
Proof.
  intros Hw. apply cong_iff.
  rewrite (invz_inverse Q w SNARK_SCALAR_FIELD_prime Hw). reflexivity.
Qed.

Lemma invz_one : invz Q 1 = 1.
Proof. vm_compute. reflexivity. Qed.

(** Coordinates that differ by a common non-zero factor [l] have the same
    quotient. *)
Lemma scale_quotient (l x w x' w' : Z) :
  l mod Q <> 0 -> (Q | x' - l * x) -> (Q | w' - l * w) ->
  F Q (x' * invz Q w') = F Q (x * invz Q w).
Proof.
  intros Hl Hx Hw. rewrite (invz_cong (l * w) w' Hw).
  destruct (Z.eq_dec (w mod Q) 0) as [E|NE].
  - rewrite (invz_zero Q w E).
    assert (E' : (l * w) mod Q = 0).
    { apply (Z.mod_divide _ _ Q_nonzero), Z.divide_mul_r.
      apply (Z.mod_divide _ _ Q_nonzero). assumption. }
    rewrite (invz_zero Q _ E'), !Z.mul_0_r. reflexivity.
  - pose proof (invz_divides w NE) as Ha.
    pose proof (invz_divides (l * w) (nonzero_mul l w Hl NE)) as Hb.
    set (a := invz Q w) in *. set (b := invz Q (l * w)) in *.
    apply F_cong.
    apply (divide_comb3 _ _ _ b (x * a) (- (x * (l * b))) _ Hx Hb Ha). ring.
Qed.

Lemma zero_iff_scaled (l w w' : Z) :
  l mod Q <> 0 -> (Q | w' - l * w) -> (w' mod Q =? 0) = (w mod Q =? 0).
Proof.
  intros Hl Hw. apply cong_iff in Hw.
  destruct (Z.eqb_spec (w mod Q) 0) as [E|NE].
  - apply Z.eqb_eq. rewrite Hw.
    apply (Z.mod_divide _ _ Q_nonzero), Z.divide_mul_r.
    apply (Z.mod_divide _ _ Q_nonzero). assumption.
  - apply Z.eqb_neq. rewrite Hw. apply nonzero_mul; assumption.
Qed.

(** *** The curve equation on projective and extended coordinates *)

Section CurveEquation.
Variables x y t z u : Z.
Hypothesis Hu : (Q | z * u - 1).
Hypothesis Hc :
  (Q | (x * u) * (x * u) * JUBJUB_A + (y * u) * (y * u)
       - ((x * u) * (x * u) * JUBJUB_D * ((y * u) * (y * u)) + 1)).

Lemma curve_projective :
  (Q | (x * x * JUBJUB_A + y * y) * (z * z)
       - (z * z * (z * z) + x * x * (y * y) * JUBJUB_D)).
Proof.
  apply (divide_comb2 _ _
           (z * z * (z * z))
           (- ((z * u + 1) *
               ((x * x * JUBJUB_A + y * y) * (z * z)
                - JUBJUB_D * (x * x) * (y * y) * (z * u * (z * u) + 1))))
           _ Hc Hu).
  ring.
Qed.

Hypothesis Ht : (Q | t * z - x * y).

Lemma curve_extended :
  (Q | x * x * JUBJUB_A + y * y - (z * z + t * JUBJUB_D * t)).
Proof.
  pose proof curve_projective as HP.
  apply (divide_comb3 _ _ _
           (u * u)
           (- (u * u * JUBJUB_D * (2 * t * z - (t * z - x * y))))
           (- ((x * x * JUBJUB_A + y * y - (z * z + t * JUBJUB_D * t)) * (z * u + 1)))
           _ HP Ht Hu).
  ring.
Qed.

End CurveEquation.

Lemma on_curve_divides X Y :
  on_curve X Y = true ->
  (Q | X * X * JUBJUB_A + Y * Y - (X * X * JUBJUB_D * (Y * Y) + 1)).
Proof. unfold on_curve. intros H. apply Z.eqb_eq in H. apply cong_iff. exact H. Qed.

Lemma on_curve_nonzero_Z x y z :
  on_curve (x * invz Q z) (y * invz Q z) = true -> z mod Q <> 0.
Proof.
  intros H E. rewrite (invz_zero Q z E) in H. unfold on_curve in H.
  rewrite !Z.mul_0_r in H. vm_compute in H. discriminate.
Qed.

(** ** Extended points *)

Lemma Etec_in_field_F (p : EtecPoint) :
  Etec_in_field p ->
  p = mkEtec (F Q (n (Etec_x p))) (F Q (n (Etec_y p)))
             (F Q (n (Etec_t p))) (F Q (n (Etec_z p))).
Proof.
  intros (Hx & Hy & Ht & Hz).
  destruct p as [x y t z]; cbn [Etec_x Etec_y Etec_t Etec_z] in *.
  rewrite <- (in_field_F x Hx), <- (in_field_F y Hy), <- (in_field_F t Ht),
    <- (in_field_F z Hz). reflexivity.
Qed.

Lemma Etec_infinity_eval :
  Etec_infinity = Ok (mkEtec (F Q 0) (F Q 1) (F Q 0) (F Q 1)).
Proof. unfold Etec_infinity. fq_eval. reflexivity. Qed.

Lemma Etec_eq_eval x y t z x' y' t' z' :
  Etec_eq (mkEtec (F Q x) (F Q y) (F Q t) (F Q z))
          (mkEtec (F Q x') (F Q y') (F Q t') (F Q z')) =
  Ok ((x mod Q =? x' mod Q) && ((y mod Q =? y' mod Q) &&
      ((t mod Q =? t' mod Q) && (z mod Q =? z' mod Q)))).
Proof.
  unfold Etec_eq. cbv beta iota delta [Etec_x Etec_y Etec_t Etec_z]. fq_eval.
  destruct (x mod Q =? x' mod Q), (y mod Q =? y' mod Q), (t mod Q =? t' mod Q);
    reflexivity.
Qed.

Lemma is_etec_infinity_true x y t z :
  is_etec_infinity x y t z = true ->
  mkEtec (F Q x) (F Q y) (F Q t) (F Q z) = mkEtec (F Q 0) (F Q 1) (F Q 0) (F Q 1).
Proof.
  unfold is_etec_infinity. intros H.
  apply andb_true_iff in H as [Hx H]. apply andb_true_iff in H as [Hy H].
  apply andb_true_iff in H as [Ht Hz].
  apply Z.eqb_eq in Hx, Hy, Ht, Hz.
  apply F_eq_iff in Hx, Hy, Ht, Hz. rewrite Hx, Hy, Ht, Hz. reflexivity.
Qed.

Lemma Etec_as_point_eval x y t z :
  Etec_as_point (mkEtec (F Q x) (F Q y) (F Q t) (F Q z)) =
  Ok (mkPoint (F Q (x * invz Q z)) (F Q (y * invz Q z))).
Proof.
  unfold Etec_as_point. cbv beta iota delta [Etec_x Etec_y Etec_t Etec_z]. fq_eval.
  reflexivity.
Qed.

Lemma Point_valid_eval x y :
  Point_valid (mkPoint (F Q x) (F Q y)) = Ok (on_curve x y).
Proof.
  unfold Point_valid. cbv beta iota delta [Point_x Point_y]. fq_eval. reflexivity.
Qed.

Lemma Etec_valid_eval x y t z :
  Etec_valid (mkEtec (F Q x) (F Q y) (F Q t) (F Q z)) =
  Ok (on_curve (x * invz Q z) (y * invz Q z)).
Proof.
  unfold Etec_valid. rewrite Etec_as_point_eval, bind_ret. apply Point_valid_eval.
Qed.

Lemma Etec_double_eval x y t z :
  Etec_double (mkEtec (F Q x) (F Q y) (F Q t) (F Q z)) =
  if is_etec_infinity x y t z
  then Ok (mkEtec (F Q 0) (F Q 1) (F Q 0) (F Q 1))
  else let '(X, Y, T, Z) := etec_double_coords x y t z in
       Ok (mkEtec (F Q X) (F Q Y) (F Q T) (F Q Z)).
Proof.
  unfold Etec_double, is_etec_infinity.
  rewrite Etec_infinity_eval, bind_ret, Etec_eq_eval, bind_ret.
  cbv beta iota delta [Etec_x Etec_y Etec_t Etec_z].
  destruct (_ && _); [reflexivity|]. fq_eval. reflexivity.
Qed.

Lemma Etec_add_eval x1 y1 t1 z1 x2 y2 t2 z2 :
  Etec_add (mkEtec (F Q x1) (F Q y1) (F Q t1) (F Q z1))
           (mkEtec (F Q x2) (F Q y2) (F Q t2) (F Q z2)) =
  if is_etec_infinity x1 y1 t1 z1
  then Ok (mkEtec (F Q x2) (F Q y2) (F Q t2) (F Q z2))
  else if z1 mod Q =? 0 then Raise AssertionError
  else if z2 mod Q =? 0 then Raise AssertionError
  else let '(X, Y, T, Z) := etec_add_coords x1 y1 t1 z1 x2 y2 t2 z2 in
       Ok (mkEtec (F Q X) (F Q Y) (F Q T) (F Q Z)).
Proof.
  unfold Etec_add, is_etec_infinity.
  rewrite Etec_infinity_eval, bind_ret, Etec_eq_eval, bind_ret.
  cbv beta iota delta [Etec_x Etec_y Etec_t Etec_z].
  destruct (_ && _); [reflexivity|]. fq_eval.
  destruct (z1 mod Q =? 0); cbv beta iota delta [negb]; [reflexivity|].
  destruct (z2 mod Q =? 0); cbv beta iota delta [negb]; [reflexivity|].
  fq_eval. reflexivity.
Qed.

(** On a point of the curve with [T Z = X Y], the coordinates from [add]
    are those from [double], all four with the opposite sign. *)
Lemma etec_double_add_coords x y t z :
  on_curve (x * invz Q z) (y * invz Q z) = true ->
  (Q | t * z - x * y) ->
  let '(X, Y, T, Z) := etec_double_coords x y t z in
  let '(X', Y', T', Z') := etec_add_coords x y t z x y t z in
  (Q | X' - (-1) * X) /\ (Q | Y' - (-1) * Y) /\ (Q | T' - (-1) * T) /\
  (Q | Z' - (-1) * Z).
Proof.
  intros Hc Ht. pose proof (on_curve_nonzero_Z x y z Hc) as Hz.
  pose proof (curve_extended x y t z (invz Q z) (invz_divides z Hz)
                (on_curve_divides _ _ Hc) Ht) as HR.
  unfold etec_double_coords, etec_add_coords. cbv zeta.
  split; [|split; [|split]].
  - apply (divide_comb1 _ ((x + y) * (x + y) - x * x - y * y) _ HR). ring.
  - apply (divide_comb1 _ (x * x * JUBJUB_A - y * y) _ HR). ring.
  - apply (divide_comb1 _ 0 _ HR). ring.
  - apply (divide_comb1 _
             (x * x * JUBJUB_A + y * y - (z * z + t * JUBJUB_D * t)
              + 2 * (t * JUBJUB_D * t)) _ HR). ring.
Qed.

(** ** Projective points *)

Lemma Proj_in_field_F (p : ProjPoint) :
  Proj_in_field p ->
  p = mkProj (F Q (n (Proj_x p))) (F Q (n (Proj_y p))) (F Q (n (Proj_z p))).
Proof.
  intros (Hx & Hy & Hz). destruct p as [x y z]; cbn [Proj_x Proj_y Proj_z] in *.
  rewrite <- (in_field_F x Hx), <- (in_field_F y Hy), <- (in_field_F z Hz).
  reflexivity.
Qed.

Lemma Proj_infinity_eval : Proj_infinity = Ok (mkProj (F Q 0) (F Q 1) (F Q 1)).
Proof. unfold Proj_infinity. fq_eval. reflexivity. Qed.

Lemma Proj_eq_eval x y z x' y' z' :
  Proj_eq (mkProj (F Q x) (F Q y) (F Q z)) (mkProj (F Q x') (F Q y') (F Q z')) =
  Ok ((x mod Q =? x' mod Q) && ((y mod Q =? y' mod Q) && (z mod Q =? z' mod Q))).
Proof.
  unfold Proj_eq. cbv beta iota delta [Proj_x Proj_y Proj_z]. fq_eval.
  destruct (x mod Q =? x' mod Q), (y mod Q =? y' mod Q); reflexivity.
Qed.

Lemma is_proj_infinity_true x y z :
  is_proj_infinity x y z = true ->
  mkProj (F Q x) (F Q y) (F Q z) = mkProj (F Q 0) (F Q 1) (F Q 1).
Proof.
  unfold is_proj_infinity. intros H.
  apply andb_true_iff in H as [Hx H]. apply andb_true_iff in H as [Hy Hz].
  apply Z.eqb_eq in Hx, Hy, Hz.
  apply F_eq_iff in Hx, Hy, Hz. rewrite Hx, Hy, Hz. reflexivity.
Qed.

Lemma Proj_as_point_eval x y z :
  Proj_as_point (mkProj (F Q x) (F Q y) (F Q z)) =
  if z mod Q =? 0 then Raise AssertionError
  else Ok (mkPoint (F Q (x * invz Q z)) (F Q (y * invz Q z))).
Proof.
  unfold Proj_as_point. cbv beta iota delta [Proj_x Proj_y Proj_z]. fq_eval.
  destruct (z mod Q =? 0); cbv beta iota delta [negb]; [reflexivity|].
  fq_eval. reflexivity.
Qed.

Lemma Proj_rescale_eval x y z :
  Proj_rescale (mkProj (F Q x) (F Q y) (F Q z)) =
  Ok (mkProj (F Q (x * invz Q z)) (F Q (y * invz Q z)) (F Q 1)).
Proof.
  unfold Proj_rescale. cbv beta iota delta [Proj_x Proj_y Proj_z]. fq_eval.
  reflexivity.
Qed.

Lemma Proj_valid_eval x y z :
  Proj_valid (mkProj (F Q x) (F Q y) (F Q z)) =
  if z mod Q =? 0 then Raise AssertionError
  else Ok (on_curve (x * invz Q z) (y * invz Q z)).
Proof.
  unfold Proj_valid. rewrite Proj_as_point_eval.
  destruct (z mod Q =? 0); [reflexivity|]. rewrite bind_ret. apply Point_valid_eval.
Qed.

Lemma Proj_double_eval x y z :
  Proj_double (mkProj (F Q x) (F Q y) (F Q z)) =
  if is_proj_infinity x y z
  then Ok (mkProj (F Q 0) (F Q 1) (F Q 1))
  else let '(X, Y, Z) := proj_double_coords x y z in
       Ok (mkProj (F Q X) (F Q Y) (F Q Z)).
Proof.
  unfold Proj_double, is_proj_infinity.
  rewrite Proj_infinity_eval, bind_ret, Proj_eq_eval, bind_ret.
  cbv beta iota delta [Proj_x Proj_y Proj_z].
  destruct (_ && _); [reflexivity|]. fq_eval. reflexivity.
Qed.

Lemma Proj_add_eval x1 y1 z1 x2 y2 z2 :
  Proj_add (mkProj (F Q x1) (F Q y1) (F Q z1)) (mkProj (F Q x2) (F Q y2) (F Q z2)) =
  if is_proj_infinity x1 y1 z1
  then Ok (mkProj (F Q x2) (F Q y2) (F Q z2))
  else let '(X, Y, Z) := proj_add_coords x1 y1 z1 x2 y2 z2 in
       Ok (mkProj (F Q X) (F Q Y) (F Q Z)).
Proof.
  unfold Proj_add, is_proj_infinity.
  rewrite Proj_infinity_eval, bind_ret, Proj_eq_eval, bind_ret.
  cbv beta iota delta [Proj_x Proj_y Proj_z].
  destruct (_ && _); [reflexivity|]. fq_eval. reflexivity.
Qed.

(** On a point of the curve, the coordinates from [add] are those from
    [double], all multiplied by [- Z^4]. *)
Lemma proj_double_add_coords x y z :
  z mod Q <> 0 -> on_curve (x * invz Q z) (y * invz Q z) = true ->
  let l := - (z * z * (z * z)) in
  let '(X, Y, Z) := proj_double_coords x y z in
  let '(X', Y', Z') := proj_add_coords x y z x y z in
  l mod Q <> 0 /\ (Q | X' - l * X) /\ (Q | Y' - l * Y) /\ (Q | Z' - l * Z).
Proof.
  intros Hz Hc l.
  pose proof (curve_projective x y z (invz Q z) (invz_divides z Hz)
                (on_curve_divides _ _ Hc)) as HP.
  unfold proj_double_coords, proj_add_coords. cbv zeta.
  split; [|split; [|split]].
  - unfold l. replace (- (z * z * (z * z))) with ((-1) * (z * z * (z * z))) by ring.
    apply nonzero_mul; [vm_compute; discriminate|].
    apply nonzero_mul; apply nonzero_mul; assumption.
  - apply (divide_comb1 _ (z * z * ((x + y) * (x + y) - x * x - y * y)) _ HP).
    unfold l. ring.
  - apply (divide_comb1 _ (z * z * (x * x * JUBJUB_A - y * y)) _ HP).
    unfold l. ring.
  - apply (divide_comb1 _
             ((x * x * JUBJUB_A + y * y) * (z * z)
              - (z * z * (z * z) + x * x * (y * y) * JUBJUB_D)
              + 2 * (x * x * (y * y) * JUBJUB_D)) _ HP).
    unfold l. ring.
Qed.

(** ** Doubling and adding a point to itself *)

Lemma minus_one_nonzero : (-1) mod Q <> 0.
Proof. vm_compute. discriminate. Qed.

(** A coordinate multiplied by the integer [l]. *)
Lemma scaled_coordinate l X X' :
  (Q | X' - l * X) -> mul (F Q X) (VInt l) = Ok (F Q X').
Proof.
  intros H. rewrite (mul_intF _ Q_nonzero). f_equal. apply F_cong.
  apply (divide_comb1 _ (-1) _ H). ring.
Qed.

Lemma is_etec_infinity_false x y t z :
  is_etec_infinity x y t z = false ->
  Etec_infinity <> Ok (mkEtec (F Q x) (F Q y) (F Q t) (F Q z)).
Proof.
  intros Hi E. rewrite Etec_infinity_eval in E. injection E as Ex Ey Et Ez.
  unfold is_etec_infinity in Hi. rewrite <- Ex, <- Ey, <- Et, <- Ez in Hi.
  rewrite !Z.eqb_refl in Hi. discriminate.
Qed.

Lemma is_proj_infinity_false x y z :
  is_proj_infinity x y z = false ->
  Proj_infinity <> Ok (mkProj (F Q x) (F Q y) (F Q z)).
Proof.
  intros Hi E. rewrite Proj_infinity_eval in E. injection E as Ex Ey Ez.
  unfold is_proj_infinity in Hi. rewrite <- Ex, <- Ey, <- Ez in Hi.
  rewrite !Z.eqb_refl in Hi. discriminate.
Qed.

Lemma Etec_double_add_F x y t z :
  Etec_valid (mkEtec (F Q x) (F Q y) (F Q t) (F Q z)) = Ok true ->
  (Q | t * z - x * y) ->
  exists d s a,
    Etec_double (mkEtec (F Q x) (F Q y) (F Q t) (F Q z)) = Ok d /\
    Etec_add (mkEtec (F Q x) (F Q y) (F Q t) (F Q z))
             (mkEtec (F Q x) (F Q y) (F Q t) (F Q z)) = Ok s /\
    Etec_as_point d = Ok a /\ Etec_as_point s = Ok a /\
    (Etec_infinity = Ok (mkEtec (F Q x) (F Q y) (F Q t) (F Q z)) -> s = d) /\
    (Etec_infinity <> Ok (mkEtec (F Q x) (F Q y) (F Q t) (F Q z)) ->
     mul (Etec_x d) (VInt (-1)) = Ok (Etec_x s) /\
     mul (Etec_y d) (VInt (-1)) = Ok (Etec_y s) /\
     mul (Etec_t d) (VInt (-1)) = Ok (Etec_t s) /\
     mul (Etec_z d) (VInt (-1)) = Ok (Etec_z s)).
Proof.
  intros Hv Ht. rewrite Etec_valid_eval in Hv. injection Hv as Hc.
  pose proof (on_curve_nonzero_Z x y z Hc) as Hz.
  rewrite Etec_double_eval, Etec_add_eval.
  destruct (is_etec_infinity x y t z) eqn:Ei.
  - rewrite (is_etec_infinity_true _ _ _ _ Ei).
    do 3 eexists. split; [reflexivity|]. split; [reflexivity|].
    split; [apply Etec_as_point_eval|]. split; [apply Etec_as_point_eval|].
    split; [reflexivity|]. intros Hne. exfalso. apply Hne. exact Etec_infinity_eval.
  - apply Z.eqb_neq in Hz. rewrite Hz.
    pose proof (etec_double_add_coords x y t z Hc Ht) as Hco.
    destruct (etec_double_coords x y t z) as [[[X Y] T] Z].
    destruct (etec_add_coords x y t z x y t z) as [[[X' Y'] T'] Z'].
    destruct Hco as (HX & HY & HT & HZ).
    do 3 eexists. split; [reflexivity|]. split; [reflexivity|].
    split; [apply Etec_as_point_eval|]. split; [|split].
    + rewrite Etec_as_point_eval.
      rewrite (scale_quotient (-1) X Z X' Z' minus_one_nonzero HX HZ).
      rewrite (scale_quotient (-1) Y Z Y' Z' minus_one_nonzero HY HZ).
      reflexivity.
    + intros E. exfalso. exact (is_etec_infinity_false _ _ _ _ Ei E).
    + intros _. cbn [Etec_x Etec_y Etec_t Etec_z].
      repeat split; apply scaled_coordinate; assumption.
Qed.

Lemma Proj_double_add_F x y z :
  Proj_valid (mkProj (F Q x) (F Q y) (F Q z)) = Ok true ->
  exists d s r,
    Proj_double (mkProj (F Q x) (F Q y) (F Q z)) = Ok d /\
    Proj_add (mkProj (F Q x) (F Q y) (F Q z)) (mkProj (F Q x) (F Q y) (F Q z)) = Ok s /\
    Proj_as_point d = Proj_as_point s /\
    Proj_rescale d = Ok r /\ Proj_rescale s = Ok r /\
    (Proj_infinity = Ok (mkProj (F Q x) (F Q y) (F Q z)) -> s = d) /\
    (Proj_infinity <> Ok (mkProj (F Q x) (F Q y) (F Q z)) ->
     let l := - (z * z * (z * z)) in
     l mod Q <> 0 /\
     mul (Proj_x d) (VInt l) = Ok (Proj_x s) /\
     mul (Proj_y d) (VInt l) = Ok (Proj_y s) /\
     mul (Proj_z d) (VInt l) = Ok (Proj_z s)).
Proof.
  intros Hv. rewrite Proj_valid_eval in Hv.
  destruct (Z.eqb_spec (z mod Q) 0) as [|Hz]; [discriminate|]. injection Hv as Hc.
  rewrite Proj_double_eval, Proj_add_eval.
  destruct (is_proj_infinity x y z) eqn:Ei.
  - rewrite (is_proj_infinity_true _ _ _ Ei).
    do 3 eexists. split; [reflexivity|]. split; [reflexivity|].
    split; [reflexivity|]. split; [apply Proj_rescale_eval|].
    split; [apply Proj_rescale_eval|].
    split; [reflexivity|]. intros Hne. exfalso. apply Hne. exact Proj_infinity_eval.
  - pose proof (proj_double_add_coords x y z Hz Hc) as Hco. cbv zeta in Hco.
    destruct (proj_double_coords x y z) as [[X Y] Z].
    destruct (proj_add_coords x y z x y z) as [[X' Y'] Z'].
    destruct Hco as (Hl & HX & HY & HZ).
    do 3 eexists. split; [reflexivity|]. split; [reflexivity|].
    rewrite !Proj_as_point_eval, !Proj_rescale_eval.
    rewrite (zero_iff_scaled _ Z Z' Hl HZ).
    rewrite (scale_quotient _ X Z X' Z' Hl HX HZ).
    rewrite (scale_quotient _ Y Z Y' Z' Hl HY HZ).
    split; [reflexivity|]. split; [reflexivity|]. split; [reflexivity|]. split.
    + intros E. exfalso. exact (is_proj_infinity_false _ _ _ Ei E).
    + intros _. cbv zeta. cbn [Proj_x Proj_y Proj_z].
      split; [exact Hl|]. repeat split; apply scaled_coordinate; assumption.
Qed.

(** C1 (as stated, refuted): for the point A of the test suite, which is
    on the curve, [double] and [add] of its extended form, and of its
    projective form, return tuples that [==] tells apart. *)
Lemma double_differs_from_add :
  (a <- point_a ;; e <- Point_as_etec a ;; v <- Etec_valid e ;;
   d <- Etec_double e ;; s <- Etec_add e e ;; b <- Etec_eq d s ;; Ok (v, b))
  = Ok (true, false) /\
  (a <- point_a ;; j <- Point_as_proj a ;; v <- Proj_valid j ;;
   d <- Proj_double j ;; s <- Proj_add j j ;; b <- Proj_eq d s ;; Ok (v, b))
  = Ok (true, false).
Proof. split; vm_compute; reflexivity. Qed.

(** C1 (amended): for every extended point on the curve with reduced
    coordinates and [T Z = X Y], [double] and [add(self)] both return, and
    the two results are the same point once taken to affine coordinates by
    [as_point]; for every projective point on the curve with reduced
    coordinates, [double] and [add(self)] both return, [rescale] takes the two
    results to the same triple, and [as_point] gives the same on both.  As
    tuples the two results are the same at the identity tuple, which both
    methods return as it is, and on any other point the result of [add] is
    the result of [double] with every coordinate, [T] included, multiplied
    by one non-zero factor: [-1] for an extended point, [- Z^4] for a
    projective one. *)
Theorem double_agrees_with_add :
  (forall p : EtecPoint,
     Etec_in_field p -> Etec_valid p = Ok true ->
     (n (Etec_t p) * n (Etec_z p)) mod JUBJUB_Q
       = (n (Etec_x p) * n (Etec_y p)) mod JUBJUB_Q ->
     exists d s a,
       Etec_double p = Ok d /\ Etec_add p p = Ok s /\
       Etec_as_point d = Ok a /\ Etec_as_point s = Ok a /\
       (Etec_infinity = Ok p -> s = d) /\
       (Etec_infinity <> Ok p ->
        mul (Etec_x d) (VInt (-1)) = Ok (Etec_x s) /\
        mul (Etec_y d) (VInt (-1)) = Ok (Etec_y s) /\
        mul (Etec_t d) (VInt (-1)) = Ok (Etec_t s) /\
        mul (Etec_z d) (VInt (-1)) = Ok (Etec_z s))) /\
  (forall p : ProjPoint,
     Proj_in_field p -> Proj_valid p = Ok true ->
     exists d s r,
       Proj_double p = Ok d /\ Proj_add p p = Ok s /\
       Proj_as_point d = Proj_as_point s /\
       Proj_rescale d = Ok r /\ Proj_rescale s = Ok r /\
       (Proj_infinity = Ok p -> s = d) /\
       (Proj_infinity <> Ok p ->
        let l := - (n (Proj_z p) * n (Proj_z p) * (n (Proj_z p) * n (Proj_z p))) in
        l mod JUBJUB_Q <> 0 /\
        mul (Proj_x d) (VInt l) = Ok (Proj_x s) /\
        mul (Proj_y d) (VInt l) = Ok (Proj_y s) /\
        mul (Proj_z d) (VInt l) = Ok (Proj_z s))).
Proof.
  split.
  - intros p Hf Hv Ht. pose proof (Etec_in_field_F p Hf) as Ep.
    remember (n (Etec_x p)) as x. remember (n (Etec_y p)) as y.
    remember (n (Etec_t p)) as t. remember (n (Etec_z p)) as z.
    apply cong_iff in Ht. rewrite Ep in Hv |- *.
    apply Etec_double_add_F; assumption.
  - intros p Hf Hv. pose proof (Proj_in_field_F p Hf) as Ep.
    remember (n (Proj_x p)) as x. remember (n (Proj_y p)) as y.
    remember (n (Proj_z p)) as z.
    rewrite Ep in Hv |- *. apply Proj_double_add_F; assumption.
Qed.

(** ** The identity element *)

Lemma F_reduced q x : 0 <= x < q -> F q x = mkFQ x q.
Proof. intros H. unfold F. rewrite Z.mod_small by assumption. reflexivity. Qed.

Lemma Point_infinity_eval : Point_infinity = Ok (mkPoint (F Q 0) (F Q 1)).
Proof. unfold Point_infinity. fq_eval. reflexivity. Qed.

Lemma Point_identity_F x y :
  0 <= x < Q -> 0 <= y < Q -> on_curve x y = true ->
  Point_add (mkPoint (F Q x) (F Q y)) (mkPoint (F Q 0) (F Q 1))
    = Ok (mkPoint (F Q x) (F Q y)) /\
  Point_add (mkPoint (F Q 0) (F Q 1)) (mkPoint (F Q x) (F Q y))
    = Ok (mkPoint (F Q x) (F Q y)).
Proof.
  intros Hx Hy Hc. rewrite !Point_add_eval. split.
  - rewrite (Z.mod_small x), (Z.mod_small y) by assumption.
    destruct (Z.eqb_spec x 0) as [Ex|_]; [destruct (Z.eqb_spec y 0) as [Ey|_]|].
    + subst x y. vm_compute in Hc. discriminate.
    + cbv beta iota delta [andb].
      replace (1 + JUBJUB_D * x * 0 * y * 1) with 1 by ring.
      replace (1 - JUBJUB_D * x * 0 * y * 1) with 1 by ring.
      rewrite invz_one. do 2 f_equal; f_equal; ring.
    + cbv beta iota delta [andb].
      replace (1 + JUBJUB_D * x * 0 * y * 1) with 1 by ring.
      replace (1 - JUBJUB_D * x * 0 * y * 1) with 1 by ring.
      rewrite invz_one. do 2 f_equal; f_equal; ring.
  - replace ((0 mod Q =? 0) && (1 mod Q =? 0)) with false by (vm_compute; reflexivity).
    replace (1 + JUBJUB_D * 0 * x * 1 * y) with 1 by ring.
    replace (1 - JUBJUB_D * 0 * x * 1 * y) with 1 by ring.
    rewrite invz_one. do 2 f_equal; f_equal; ring.
Qed.

Lemma proj_add_identity_coords x y z :
  let '(X, Y, Z) := proj_add_coords x y z 0 1 1 in
  X = z * z * z * x /\ Y = z * z * z * y /\ Z = z * z * z * z.
Proof. unfold proj_add_coords. cbv zeta. repeat split; ring. Qed.

Lemma divide_refl_eq a b : a = b -> (Q | a - b).
Proof. intros ->. rewrite Z.sub_diag. apply Z.divide_0_r. Qed.

Lemma Proj_identity_F x y z :
  Proj_add (mkProj (F Q 0) (F Q 1) (F Q 1)) (mkProj (F Q x) (F Q y) (F Q z))
    = Ok (mkProj (F Q x) (F Q y) (F Q z)) /\
  (exists s,
     Proj_add (mkProj (F Q x) (F Q y) (F Q z)) (mkProj (F Q 0) (F Q 1) (F Q 1)) = Ok s /\
     Proj_as_point s = Proj_as_point (mkProj (F Q x) (F Q y) (F Q z)) /\
     Proj_rescale s = Proj_rescale (mkProj (F Q x) (F Q y) (F Q z))) /\
  (z mod Q = 1 ->
   Proj_add (mkProj (F Q x) (F Q y) (F Q z)) (mkProj (F Q 0) (F Q 1) (F Q 1))
     = Ok (mkProj (F Q x) (F Q y) (F Q z))).
Proof.
  rewrite !Proj_add_eval.
  replace (is_proj_infinity 0 1 1) with true by (vm_compute; reflexivity).
  split; [reflexivity|].
  destruct (is_proj_infinity x y z) eqn:Ei.
  - rewrite (is_proj_infinity_true _ _ _ Ei). split; [|reflexivity].
    eexists. split; [reflexivity|]. split; reflexivity.
  - pose proof (proj_add_identity_coords x y z) as Hco.
    destruct (proj_add_coords x y z 0 1 1) as [[X Y] Z].
    destruct Hco as (HX & HY & HZ). split.
    + eexists. split; [reflexivity|].
      rewrite !Proj_as_point_eval, !Proj_rescale_eval.
      destruct (Z.eq_dec (z mod Q) 0) as [E|NE].
      * assert (EZ : Z mod Q = 0).
        { subst Z. apply (Z.mod_divide _ _ Q_nonzero), Z.divide_mul_r.
          apply (Z.mod_divide _ _ Q_nonzero). assumption. }
        rewrite E, EZ, (invz_zero Q z E), (invz_zero Q Z EZ), !Z.mul_0_r.
        split; reflexivity.
      * assert (Hl : (z * z * z) mod Q <> 0) by (repeat apply nonzero_mul; assumption).
        assert (HX' : (Q | X - z * z * z * x)) by (apply divide_refl_eq; assumption).
        assert (HY' : (Q | Y - z * z * z * y)) by (apply divide_refl_eq; assumption).
        assert (HZ' : (Q | Z - z * z * z * z)) by (apply divide_refl_eq; assumption).
        rewrite (zero_iff_scaled _ z Z Hl HZ').
        rewrite (scale_quotient _ x z X Z Hl HX' HZ').
        rewrite (scale_quotient _ y z Y Z Hl HY' HZ').
        split; reflexivity.
    + intros E1.
      assert (Hz : (Q | z - 1)).
      { apply cong_iff. rewrite E1. symmetry. apply Z.mod_1_l. reflexivity. }
      subst X Y Z. f_equal. f_equal; apply F_cong.
      * apply (divide_comb1 _ ((z * z + z + 1) * x) _ Hz). ring.
      * apply (divide_comb1 _ ((z * z + z + 1) * y) _ Hz). ring.
      * apply (divide_comb1 _ (z * (z * z + z + 1)) _ Hz). ring.
Qed.

Lemma etec_add_identity_coords x y t z :
  let '(X, Y, T, Z) := etec_add_coords x y t z 0 1 0 1 in
  X = z * x /\ Y = z * y /\ T = x * y /\ Z = z * z.
Proof. unfold etec_add_coords. cbv zeta. repeat split; ring. Qed.

Lemma Etec_identity_F x y t z :
  Etec_add (mkEtec (F Q 0) (F Q 1) (F Q 0) (F Q 1)) (mkEtec (F Q x) (F Q y) (F Q t) (F Q z))
    = Ok (mkEtec (F Q x) (F Q y) (F Q t) (F Q z)) /\
  (z mod Q <> 0 ->
   exists s,
     Etec_add (mkEtec (F Q x) (F Q y) (F Q t) (F Q z))
              (mkEtec (F Q 0) (F Q 1) (F Q 0) (F Q 1)) = Ok s /\
     Etec_as_point s = Etec_as_point (mkEtec (F Q x) (F Q y) (F Q t) (F Q z))) /\
  (z mod Q = 1 -> (Q | t - x * y) ->
   Etec_add (mkEtec (F Q x) (F Q y) (F Q t) (F Q z))
            (mkEtec (F Q 0) (F Q 1) (F Q 0) (F Q 1))
     = Ok (mkEtec (F Q x) (F Q y) (F Q t) (F Q z))).
Proof.
  rewrite !Etec_add_eval.
  replace (is_etec_infinity 0 1 0 1) with true by (vm_compute; reflexivity).
  replace (1 mod Q =? 0) with false by (vm_compute; reflexivity).
  split; [reflexivity|].
  destruct (is_etec_infinity x y t z) eqn:Ei.
  - rewrite (is_etec_infinity_true _ _ _ _ Ei). split; [|reflexivity].
    intros _. eexists. split; reflexivity.
  - pose proof (etec_add_identity_coords x y t z) as Hco.
    destruct (etec_add_coords x y t z 0 1 0 1) as [[[X Y] T] Z].
    destruct Hco as (HX & HY & HT & HZ). split.
    + intros Hz. pose proof Hz as Hz'. apply Z.eqb_neq in Hz'. rewrite Hz'.
      eexists. split; [reflexivity|]. rewrite !Etec_as_point_eval.
      assert (HX' : (Q | X - z * x)) by (apply divide_refl_eq; assumption).
      assert (HY' : (Q | Y - z * y)) by (apply divide_refl_eq; assumption).
      assert (HZ' : (Q | Z - z * z)) by (apply divide_refl_eq; assumption).
      rewrite (scale_quotient _ x z X Z Hz HX' HZ').
      rewrite (scale_quotient _ y z Y Z Hz HY' HZ').
      reflexivity.
    + intros E1 Ht.
      assert (Hz : (Q | z - 1)).
      { apply cong_iff. rewrite E1. symmetry. apply Z.mod_1_l. reflexivity. }
      rewrite E1. replace (1 =? 0) with false by reflexivity.
      subst X Y T Z. f_equal. f_equal; apply F_cong.
      * apply (divide_comb1 _ x _ Hz). ring.
      * apply (divide_comb1 _ y _ Hz). ring.
      * apply (divide_comb1 _ (-1) _ Ht). ring.
      * apply (divide_comb1 _ z _ Hz). ring.
Qed.

(** C3 (as stated, refuted): the double of the point A of the test suite,
    computed in projective and in extended coordinates, is on the curve, and
    adding the identity to it returns a tuple that [==] tells apart from
    it. *)
Lemma add_identity_rescales :
  (a <- point_a ;; j <- Point_as_proj a ;; p <- Proj_double j ;; v <- Proj_valid p ;;
   i <- Proj_infinity ;; s <- Proj_add p i ;; b <- Proj_eq s p ;; Ok (v, b))
  = Ok (true, false) /\
  (a <- point_a ;; e <- Point_as_etec a ;; p <- Etec_double e ;; v <- Etec_valid p ;;
   i <- Etec_infinity ;; s <- Etec_add p i ;; b <- Etec_eq s p ;; Ok (v, b))
  = Ok (true, false).
Proof. split; vm_compute; reflexivity. Qed.

(** C3 (amended): with reduced coordinates in the default field,
    [identity.add(p) == p] in the three representations; [p.add(identity) == p]
    for every affine point [p] on the curve; for a projective or extended [p],
    [p.add(identity)] is [p] up to a common factor of the coordinates: it has
    the same affine image under [as_point] (extended: when [Z != 0];
    projective: also the same [rescale]), and it is [p] itself when [Z = 1]
    (extended: and [T = X Y]), as for every point that [as_proj] or [as_etec]
    makes from an affine point. *)
Theorem identity_is_neutral :
  (forall (p i : Point),
     Point_in_field p -> Point_valid p = Ok true -> Point_infinity = Ok i ->
     Point_add p i = Ok p /\ Point_add i p = Ok p) /\
  (forall (p i : ProjPoint),
     Proj_in_field p -> Proj_infinity = Ok i ->
     Proj_add i p = Ok p /\
     (exists s, Proj_add p i = Ok s /\
                Proj_as_point s = Proj_as_point p /\
                Proj_rescale s = Proj_rescale p) /\
     (n (Proj_z p) = 1 -> Proj_add p i = Ok p)) /\
  (forall (p i : EtecPoint),
     Etec_in_field p -> Etec_infinity = Ok i ->
     Etec_add i p = Ok p /\
     (n (Etec_z p) <> 0 ->
      exists s, Etec_add p i = Ok s /\ Etec_as_point s = Etec_as_point p) /\
     (n (Etec_z p) = 1 ->
      n (Etec_t p) = (n (Etec_x p) * n (Etec_y p)) mod JUBJUB_Q ->
      Etec_add p i = Ok p)).
Proof.
  split; [|split].
  - intros p i Hf Hv Hi. rewrite Point_infinity_eval in Hi. injection Hi as <-.
    pose proof (Point_in_field_F p Hf) as Ep.
    destruct Hf as [[_ Hx] [_ Hy]]. unfold JUBJUB_Q in Hx, Hy.
    remember (n (Point_x p)) as x. remember (n (Point_y p)) as y.
    rewrite Ep in Hv |- *. rewrite Point_valid_eval in Hv. injection Hv as Hc.
    apply Point_identity_F; assumption.
  - intros p i Hf Hi. rewrite Proj_infinity_eval in Hi. injection Hi as <-.
    pose proof (Proj_in_field_F p Hf) as Ep.
    destruct Hf as (_ & _ & _ & Hz). unfold JUBJUB_Q in Hz.
    remember (n (Proj_x p)) as x. remember (n (Proj_y p)) as y.
    remember (n (Proj_z p)) as z.
    rewrite Ep. destruct (Proj_identity_F x y z) as (H1 & H2 & H3).
    split; [assumption|]. split; [assumption|].
    intros E. apply H3. rewrite E. apply Z.mod_1_l. reflexivity.
  - intros p i Hf Hi. rewrite Etec_infinity_eval in Hi. injection Hi as <-.
    pose proof (Etec_in_field_F p Hf) as Ep.
    destruct Hf as (_ & _ & _ & _ & Hz). unfold JUBJUB_Q in Hz |- *.
    remember (n (Etec_x p)) as x. remember (n (Etec_y p)) as y.
    remember (n (Etec_t p)) as t. remember (n (Etec_z p)) as z.
    rewrite Ep. destruct (Etec_identity_F x y t z) as (H1 & H2 & H3).
    split; [assumption|]. split.
    + intros Hnz. apply H2. rewrite Z.mod_small by assumption. assumption.
    + intros E Ht. apply H3.
      * rewrite E. apply Z.mod_1_l. reflexivity.
      * apply cong_iff. rewrite Ht. apply Z.mod_mod. exact Q_nonzero.
Qed.

(** ** The laws at the point of the test suite *)

Lemma point_a_forms :
  point_a = Ok affine_a /\
  (a <- point_a ;; Point_as_etec a) = Ok etec_a /\
  (a <- point_a ;; Point_as_proj a) = Ok proj_a.
Proof. repeat split; vm_compute; reflexivity. Qed.

Ltac in_field_by_computation :=
  repeat split; vm_compute; first [reflexivity | intro; discriminate].

Lemma affine_a_in_field : Point_in_field affine_a.
Proof. in_field_by_computation. Qed.

Lemma etec_a_in_field : Etec_in_field etec_a.
Proof. in_field_by_computation. Qed.

Lemma proj_a_in_field : Proj_in_field proj_a.
Proof. in_field_by_computation. Qed.

Lemma double_agrees_with_add_witness :
  (Etec_in_field etec_a /\ Etec_valid etec_a = Ok true /\
   (n (Etec_t etec_a) * n (Etec_z etec_a)) mod JUBJUB_Q
     = (n (Etec_x etec_a) * n (Etec_y etec_a)) mod JUBJUB_Q /\
   exists d s a,
     Etec_double etec_a = Ok d /\ Etec_add etec_a etec_a = Ok s /\
     Etec_as_point d = Ok a /\ Etec_as_point s = Ok a /\
     mul (Etec_t d) (VInt (-1)) = Ok (Etec_t s)) /\
  (Proj_in_field proj_a /\ Proj_valid proj_a = Ok true /\
   exists d s r,
     Proj_double proj_a = Ok d /\ Proj_add proj_a proj_a = Ok s /\
     Proj_as_point d = Proj_as_point s /\
     Proj_rescale d = Ok r /\ Proj_rescale s = Ok r /\
     mul (Proj_z d) (VInt (-1)) = Ok (Proj_z s)).
Proof.
  assert (He : Etec_valid etec_a = Ok true) by (vm_compute; reflexivity).
  assert (Ht : (n (Etec_t etec_a) * n (Etec_z etec_a)) mod JUBJUB_Q
               = (n (Etec_x etec_a) * n (Etec_y etec_a)) mod JUBJUB_Q)
    by (vm_compute; reflexivity).
  assert (Hp : Proj_valid proj_a = Ok true) by (vm_compute; reflexivity).
  assert (Hne : Etec_infinity <> Ok etec_a) by (vm_compute; discriminate).
  assert (Hnp : Proj_infinity <> Ok proj_a) by (vm_compute; discriminate).
  split.
  - split; [exact etec_a_in_field|]. split; [exact He|]. split; [exact Ht|].
    destruct (proj1 double_agrees_with_add etec_a etec_a_in_field He Ht)
      as (d & s & a & Hd & Hs & Had & Has & _ & Hfac).
    exists d, s, a. repeat (split; [assumption|]). apply (Hfac Hne).
  - split; [exact proj_a_in_field|]. split; [exact Hp|].
    destruct (proj2 double_agrees_with_add proj_a proj_a_in_field Hp)
      as (d & s & r & Hd & Hs & Hpt & Hrd & Hrs & _ & Hfac).
    exists d, s, r. repeat (split; [assumption|]). apply (Hfac Hnp).
Defined.

Lemma identity_is_neutral_witness :
  (Point_in_field affine_a /\ Point_valid affine_a = Ok true /\
   exists i, Point_infinity = Ok i /\
             Point_add affine_a i = Ok affine_a /\ Point_add i affine_a = Ok affine_a) /\
  (Proj_in_field proj_a /\
   exists i, Proj_infinity = Ok i /\ Proj_add i proj_a = Ok proj_a /\
             Proj_add proj_a i = Ok proj_a) /\
  (Etec_in_field etec_a /\
   exists i, Etec_infinity = Ok i /\ Etec_add i etec_a = Ok etec_a /\
             Etec_add etec_a i = Ok etec_a).
Proof.
  destruct identity_is_neutral as (HA & HP & HE).
  assert (Hv : Point_valid affine_a = Ok true) by (vm_compute; reflexivity).
  split; [|split].
  - split; [exact affine_a_in_field|]. split; [exact Hv|].
    exists (mkPoint (F JUBJUB_Q 0) (F JUBJUB_Q 1)).
    split; [exact Point_infinity_eval|].
    exact (HA affine_a _ affine_a_in_field Hv Point_infinity_eval).
  - split; [exact proj_a_in_field|].
    exists (mkProj (F JUBJUB_Q 0) (F JUBJUB_Q 1) (F JUBJUB_Q 1)).
    split; [exact Proj_infinity_eval|].
    destruct (HP proj_a _ proj_a_in_field Proj_infinity_eval) as (H1 & _ & H3).
    split; [exact H1 | apply H3; reflexivity].
  - split; [exact etec_a_in_field|].
    exists (mkEtec (F JUBJUB_Q 0) (F JUBJUB_Q 1) (F JUBJUB_Q 0) (F JUBJUB_Q 1)).
    split; [exact Etec_infinity_eval|].
    destruct (HE etec_a _ etec_a_in_field Etec_infinity_eval) as (H1 & _ & H3).
    split; [exact H1 | apply H3; reflexivity].
Defined.

Lemma Point_add_cases_witness :
  Point_in_field affine_a /\
  ~ (n (Point_x affine_a) = 0 /\ n (Point_y affine_a) = 0) /\
  Point_add affine_a affine_a =
    Ok (mkPoint
          (F JUBJUB_Q ((point_a_x * point_a_y + point_a_y * point_a_x) *
             invz JUBJUB_Q (1 + JUBJUB_D * point_a_x * point_a_x * point_a_y * point_a_y)))
          (F JUBJUB_Q ((point_a_y * point_a_y - JUBJUB_A * point_a_x * point_a_x) *
             invz JUBJUB_Q (1 - JUBJUB_D * point_a_x * point_a_x * point_a_y * point_a_y)))) /\
  Point_add (mkPoint (mkFQ 0 JUBJUB_Q) (mkFQ 0 JUBJUB_Q)) affine_a = Ok affine_a.
Proof.
  assert (Hnz : ~ (n (Point_x affine_a) = 0 /\ n (Point_y affine_a) = 0)).
  { intros [H _]. vm_compute in H. discriminate. }
  split; [exact affine_a_in_field|]. split; [exact Hnz|]. split.
  - exact (proj2 (Point_add_cases affine_a affine_a)
             affine_a_in_field affine_a_in_field Hnz).
  - exact (proj1 (Point_add_cases (mkPoint (mkFQ 0 JUBJUB_Q) (mkFQ 0 JUBJUB_Q)) affine_a)
             eq_refl eq_refl).
Defined.

(** Projective points with reduced coordinates are closed under [add] and
    [double], which never raise on them. *)
Lemma Proj_add_closed (a p : ProjPoint) :
  Proj_in_field a -> Proj_in_field p ->
  exists r, Proj_add a p = Ok r /\ Proj_in_field r.
Proof.
  intros Ha Hp.
  pose proof (Proj_in_field_F a Ha) as Ea. pose proof (Proj_in_field_F p Hp) as Ep.
  remember (n (Proj_x a)) as x1. remember (n (Proj_y a)) as y1.
  remember (n (Proj_z a)) as z1. remember (n (Proj_x p)) as x2.
  remember (n (Proj_y p)) as y2. remember (n (Proj_z p)) as z2.
  rewrite Ea, Ep, Proj_add_eval. destruct (is_proj_infinity _ _ _).
  - eexists. split; [reflexivity|]. repeat split; apply F_in_field.
  - destruct (proj_add_coords _ _ _ _ _ _) as [[X Y] Z].
    eexists. split; [reflexivity|]. repeat split; apply F_in_field.
Qed.

Lemma Proj_double_closed (p : ProjPoint) :
  Proj_in_field p -> exists r, Proj_double p = Ok r /\ Proj_in_field r.
Proof.
  intros Hp. pose proof (Proj_in_field_F p Hp) as Ep.
  remember (n (Proj_x p)) as x. remember (n (Proj_y p)) as y.
  remember (n (Proj_z p)) as z.
  rewrite Ep, Proj_double_eval. destruct (is_proj_infinity _ _ _).
  - eexists. split; [reflexivity|]. repeat split; apply F_in_field.
  - destruct (proj_double_coords _ _ _) as [[X Y] Z].
    eexists. split; [reflexivity|]. repeat split; apply F_in_field.
Qed.

Lemma Proj_infinity_closed : exists i, Proj_infinity = Ok i /\ Proj_in_field i.
Proof.
  eexists. split; [exact Proj_infinity_eval|]. repeat split; apply F_in_field.
Qed.

Lemma mult_scalar_domain_witness :
  mult 3 proj_a (VFQ (mkFQ 5 JUBJUB_L)) = mult 3 proj_a (VInt 5) /\
  mult 3 proj_a (VFQ (mkFQ 5 7)) = Raises ValueError_field_modulus.
Proof.
  split.
  - apply (proj1 (mult_scalar_domain 3 proj_a (mkFQ 5 JUBJUB_L))).
    right. right. left. reflexivity.
  - apply (proj1 (proj2 (mult_scalar_domain 3 proj_a (mkFQ 5 7)))).
    intros H. vm_compute in H. intuition discriminate.
Defined.

(** * Further properties of jubjub.py *)

(** ** Congruences as a setoid *)

Local Infix "==" := congruent (at level 70, no associativity).

Lemma congruent_equiv : Equivalence congruent.
Proof.
  unfold congruent. split.
  - intros a. rewrite Z.sub_diag. apply Z.divide_0_r.
  - intros a b H. replace (b - a) with (- (a - b)) by ring.
    apply Z.divide_opp_r. assumption.
  - intros a b c H1 H2. replace (a - c) with ((a - b) + (b - c)) by ring.
    apply Z.divide_add_r; assumption.
Qed.

Lemma congruent_add : Proper (congruent ==> congruent ==> congruent) Z.add.
Proof.
  unfold congruent. intros a a' Ha b b' Hb.
  replace (a + b - (a' + b')) with ((a - a') + (b - b')) by ring.
  apply Z.divide_add_r; assumption.
Qed.

Lemma congruent_sub : Proper (congruent ==> congruent ==> congruent) Z.sub.
Proof.
  unfold congruent. intros a a' Ha b b' Hb.
  replace (a - b - (a' - b')) with ((a - a') + (-1) * (b - b')) by ring.
  apply Z.divide_add_r; [assumption | apply Z.divide_mul_r; assumption].
Qed.

Lemma congruent_mul : Proper (congruent ==> congruent ==> congruent) Z.mul.
Proof.
  unfold congruent. intros a a' Ha b b' Hb.
  replace (a * b - a' * b') with (b * (a - a') + a' * (b - b')) by ring.
  apply Z.divide_add_r; apply Z.divide_mul_r; assumption.
Qed.

Lemma congruent_opp : Proper (congruent ==> congruent) Z.opp.
Proof.
  unfold congruent. intros a a' Ha.
  replace (- a - - a') with ((-1) * (a - a')) by ring.
  apply Z.divide_mul_r; assumption.
Qed.

#[local] Existing Instance congruent_equiv.
#[local] Existing Instance congruent_add.
#[local] Existing Instance congruent_sub.
#[local] Existing Instance congruent_mul.
#[local] Existing Instance congruent_opp.

Lemma congruent_ring a b : a = b -> a == b.
Proof. intros ->. reflexivity. Qed.

Lemma congruent_F a b : a == b -> F Q a = F Q b.
Proof. apply F_cong. Qed.

Lemma congruent_mod a b : a == b <-> a mod Q = b mod Q.
Proof. symmetry. apply cong_iff. Qed.

Lemma congruent_zero a : a == 0 <-> a mod Q = 0.
Proof. rewrite congruent_mod. reflexivity. Qed.

Lemma invz_unit w : w mod Q <> 0 -> w * invz Q w == 1.
Proof. apply invz_divides. Qed.

Lemma not_congruent_1_0 : ~ 1 == 0.
Proof. rewrite congruent_zero. vm_compute. discriminate. Qed.

Lemma not_congruent_2_0 : ~ 2 == 0.
Proof. rewrite congruent_zero. vm_compute. discriminate. Qed.

Lemma congruent_integral a b : a * b == 0 -> a == 0 \/ b == 0.
Proof.
  unfold congruent. rewrite !Z.sub_0_r.
  apply (Z.divide_prime_mul _ _ _ SNARK_SCALAR_FIELD_prime).
Qed.


Lemma sqrt_A_square : sqrt_A * sqrt_A == JUBJUB_A.
Proof. apply congruent_mod. vm_compute. reflexivity. Qed.

Lemma euler_criterion_D :
  Zpow_mod JUBJUB_D ((Q - 1) / 2) Q = Q - 1.
Proof. vm_compute. reflexivity. Qed.

Lemma half_Q : 2 * ((Q - 1) / 2) = Q - 1.
Proof. vm_compute. reflexivity. Qed.

Lemma half_Q_nonneg : 0 <= (Q - 1) / 2.
Proof. vm_compute. discriminate. Qed.

Lemma fermat_half u : u mod Q <> 0 -> ((u * u) ^ ((Q - 1) / 2)) mod Q = 1.
Proof.
  intros Hu. rewrite <- Z.pow_2_r.
  rewrite <- (Z.pow_mul_r u 2 ((Q - 1) / 2) ltac:(lia) half_Q_nonneg).
  rewrite half_Q.
  apply (Z.fermat_nz Q u SNARK_SCALAR_FIELD_prime Hu).
Qed.

Lemma D_nonzero : ~ JUBJUB_D == 0.
Proof. rewrite congruent_zero. vm_compute. discriminate. Qed.

Lemma minus_one_not_one : (Q - 1) mod Q <> 1.
Proof. vm_compute. discriminate. Qed.

(** [D] is not a square modulo the field prime: [u^2 = D v^2] forces
    [v = 0]. *)
Lemma D_not_square u v : u * u == JUBJUB_D * (v * v) -> v == 0.
Proof.
  intros H. apply congruent_zero.
  destruct (Z.eq_dec (v mod Q) 0) as [E|Hv]; [assumption|exfalso].
  assert (Hu : u mod Q <> 0).
  { intros E. apply congruent_zero in E. rewrite E in H.
    symmetry in H. rewrite Z.mul_0_r in H.
    apply congruent_integral in H as [H|H]; [exact (D_nonzero H)|].
    apply congruent_integral in H.
    destruct H; apply Hv, congruent_zero; assumption. }
  apply congruent_mod in H.
  pose proof (fermat_half u Hu) as Fu. pose proof (fermat_half v Hv) as Fv.
  set (h := (Q - 1) / 2) in *.
  assert (E : ((u * u) ^ h) mod Q = ((JUBJUB_D * (v * v)) ^ h) mod Q).
  { rewrite <- (Z.mod_pow_l (u * u)), H, Z.mod_pow_l. reflexivity. }
  rewrite Fu, Z.pow_mul_l, Zmult_mod, Fv in E.
  rewrite <- (Zpow_mod_correct JUBJUB_D h Q Q_nonzero) in E.
  unfold h in E. rewrite euler_criterion_D, Z.mul_1_r in E.
  symmetry in E. exact (minus_one_not_one E).
Qed.

(** ** The addition law is complete *)

Lemma divide_comb4 h1 h2 h3 h4 c1 c2 c3 c4 g :
  (Q | h1) -> (Q | h2) -> (Q | h3) -> (Q | h4) ->
  g = c1 * h1 + c2 * h2 + c3 * h3 + c4 * h4 -> (Q | g).
Proof.
  intros H1 H2 H3 H4 ->.
  repeat apply Z.divide_add_r; apply Z.divide_mul_r; assumption.
Qed.

(** If [D x1 x2 y1 y2 = e] with [e = 1] or [e = -1] for two points of the
    curve, then [(s x1 + e y1)^2 = D (x1 y1 (s x2 + y2))^2] for a square
    root [s] of [A]; as [D] is not a square, [x1 y1 (s x2 + y2) = 0]. *)
Lemma complete_step s e x1 y1 x2 y2 :
  s * s == JUBJUB_A -> e = 1 \/ e = -1 ->
  x1 * x1 * JUBJUB_A + y1 * y1 == x1 * x1 * JUBJUB_D * (y1 * y1) + 1 ->
  x2 * x2 * JUBJUB_A + y2 * y2 == x2 * x2 * JUBJUB_D * (y2 * y2) + 1 ->
  JUBJUB_D * x1 * x2 * y1 * y2 == e ->
  x1 * y1 * (s * x2 + y2) == 0.
Proof.
  intros Hs He H1 H2 HE. apply (D_not_square (s * x1 + e * y1)).
  unfold congruent in *.
  apply (divide_comb4 _ _ _ _
           1 (- (JUBJUB_D * (x1 * x1) * (y1 * y1)))
           (x1 * x1 - JUBJUB_D * (x1 * x1) * (y1 * y1) * (x2 * x2))
           (- (2 * e + (JUBJUB_D * x1 * x2 * y1 * y2 - e) + 2 * s * x1 * y1))
           _ H1 H2 Hs HE).
  destruct He; subst e; ring.
Qed.

Lemma sqrt_A_opp_square : (- sqrt_A) * (- sqrt_A) == JUBJUB_A.
Proof. rewrite Z.mul_opp_opp. exact sqrt_A_square. Qed.

Lemma complete_sign e x1 y1 x2 y2 :
  e = 1 \/ e = -1 ->
  x1 * x1 * JUBJUB_A + y1 * y1 == x1 * x1 * JUBJUB_D * (y1 * y1) + 1 ->
  x2 * x2 * JUBJUB_A + y2 * y2 == x2 * x2 * JUBJUB_D * (y2 * y2) + 1 ->
  ~ JUBJUB_D * x1 * x2 * y1 * y2 == e.
Proof.
  intros He H1 H2 HE.
  pose proof (complete_step sqrt_A e x1 y1 x2 y2 sqrt_A_square He H1 H2 HE) as Hp.
  pose proof (complete_step (- sqrt_A) e x1 y1 x2 y2 sqrt_A_opp_square He H1 H2 HE) as Hm.
  assert (H2e : 2 * e == 0).
  { transitivity (2 * (JUBJUB_D * x1 * x2 * y1 * y2)); [rewrite HE; reflexivity|].
    transitivity (JUBJUB_D * x2 * (x1 * y1 * (sqrt_A * x2 + y2)
                                   + x1 * y1 * (- sqrt_A * x2 + y2))).
    - apply congruent_ring. ring.
    - rewrite Hp, Hm. apply congruent_ring. ring. }
  apply not_congruent_2_0.
  destruct He; subst e.
  - exact H2e.
  - transitivity (- (2 * -1)); [reflexivity|]. rewrite H2e. reflexivity.
Qed.

Lemma on_curve_congruent x y :
  on_curve x y = true ->
  x * x * JUBJUB_A + y * y == x * x * JUBJUB_D * (y * y) + 1.
Proof. apply on_curve_divides. Qed.

(** The denominators of the affine addition law do not vanish on two
    points of the curve. *)
Lemma add_denominators_nonzero x1 y1 x2 y2 :
  on_curve x1 y1 = true -> on_curve x2 y2 = true ->
  (1 + JUBJUB_D * x1 * x2 * y1 * y2) mod Q <> 0 /\
  (1 - JUBJUB_D * x1 * x2 * y1 * y2) mod Q <> 0.
Proof.
  intros H1 H2. apply on_curve_congruent in H1, H2.
  rewrite <- !congruent_zero. split; intros H.
  - apply (complete_sign (-1) x1 y1 x2 y2 (or_intror eq_refl) H1 H2).
    transitivity ((1 + JUBJUB_D * x1 * x2 * y1 * y2) - 1);
      [apply congruent_ring; ring | rewrite H; reflexivity].
  - apply (complete_sign 1 x1 y1 x2 y2 (or_introl eq_refl) H1 H2).
    transitivity (1 - (1 - JUBJUB_D * x1 * x2 * y1 * y2));
      [apply congruent_ring; ring | rewrite H; reflexivity].
Qed.

(** ** The sum of two points of the curve is on the curve *)

(** The curve equation for the sum, with the denominators cleared. *)
Lemma sum_on_curve_cleared x1 y1 x2 y2 :
  x1 * x1 * JUBJUB_A + y1 * y1 == x1 * x1 * JUBJUB_D * (y1 * y1) + 1 ->
  x2 * x2 * JUBJUB_A + y2 * y2 == x2 * x2 * JUBJUB_D * (y2 * y2) + 1 ->
  let n1 := x1 * y2 + y1 * x2 in
  let n2 := y1 * y2 - JUBJUB_A * x1 * x2 in
  let d1 := 1 + JUBJUB_D * x1 * x2 * y1 * y2 in
  let d2 := 1 - JUBJUB_D * x1 * x2 * y1 * y2 in
  (n1 * d2) * (n1 * d2) * JUBJUB_A + (n2 * d1) * (n2 * d1)
  == (n1 * n1) * JUBJUB_D * (n2 * n2) + (d1 * d2) * (d1 * d2).
Proof.
  intros H1 H2 n1 n2 d1 d2. unfold congruent in *.
  set (h1 := x1 * x1 * JUBJUB_A + y1 * y1 - (x1 * x1 * JUBJUB_D * (y1 * y1) + 1)) in *.
  set (h2 := x2 * x2 * JUBJUB_A + y2 * y2 - (x2 * x2 * JUBJUB_D * (y2 * y2) + 1)) in *.
  set (v := h2 - JUBJUB_D * (x2 * x2) * (y2 * y2) * h1).
  apply (divide_comb2 _ _
           (v + d1 * d2 - JUBJUB_D * (x2 * x2) * (y2 * y2) * (d1 * d2))
           (d1 * d2 - JUBJUB_D * (x1 * x1) * (y1 * y1) * (v + d1 * d2))
           _ H1 H2).
  unfold v, h1, h2, n1, n2, d1, d2. ring.
Qed.

Lemma on_curve_intro x y :
  x * x * JUBJUB_A + y * y == x * x * JUBJUB_D * (y * y) + 1 -> on_curve x y = true.
Proof. intros H. unfold on_curve. apply Z.eqb_eq, cong_iff. exact H. Qed.

Lemma affine_sum_on_curve x1 y1 x2 y2 :
  on_curve x1 y1 = true -> on_curve x2 y2 = true ->
  let '(x3, y3) := affine_add_coords x1 y1 x2 y2 in on_curve x3 y3 = true.
Proof.
  intros H1 H2. unfold affine_add_coords. apply on_curve_intro.
  destruct (add_denominators_nonzero x1 y1 x2 y2 H1 H2) as [Hd1 Hd2].
  apply invz_unit in Hd1, Hd2.
  apply on_curve_congruent in H1, H2.
  pose proof (sum_on_curve_cleared x1 y1 x2 y2 H1 H2) as HC. cbv zeta in HC.
  unfold JUBJUB_Q.
  set (n1 := x1 * y2 + y1 * x2) in *.
  set (n2 := y1 * y2 - JUBJUB_A * x1 * x2) in *.
  set (d1 := 1 + JUBJUB_D * x1 * x2 * y1 * y2) in *.
  set (d2 := 1 - JUBJUB_D * x1 * x2 * y1 * y2) in *.
  set (i1 := invz Q d1) in *. set (i2 := invz Q d2) in *.
  unfold congruent in *.
  apply (divide_comb3 _ _ _
           (i1 * i2 * (i1 * i2))
           ((d1 * i1 + 1) * (1 - n2 * i2 * (n2 * i2)))
           ((d2 * i2 + 1) * (d1 * i1 * (d1 * i1) - n1 * i1 * (n1 * i1) * JUBJUB_A))
           _ HC Hd1 Hd2).
  ring.
Qed.

Lemma Point_add_coords x1 y1 x2 y2 :
  ~ (x1 mod Q = 0 /\ y1 mod Q = 0) ->
  Point_add (mkPoint (F Q x1) (F Q y1)) (mkPoint (F Q x2) (F Q y2)) =
  let '(x3, y3) := affine_add_coords x1 y1 x2 y2 in Ok (mkPoint (F Q x3) (F Q y3)).
Proof.
  intros Hnz. rewrite Point_add_eval. unfold affine_add_coords.
  destruct (Z.eqb_spec (x1 mod Q) 0) as [E1|]; [|reflexivity].
  destruct (Z.eqb_spec (y1 mod Q) 0) as [E2|]; [|reflexivity].
  exfalso. apply Hnz. split; assumption.
Qed.

Lemma on_curve_not_zero_pair x y :
  on_curve x y = true -> ~ (x mod Q = 0 /\ y mod Q = 0).
Proof.
  intros H [Ex Ey]. apply on_curve_congruent in H.
  apply congruent_zero in Ex, Ey. rewrite Ex, Ey in H.
  apply not_congruent_1_0. symmetry. exact H.
Qed.

(** [Point.add] on two points of the curve returns a point of the curve. *)
Lemma Point_add_on_curve x1 y1 x2 y2 :
  on_curve x1 y1 = true -> on_curve x2 y2 = true ->
  exists x3 y3,
    Point_add (mkPoint (F Q x1) (F Q y1)) (mkPoint (F Q x2) (F Q y2))
      = Ok (mkPoint (F Q x3) (F Q y3)) /\
    (x3, y3) = affine_add_coords x1 y1 x2 y2 /\ on_curve x3 y3 = true.
Proof.
  intros H1 H2. rewrite (Point_add_coords _ _ _ _ (on_curve_not_zero_pair _ _ H1)).
  pose proof (affine_sum_on_curve x1 y1 x2 y2 H1 H2) as H3.
  destruct (affine_add_coords x1 y1 x2 y2) as [x3 y3].
  exists x3, y3. repeat split. assumption.
Qed.

(** ** Extended and projective addition against the affine law *)

Lemma affine_of z u x : z * u == 1 -> x == z * (x * u).
Proof.
  intros Hu. transitivity (x * (z * u)); [rewrite Hu|]; apply congruent_ring; ring.
Qed.

Lemma extended_of z u x y t :
  z * u == 1 -> t * z == x * y -> t == z * (x * u * (y * u)).
Proof.
  intros Hu Ht. transitivity (t * (z * u) * (z * u)).
  - rewrite Hu. apply congruent_ring. ring.
  - transitivity (t * z * u * (z * u)); [apply congruent_ring; ring|].
    rewrite Ht. apply congruent_ring. ring.
Qed.

Lemma on_curve_F_eq x y x' y' :
  F Q x = F Q x' -> F Q y = F Q y' -> on_curve x y = on_curve x' y'.
Proof.
  intros Hx Hy. pose proof (Point_valid_eval x y) as H.
  rewrite Hx, Hy, Point_valid_eval in H. injection H as H. symmetry. exact H.
Qed.

Lemma nonzero_congruent a b : a == b -> b mod Q <> 0 -> a mod Q <> 0.
Proof. intros H Hb E. apply Hb. apply congruent_mod in H. rewrite <- H. exact E. Qed.

(** The coordinates that [EtecPoint.add] computes are, up to a common
    non-zero factor, those of the affine sum; and they satisfy
    [T Z = X Y]. *)
Lemma etec_add_coords_sound x1 y1 t1 z1 x2 y2 t2 z2 :
  on_curve (x1 * invz Q z1) (y1 * invz Q z1) = true -> t1 * z1 == x1 * y1 ->
  on_curve (x2 * invz Q z2) (y2 * invz Q z2) = true -> t2 * z2 == x2 * y2 ->
  let '(X, Y, T, Z) := etec_add_coords x1 y1 t1 z1 x2 y2 t2 z2 in
  let '(x3, y3) :=
    affine_add_coords (x1 * invz Q z1) (y1 * invz Q z1) (x2 * invz Q z2) (y2 * invz Q z2) in
  Z mod Q <> 0 /\ F Q (X * invz Q Z) = F Q x3 /\ F Q (Y * invz Q Z) = F Q y3 /\
  T * Z = X * Y.
Proof.
  intros Hc1 Ht1 Hc2 Ht2.
  pose proof (on_curve_nonzero_Z _ _ _ Hc1) as Hz1.
  pose proof (on_curve_nonzero_Z _ _ _ Hc2) as Hz2.
  pose proof (invz_unit z1 Hz1) as Hu1. pose proof (invz_unit z2 Hz2) as Hu2.
  destruct (add_denominators_nonzero _ _ _ _ Hc1 Hc2) as [Hd1 Hd2].
  pose proof (affine_of z1 _ x1 Hu1) as Hx1. pose proof (affine_of z1 _ y1 Hu1) as Hy1.
  pose proof (affine_of z2 _ x2 Hu2) as Hx2. pose proof (affine_of z2 _ y2 Hu2) as Hy2.
  pose proof (extended_of z1 _ x1 y1 t1 Hu1 Ht1) as Ht1'.
  pose proof (extended_of z2 _ x2 y2 t2 Hu2 Ht2) as Ht2'.
  unfold affine_add_coords, JUBJUB_Q.
  set (a1 := x1 * invz Q z1) in *. set (b1 := y1 * invz Q z1) in *.
  set (a2 := x2 * invz Q z2) in *. set (b2 := y2 * invz Q z2) in *.
  set (d1 := 1 + JUBJUB_D * a1 * a2 * b1 * b2) in *.
  set (d2 := 1 - JUBJUB_D * a1 * a2 * b1 * b2) in *.
  clearbody a1 b1 a2 b2.
  set (k := z1 * z2 * (z1 * z2)).
  assert (Hk : k mod Q <> 0) by (unfold k; repeat apply nonzero_mul; assumption).
  unfold etec_add_coords. cbv zeta.
  assert (HX : (x1 + y1) * (x2 + y2) - x1 * x2 - y1 * y2 == z1 * z2 * (a1 * b2 + b1 * a2)).
  { rewrite Hx1, Hy1, Hx2, Hy2. apply congruent_ring. ring. }
  assert (HF : z1 * z2 - t1 * JUBJUB_D * t2 == z1 * z2 * d2).
  { rewrite Ht1', Ht2'. apply congruent_ring. unfold d2. ring. }
  assert (HG : z1 * z2 + t1 * JUBJUB_D * t2 == z1 * z2 * d1).
  { rewrite Ht1', Ht2'. apply congruent_ring. unfold d1. ring. }
  assert (HH : y1 * y2 - x1 * x2 * JUBJUB_A == z1 * z2 * (b1 * b2 - JUBJUB_A * a1 * a2)).
  { rewrite Hx1, Hy1, Hx2, Hy2. apply congruent_ring. ring. }
  set (e := (x1 + y1) * (x2 + y2) - x1 * x2 - y1 * y2) in *.
  set (f := z1 * z2 - t1 * JUBJUB_D * t2) in *.
  set (g := z1 * z2 + t1 * JUBJUB_D * t2) in *.
  set (h := y1 * y2 - x1 * x2 * JUBJUB_A) in *.
  assert (HZ1 : f * g == k * d2 * d1).
  { rewrite HF, HG. apply congruent_ring. unfold k. ring. }
  split; [|split; [|split]].
  - apply (nonzero_congruent _ _ HZ1). repeat apply nonzero_mul; assumption.
  - apply (scale_quotient (k * d2)); [apply nonzero_mul; assumption| |exact HZ1].
    change (e * f == k * d2 * (a1 * b2 + b1 * a2)).
    rewrite HX, HF. apply congruent_ring. unfold k. ring.
  - apply (scale_quotient (k * d1)); [apply nonzero_mul; assumption| |].
    + change (g * h == k * d1 * (b1 * b2 - JUBJUB_A * a1 * a2)).
      rewrite HG, HH. apply congruent_ring. unfold k. ring.
    + change (f * g == k * d1 * d2). rewrite HZ1. apply congruent_ring. ring.
  - ring.
Qed.

Lemma etec_double_coherent x y t z :
  let '(X, Y, T, Z) := etec_double_coords x y t z in T * Z = X * Y.
Proof. unfold etec_double_coords. cbv zeta. ring. Qed.

(** The coordinates that [EtecPoint.double] computes are, up to a common
    non-zero factor, those of the affine sum of the point with itself. *)
Lemma etec_double_coords_sound x y t z :
  on_curve (x * invz Q z) (y * invz Q z) = true -> t * z == x * y ->
  let '(X, Y, T, Z) := etec_double_coords x y t z in
  let '(x3, y3) :=
    affine_add_coords (x * invz Q z) (y * invz Q z) (x * invz Q z) (y * invz Q z) in
  Z mod Q <> 0 /\ F Q (X * invz Q Z) = F Q x3 /\ F Q (Y * invz Q Z) = F Q y3 /\
  T * Z = X * Y.
Proof.
  intros Hc Ht.
  pose proof (etec_add_coords_sound x y t z x y t z Hc Ht Hc Ht) as Hadd.
  pose proof (etec_double_add_coords x y t z Hc Ht) as Hco.
  pose proof (etec_double_coherent x y t z) as Hcoh.
  destruct (etec_double_coords x y t z) as [[[X Y] T] Z].
  destruct (etec_add_coords x y t z x y t z) as [[[X' Y'] T'] Z'].
  destruct (affine_add_coords _ _ _ _) as [x3 y3].
  destruct Hco as (HX & HY & _ & HZ). destruct Hadd as (HZ' & EX & EY & _).
  split; [|split; [|split]].
  - apply Z.eqb_neq. rewrite <- (zero_iff_scaled _ Z Z' minus_one_nonzero HZ).
    apply Z.eqb_neq. exact HZ'.
  - rewrite <- EX. symmetry. exact (scale_quotient _ X Z X' Z' minus_one_nonzero HX HZ).
  - rewrite <- EY. symmetry. exact (scale_quotient _ Y Z Y' Z' minus_one_nonzero HY HZ).
  - exact Hcoh.
Qed.

(** ** Well-formed extended points are closed under the operations *)

Lemma mod_congruent a : a mod Q == a.
Proof. apply congruent_mod. apply Z.mod_mod. exact Q_nonzero. Qed.

Lemma Etec_wellformed_F (p : EtecPoint) :
  Etec_wellformed p ->
  exists x y t z,
    p = mkEtec (F Q x) (F Q y) (F Q t) (F Q z) /\
    on_curve (x * invz Q z) (y * invz Q z) = true /\ t * z == x * y.
Proof.
  intros (Hf & Hv & Hc). pose proof (Etec_in_field_F p Hf) as Ep.
  exists (n (Etec_x p)), (n (Etec_y p)), (n (Etec_t p)), (n (Etec_z p)).
  split; [exact Ep|]. split; [|exact Hc].
  rewrite Ep, Etec_valid_eval in Hv. injection Hv as Hv. exact Hv.
Qed.

Lemma Etec_wellformed_intro x y t z :
  on_curve (x * invz Q z) (y * invz Q z) = true -> t * z == x * y ->
  Etec_wellformed (mkEtec (F Q x) (F Q y) (F Q t) (F Q z)).
Proof.
  intros Hc Ht. split; [|split].
  - repeat split; apply F_in_field.
  - rewrite Etec_valid_eval, Hc. reflexivity.
  - unfold Etec_coherent. cbn [Etec_x Etec_y Etec_t Etec_z n F].
    rewrite !mod_congruent. exact Ht.
Qed.

Lemma etec_infinity_wellformed :
  Etec_wellformed (mkEtec (F Q 0) (F Q 1) (F Q 0) (F Q 1)).
Proof.
  apply Etec_wellformed_intro; [vm_compute; reflexivity | apply congruent_ring; ring].
Qed.

Lemma Etec_add_closed (a p : EtecPoint) :
  Etec_wellformed a -> Etec_wellformed p ->
  exists r, Etec_add a p = Ok r /\ Etec_wellformed r.
Proof.
  intros Ha Hp.
  destruct (Etec_wellformed_F a Ha) as (x1 & y1 & t1 & z1 & -> & Hc1 & Ht1).
  destruct (Etec_wellformed_F p Hp) as (x2 & y2 & t2 & z2 & -> & Hc2 & Ht2).
  rewrite Etec_add_eval. destruct (is_etec_infinity x1 y1 t1 z1).
  - eexists. split; [reflexivity | exact Hp].
  - pose proof (on_curve_nonzero_Z _ _ _ Hc1) as Hz1.
    pose proof (on_curve_nonzero_Z _ _ _ Hc2) as Hz2.
    apply Z.eqb_neq in Hz1, Hz2. rewrite Hz1, Hz2.
    pose proof (etec_add_coords_sound _ _ _ _ _ _ _ _ Hc1 Ht1 Hc2 Ht2) as Hs.
    pose proof (affine_sum_on_curve _ _ _ _ Hc1 Hc2) as Hon.
    destruct (etec_add_coords _ _ _ _ _ _ _ _) as [[[X Y] T] Z].
    destruct (affine_add_coords _ _ _ _) as [x3 y3].
    destruct Hs as (_ & EX & EY & Hcoh).
    eexists. split; [reflexivity|]. apply Etec_wellformed_intro.
    + rewrite (on_curve_F_eq _ _ _ _ EX EY). exact Hon.
    + apply congruent_ring. exact Hcoh.
Qed.

Lemma Etec_double_closed (p : EtecPoint) :
  Etec_wellformed p -> exists r, Etec_double p = Ok r /\ Etec_wellformed r.
Proof.
  intros Hp.
  destruct (Etec_wellformed_F p Hp) as (x & y & t & z & -> & Hc & Ht).
  rewrite Etec_double_eval. destruct (is_etec_infinity x y t z).
  - eexists. split; [reflexivity | exact etec_infinity_wellformed].
  - pose proof (etec_double_coords_sound _ _ _ _ Hc Ht) as Hs.
    pose proof (affine_sum_on_curve _ _ _ _ Hc Hc) as Hon.
    destruct (etec_double_coords _ _ _ _) as [[[X Y] T] Z].
    destruct (affine_add_coords _ _ _ _) as [x3 y3].
    destruct Hs as (_ & EX & EY & Hcoh).
    eexists. split; [reflexivity|]. apply Etec_wellformed_intro.
    + rewrite (on_curve_F_eq _ _ _ _ EX EY). exact Hon.
    + apply congruent_ring. exact Hcoh.
Qed.

Lemma Etec_infinity_closed : exists i, Etec_infinity = Ok i /\ Etec_wellformed i.
Proof.
  eexists. split; [exact Etec_infinity_eval | exact etec_infinity_wellformed].
Qed.

(** Affine points with reduced coordinates are closed under [add], which
    never raises on them: a division by zero returns zero. *)
Lemma Point_add_closed (a p : Point) :
  Point_in_field a -> Point_in_field p ->
  exists r, Point_add a p = Ok r /\ Point_in_field r.
Proof.
  intros Ha Hp.
  rewrite (Point_in_field_F a Ha), (Point_in_field_F p Hp), Point_add_eval.
  destruct (_ && _); eexists; (split; [reflexivity|]); split; apply F_in_field.
Qed.

Lemma Point_double_closed (p : Point) :
  Point_in_field p -> exists r, Point_double p = Ok r /\ Point_in_field r.
Proof. intros Hp. apply Point_add_closed; assumption. Qed.

Lemma Point_infinity_closed : exists i, Point_infinity = Ok i /\ Point_in_field i.
Proof.
  eexists. split; [exact Point_infinity_eval|]. split; apply F_in_field.
Qed.

(** ** Scalar multiplication: which scalars make [mult] return *)

(** C6 (as stated, refuted): on the extended tuple (3, 4, 12, 0), whose
    coordinates are reduced field elements, [mult(-1)] does not run for
    ever: the first round sets [a] to the tuple itself, and in the second
    round [a.add(p)] fails the assertion [self.z != 0]. *)
Lemma mult_negative_scalar_raises :
  Etec_in_field (mkEtec (F Q 3) (F Q 4) (F Q 12) (F Q 0)) /\
  forall fuel,
    mult (S (S fuel)) (mkEtec (F Q 3) (F Q 4) (F Q 12) (F Q 0)) (VInt (-1))
    = Raises AssertionError.
Proof.
  split; [repeat split; apply F_in_field|]. intros fuel.
  set (p0 := mkEtec (F Q 3) (F Q 4) (F Q 12) (F Q 0)).
  assert (E1 : forall i, Etec_infinity = Ok i -> Etec_add i p0 = Ok p0).
  { intros i Hi. rewrite Etec_infinity_eval in Hi. injection Hi as <-.
    vm_compute. reflexivity. }
  assert (E2 : exists p1, Etec_double p0 = Ok p1).
  { eexists. vm_compute. reflexivity. }
  assert (E3 : forall q, Etec_add p0 q = Raise AssertionError).
  { intros q. vm_compute. reflexivity. }
  destruct E2 as [p1 E2].
  unfold mult. cbn [mult_scalar infinity Etec_ops].
  destruct Etec_infinity as [i|e] eqn:Ei; [|rewrite Etec_infinity_eval in Ei; discriminate].
  cbn [mult_loop add double Etec_ops].
  change (-1 =? 0) with false. change (Z.land (-1) 1 =? 0) with false.
  cbn [negb]. rewrite (E1 i eq_refl), E2. change (-1 / 2) with (-1).
  change (-1 =? 0) with false. change (Z.land (-1) 1 =? 0) with false.
  cbn [negb]. rewrite E3. reflexivity.
Qed.

(** C6 (amended): [mult] with a plain integer ends for every non-negative
    scalar (it returns a point, or an exception of [add] or [double] comes
    through), and for a negative scalar it never returns a point, because
    the scalar stays negative under [// 2]: the loop can then be left
    through an exception of [add] or [double] only.  On a set of points
    that [add] and [double] map into itself without raising, [mult] returns
    exactly for the non-negative scalars and runs for ever on the negative
    ones; such sets are the affine points and the projective points with
    reduced coordinates in the default field, and the extended points with
    reduced coordinates that are on the curve and have [T Z = X Y]. *)
Theorem mult_terminates_iff_nonneg :
  (forall (P : Type) (ops : CurveOps P) (self : P) (z : Z),
     (0 <= z -> exists fuel, mult fuel self (VInt z) <> StillRunning) /\
     (z < 0 -> forall fuel r, mult fuel self (VInt z) <> Returns r) /\
     (z < 0 -> z / 2 < 0 /\ (-1) / 2 = -1) /\
     (forall good : P -> Prop,
        (forall a p, good a -> good p -> exists r, add a p = Ok r /\ good r) ->
        (forall p, good p -> exists r, double p = Ok r /\ good r) ->
        (exists i, infinity = Ok i /\ good i) -> good self ->
        ((exists fuel r, mult fuel self (VInt z) = Returns r) <-> 0 <= z) /\
        (z < 0 -> forall fuel, mult fuel self (VInt z) = StillRunning))) /\
  (forall (self : Point) (z : Z),
     Point_in_field self ->
     ((exists fuel r, mult fuel self (VInt z) = Returns r) <-> 0 <= z) /\
     (z < 0 -> forall fuel, mult fuel self (VInt z) = StillRunning)) /\
  (forall (self : ProjPoint) (z : Z),
     Proj_in_field self ->
     ((exists fuel r, mult fuel self (VInt z) = Returns r) <-> 0 <= z) /\
     (z < 0 -> forall fuel, mult fuel self (VInt z) = StillRunning)) /\
  (forall (self : EtecPoint) (z : Z),
     Etec_in_field self -> Etec_valid self = Ok true ->
     (n (Etec_t self) * n (Etec_z self)) mod JUBJUB_Q
       = (n (Etec_x self) * n (Etec_y self)) mod JUBJUB_Q ->
     ((exists fuel r, mult fuel self (VInt z) = Returns r) <-> 0 <= z) /\
     (z < 0 -> forall fuel, mult fuel self (VInt z) = StillRunning)).
Proof.
  assert (Hgen : forall (P : Type) (ops : CurveOps P) (self : P) (z : Z)
                        (good : P -> Prop),
             (forall a p, good a -> good p -> exists r, add a p = Ok r /\ good r) ->
             (forall p, good p -> exists r, double p = Ok r /\ good r) ->
             (exists i, infinity = Ok i /\ good i) -> good self ->
             ((exists fuel r, mult fuel self (VInt z) = Returns r) <-> 0 <= z) /\
             (z < 0 -> forall fuel, mult fuel self (VInt z) = StillRunning)).
  { intros P ops self z good Hadd Hdbl (i & Hi & Hgi) Hself.
    unfold mult; cbn [mult_scalar]. rewrite Hi. split; [split|].
    - intros (fuel & r & Hr). destruct (Z.lt_ge_cases z 0) as [Hneg|]; [|assumption].
      exfalso. revert Hr. apply mult_loop_negative; assumption.
    - intros Hz. exists (Z.to_nat z).
      apply (mult_loop_returns good); try assumption.
      rewrite Z2Nat.id by assumption.
      split; [assumption | apply Z.pow_gt_lin_r; lia].
    - intros Hz fuel. apply (mult_loop_negative_diverges good); assumption. }
  split; [|split; [|split]].
  - intros P ops self z. split; [|split; [|split]].
    + intros Hz. exists (Z.to_nat z). unfold mult; cbn [mult_scalar].
      destruct infinity as [a|e]; [|discriminate].
      apply mult_loop_terminates. rewrite Z2Nat.id by assumption.
      split; [assumption | apply Z.pow_gt_lin_r; lia].
    + intros Hz fuel r. unfold mult; cbn [mult_scalar].
      destruct infinity as [a|e]; [|discriminate].
      apply mult_loop_negative; assumption.
    + intros Hz. split; [apply Z.div_lt_upper_bound; lia | reflexivity].
    + apply Hgen.
  - intros self z Hf.
    exact (Hgen Point Point_ops self z Point_in_field Point_add_closed
             Point_double_closed Point_infinity_closed Hf).
  - intros self z Hf.
    exact (Hgen ProjPoint Proj_ops self z Proj_in_field Proj_add_closed
             Proj_double_closed Proj_infinity_closed Hf).
  - intros self z Hf Hv Hc.
    apply (Hgen EtecPoint Etec_ops self z Etec_wellformed Etec_add_closed
             Etec_double_closed Etec_infinity_closed).
    split; [exact Hf|]. split; [exact Hv|]. apply congruent_mod. exact Hc.
Qed.

Lemma mult_terminates_iff_nonneg_witness :
  (forall fuel, mult fuel etec_a (VInt (-1)) = StillRunning) /\
  (forall fuel, mult fuel proj_a (VInt (-1)) = StillRunning) /\
  (forall fuel, mult fuel affine_a (VInt (-1)) = StillRunning) /\
  (forall fuel r, mult fuel etec_a (VInt (-1)) <> Returns r) /\
  (exists fuel r, mult fuel etec_a (VInt 5) = Returns r).
Proof.
  destruct mult_terminates_iff_nonneg as (Hgen & HA & HP & HE).
  assert (He : Etec_valid etec_a = Ok true) by (vm_compute; reflexivity).
  assert (Ht : (n (Etec_t etec_a) * n (Etec_z etec_a)) mod JUBJUB_Q
               = (n (Etec_x etec_a) * n (Etec_y etec_a)) mod JUBJUB_Q)
    by (vm_compute; reflexivity).
  split; [apply (HE etec_a (-1) etec_a_in_field He Ht); reflexivity|].
  split; [apply (HP proj_a (-1) proj_a_in_field); reflexivity|].
  split; [apply (HA affine_a (-1) affine_a_in_field); reflexivity|].
  split.
  - apply (Hgen EtecPoint Etec_ops etec_a (-1)). reflexivity.
  - apply (HE etec_a 5 etec_a_in_field He Ht). discriminate.
Defined.

(** * Further properties of field.py *)

(** ** The loop of [powmod] *)

Lemma land_bit b k :
  0 <= k -> (Z.land b (Z.shiftl 1 k) =? 0) = negb (Z.testbit b k).
Proof.
  intros Hk. rewrite Z.shiftl_1_l.
  destruct (Z.testbit b k) eqn:Hb; cbn [negb].
  - apply Z.eqb_neq. intros E.
    assert (H : Z.testbit (Z.land b (2 ^ k)) k = true).
    { rewrite Z.land_spec, Hb, Z.pow2_bits_eqb, Z.eqb_refl by assumption. reflexivity. }
    rewrite E, Z.bits_0 in H. discriminate.
  - apply Z.eqb_eq, Z.bits_inj_0. intros j.
    rewrite Z.land_spec, Z.pow2_bits_eqb by assumption.
    destruct (Z.eqb_spec k j) as [<-|]; [rewrite Hb; reflexivity|].
    apply andb_false_r.
Qed.

Lemma shiftr_step b k :
  0 <= k -> Z.shiftr b k = 2 * Z.shiftr b (k + 1) + Z.b2z (Z.testbit b k).
Proof.
  intros Hk. rewrite (Z.div2_odd (Z.shiftr b k)) at 1.
  rewrite Z.div2_spec, Z.shiftr_shiftr, <- Z.testbit_odd by lia. reflexivity.
Qed.

Lemma pow_shiftr_step a b k q :
  0 <= k -> 0 <= b -> q <> 0 ->
  a ^ Z.shiftr b k mod q =
  (if Z.testbit b k
   then ((a ^ Z.shiftr b (k + 1) * a ^ Z.shiftr b (k + 1)) mod q * a) mod q
   else (a ^ Z.shiftr b (k + 1) * a ^ Z.shiftr b (k + 1)) mod q).
Proof.
  intros Hk Hb Hq. rewrite (shiftr_step b k Hk).
  assert (Hs : 0 <= Z.shiftr b (k + 1)) by (apply Z.shiftr_nonneg; assumption).
  destruct (Z.testbit b k); cbn [Z.b2z].
  - rewrite Z.pow_add_r, Z.pow_twice_r, Z.pow_1_r by lia.
    rewrite Z.mul_mod_idemp_l by assumption. reflexivity.
  - rewrite Z.add_0_r, Z.pow_twice_r. reflexivity.
Qed.

(** The invariant of the loop of [powmod]: before the round of bit [k],
    [f] is [a] to the power of the bits of [b] above [k]. *)
Lemma powmod_loop_invariant a b q :
  0 <= b -> q <> 0 ->
  forall i c f k,
    k = Z.of_nat i - 1 ->
    f mod q = a ^ Z.shiftr b (k + 1) mod q ->
    exists r, powmod_loop i a b q c f k = Ok r /\
              r mod q = a ^ b mod q /\ (i <> O -> r = r mod q).
Proof.
  intros Hb Hq. induction i as [|i IH]; intros c f k Hk Hf.
  - exists f. cbn [powmod_loop]. split; [reflexivity|]. split; [|congruence].
    rewrite Hf. replace (k + 1) with 0 by lia. rewrite Z.shiftr_0_r. reflexivity.
  - cbn [powmod_loop]. rewrite pymod_ok by assumption. cbn [bind].
    assert (Hk0 : 0 <= k) by lia.
    rewrite (land_bit b k Hk0), negb_involutive.
    pose proof (pow_shiftr_step a b k q Hk0 Hb Hq) as Hstep.
    assert (Hsq : (f * f) mod q
                  = (a ^ Z.shiftr b (k + 1) * a ^ Z.shiftr b (k + 1)) mod q).
    { rewrite Zmult_mod, Hf, <- Zmult_mod. reflexivity. }
    destruct (Z.testbit b k).
    + rewrite pymod_ok by assumption. cbn [bind].
      destruct (IH (c * 2 + 1) (((f * f) mod q * a) mod q) (k - 1)) as (r & Hr & Hrm & Hred).
      { lia. }
      { replace (k - 1 + 1) with k by lia. rewrite Hstep, Z.mod_mod, Hsq by assumption.
        reflexivity. }
      exists r. split; [assumption|]. split; [assumption|]. intros _.
      destruct i; [|apply Hred; congruence].
      cbn [powmod_loop] in Hr. injection Hr as <-. rewrite Z.mod_mod by assumption.
      reflexivity.
    + destruct (IH (c * 2) ((f * f) mod q) (k - 1)) as (r & Hr & Hrm & Hred).
      { lia. }
      { replace (k - 1 + 1) with k by lia. rewrite Hstep, Z.mod_mod, Hsq by assumption.
        reflexivity. }
      exists r. split; [assumption|]. split; [assumption|]. intros _.
      destruct i; [|apply Hred; congruence].
      cbn [powmod_loop] in Hr. injection Hr as <-. rewrite Z.mod_mod by assumption.
      reflexivity.
Qed.

(** X1: the loop of [powmod], entered with [c = 0], [f = 1] and any bit
    position [k] at or above the top bit of the exponent [b] (the exact
    logarithm of [b], or an over-estimate of it), returns [a ^ b] reduced
    modulo [n]. *)
Theorem powmod_loop_correct (a b q k : Z) :
  0 <= b -> q <> 0 -> Z.log2 b <= k ->
  powmod_loop (Z.to_nat (k + 1)) a b q 0 1 k = Ok (a ^ b mod q).
Proof.
  intros Hb Hq Hk. pose proof (Z.log2_nonneg b) as Hl.
  destruct (powmod_loop_invariant a b q Hb Hq (Z.to_nat (k + 1)) 0 1 k)
    as (r & Hr & Hrm & Hred).
  - rewrite Z2Nat.id by lia. lia.
  - rewrite Z.shiftr_eq_0, Z.pow_0_r by lia. reflexivity.
  - rewrite Hr. f_equal. rewrite <- Hrm. apply Hred.
    intros E. apply (f_equal Z.of_nat) in E. rewrite Z2Nat.id in E by lia.
    simpl in E. lia.
Qed.

Lemma powmod_loop_correct_witness :
  0 <= 10 /\ 7 <> 0 /\ Z.log2 10 <= 4 /\
  powmod_loop (Z.to_nat (4 + 1)) 3 10 7 0 1 4 = Ok (3 ^ 10 mod 7).
Proof.
  assert (H1 : 0 <= 10) by lia. assert (H2 : 7 <> 0) by lia.
  assert (H3 : Z.log2 10 <= 4) by (vm_compute; discriminate).
  split; [exact H1|]. split; [exact H2|]. split; [exact H3|].
  exact (powmod_loop_correct 3 10 7 4 H1 H2 H3).
Defined.

(** ** Operands of another field *)

Lemma other_n_mismatch (self o : FQ) :
  m o <> m self -> other_n self (VFQ o) = Raise RuntimeError_modulus.
Proof.
  intros H. cbn [other_n]. destruct (Z.eqb_spec (m o) (m self)); [contradiction|].
  reflexivity.
Qed.

(** X2: every binary operation of [FQ] refuses a field element of another
    modulus with [RuntimeError], before it computes anything. *)
Theorem binary_ops_reject_other_modulus (self o : FQ) :
  m o <> m self ->
  Field.add self (VFQ o) = Raise RuntimeError_modulus /\
  mul self (VFQ o) = Raise RuntimeError_modulus /\
  sub self (VFQ o) = Raise RuntimeError_modulus /\
  rsub self (VFQ o) = Raise RuntimeError_modulus /\
  div self (VFQ o) = Raise RuntimeError_modulus /\
  rdiv self (VFQ o) = Raise RuntimeError_modulus /\
  exp self (VFQ o) = Raise RuntimeError_modulus.
Proof.
  intros H. pose proof (other_n_mismatch self o H) as E.
  unfold Field.add, mul, sub, rsub, div, rdiv, exp. rewrite E.
  repeat split; reflexivity.
Qed.

Lemma binary_ops_reject_other_modulus_witness :
  m (mkFQ 1 5) <> m (mkFQ 1 7) /\
  Field.add (mkFQ 1 7) (VFQ (mkFQ 1 5)) = Raise RuntimeError_modulus.
Proof.
  assert (H : m (mkFQ 1 5) <> m (mkFQ 1 7)) by (cbn; lia).
  split; [exact H|].
  exact (proj1 (binary_ops_reject_other_modulus (mkFQ 1 7) (mkFQ 1 5) H)).
Defined.

(** ** Comparison *)

Lemma eq_same_modulus (a b : FQ) :
  m b = m a -> eq a (VFQ b) = Ok (n a =? n b).
Proof.
  intros Hm. unfold eq. destruct (Z.eqb_spec (n b) 0) as [E|NE].
  - cbn [other_n bind]. rewrite E. reflexivity.
  - rewrite other_n_FQ by assumption. reflexivity.
Qed.

(** X3: on two elements of one field, [==] holds exactly when the two
    elements are the same, and [!=] exactly when they are not. *)
Theorem eq_decides_equality (a b : FQ) :
  m b = m a ->
  (eq a (VFQ b) = Ok true <-> a = b) /\
  (ne a (VFQ b) = Ok true <-> a <> b).
Proof.
  intros Hm. unfold ne. rewrite (eq_same_modulus a b Hm). cbn [bind].
  destruct a as [x q], b as [y q']. cbn [n m] in *. subst q'.
  destruct (Z.eqb_spec x y) as [E|NE]; cbn [negb].
  - subst y. split; split; intros H; try reflexivity; try discriminate.
    contradiction.
  - split; split; intros H; try discriminate; try reflexivity.
    + injection H as H. contradiction.
    + intros H'. injection H' as H'. contradiction.
Qed.

Lemma eq_decides_equality_witness :
  m (mkFQ 3 7) = m (mkFQ 3 7) /\ (eq (mkFQ 3 7) (VFQ (mkFQ 3 7)) = Ok true <-> mkFQ 3 7 = mkFQ 3 7).
Proof.
  assert (H : m (mkFQ 3 7) = m (mkFQ 3 7)) by reflexivity.
  split; [exact H|].
  exact (proj1 (eq_decides_equality (mkFQ 3 7) (mkFQ 3 7) H)).
Defined.

(** X4: [==] against an element of another field compares the moduli only
    when the value of the right operand is not 0: a right operand of value
    0 is compared as the integer 0, whatever its modulus, and every other
    one raises [RuntimeError].  So the comparison of a non-zero [a] with
    a zero [b] of another field is [False] in one direction and an error in
    the other. *)
Theorem eq_other_modulus (a b : FQ) :
  m b <> m a ->
  (n b = 0 -> eq a (VFQ b) = Ok (n a =? 0)) /\
  (n b <> 0 -> eq a (VFQ b) = Raise RuntimeError_modulus) /\
  (n b = 0 -> n a <> 0 ->
   eq a (VFQ b) = Ok false /\ eq b (VFQ a) = Raise RuntimeError_modulus).
Proof.
  intros Hm.
  assert (H0 : n b = 0 -> eq a (VFQ b) = Ok (n a =? 0)).
  { intros E. unfold eq. rewrite E. reflexivity. }
  assert (H1 : forall x y : FQ,
             m y <> m x -> n y <> 0 -> eq x (VFQ y) = Raise RuntimeError_modulus).
  { intros x y Hxy NE. unfold eq. destruct (Z.eqb_spec (n y) 0); [contradiction|].
    rewrite other_n_mismatch by assumption. reflexivity. }
  split; [exact H0|]. split; [apply H1; assumption|].
  intros E NE. split.
  - rewrite (H0 E). f_equal. apply Z.eqb_neq. assumption.
  - apply H1; [congruence | assumption].
Qed.

Lemma eq_other_modulus_witness :
  m (mkFQ 0 5) <> m (mkFQ 3 7) /\
  eq (mkFQ 3 7) (VFQ (mkFQ 0 5)) = Ok false /\
  eq (mkFQ 0 5) (VFQ (mkFQ 3 7)) = Raise RuntimeError_modulus.
Proof.
  assert (H : m (mkFQ 0 5) <> m (mkFQ 3 7)) by (cbn; lia).
  split; [exact H|].
  apply (proj2 (proj2 (eq_other_modulus (mkFQ 3 7) (mkFQ 0 5) H))).
  - reflexivity.
  - cbn. lia.
Defined.

(** ** Addition, subtraction and negation *)

(** X5: in one field, subtraction undoes addition and addition undoes
    subtraction. *)
Theorem add_sub_round_trip (a b : FQ) :
  in_range a -> m b = m a ->
  (s <- Field.add a (VFQ b) ;; sub s (VFQ b)) = Ok a /\
  (d <- sub a (VFQ b) ;; Field.add d (VFQ b)) = Ok a.
Proof.
  intros Hr Hm. destruct a as [x q]. unfold in_range in Hr. cbn [n m] in *.
  assert (Hq : q <> 0) by lia.
  rewrite (add_F _ b q), (sub_F _ b q) by auto. cbn [bind].
  rewrite (sub_F _ b q), (add_F _ b q) by auto.
  unfold F. cbn [n]. split; do 2 f_equal.
  - rewrite Zminus_mod_idemp_l. replace (x + n b - n b) with x by ring.
    apply Z.mod_small. assumption.
  - rewrite Zplus_mod_idemp_l. replace (x - n b + n b) with x by ring.
    apply Z.mod_small. assumption.
Qed.

Lemma add_sub_round_trip_witness :
  in_range (mkFQ 5 7) /\ m (mkFQ 6 7) = m (mkFQ 5 7) /\
  (s <- Field.add (mkFQ 5 7) (VFQ (mkFQ 6 7)) ;; sub s (VFQ (mkFQ 6 7))) = Ok (mkFQ 5 7).
Proof.
  assert (H1 : in_range (mkFQ 5 7)) by (unfold in_range; cbn; lia).
  assert (H2 : m (mkFQ 6 7) = m (mkFQ 5 7)) by reflexivity.
  split; [exact H1|]. split; [exact H2|].
  exact (proj1 (add_sub_round_trip (mkFQ 5 7) (mkFQ 6 7) H1 H2)).
Defined.

(** X6: negation is an involution, an element plus its negation is the
    zero of the field, and subtracting is adding the negation. *)
Theorem neg_laws (a b : FQ) :
  in_range a -> m b = m a ->
  (x <- neg a ;; neg x) = Ok a /\
  (x <- neg a ;; Field.add a (VFQ x)) = zero (m a) /\
  sub a (VFQ b) = (x <- neg b ;; Field.add a (VFQ x)).
Proof.
  intros Hr Hm. destruct a as [x q]. unfold in_range in Hr. cbn [n m] in *.
  assert (Hq : q <> 0) by lia.
  rewrite (neg_F _ q), (neg_F b q) by auto. cbn [bind].
  rewrite (neg_F _ q), !(add_F _ _ q), (sub_F _ b q) by auto.
  unfold zero. rewrite FQ_init_int by assumption.
  unfold F. cbn [n]. split; [|split]; do 2 f_equal.
  - rewrite <- (Z.sub_0_l (_ mod _)), Zminus_mod_idemp_r.
    replace (0 - - x) with x by ring. apply Z.mod_small. assumption.
  - rewrite Zplus_mod_idemp_r. apply (f_equal (fun z => z mod q)). ring.
  - rewrite Zplus_mod_idemp_r. apply (f_equal (fun z => z mod q)). ring.
Qed.

Lemma neg_laws_witness :
  in_range (mkFQ 5 7) /\ m (mkFQ 6 7) = m (mkFQ 5 7) /\
  (x <- neg (mkFQ 5 7) ;; neg x) = Ok (mkFQ 5 7).
Proof.
  assert (H1 : in_range (mkFQ 5 7)) by (unfold in_range; cbn; lia).
  assert (H2 : m (mkFQ 6 7) = m (mkFQ 5 7)) by reflexivity.
  split; [exact H1|]. split; [exact H2|].
  exact (proj1 (neg_laws (mkFQ 5 7) (mkFQ 6 7) H1 H2)).
Defined.

(** ** Division and the inverse *)

Lemma div_value (a : FQ) (on i : Z) :
  m a <> 0 -> inv on (m a) = Ok i ->
  (i <- inv on (m a) ;; r <- pymod (n a * i) (m a) ;; FQ_init (VInt r) (m a))
  = Ok (F (m a) (n a * i)).
Proof.
  intros Hq Hi. rewrite Hi. cbn [bind]. apply reduce_twice. assumption.
Qed.

(** X7: dividing is multiplying by the inverse, and the division by an
    element of value 0 returns the zero of the field instead of raising. *)
Theorem div_is_mul_by_inverse (a b : FQ) :
  m a <> 0 -> m b = m a ->
  div a (VFQ b) = (i <- finv b ;; mul a (VFQ i)) /\
  (n b = 0 -> div a (VFQ b) = zero (m a)).
Proof.
  intros Hq Hm. destruct (inv_total (n b) (m a) Hq) as (i & Hi & Hr).
  assert (Hd : div a (VFQ b) = Ok (F (m a) (n a * i))).
  { unfold div. rewrite other_n_FQ by assumption. cbn [bind].
    apply div_value; assumption. }
  split.
  - rewrite Hd. unfold finv. rewrite Hm, Hi. cbn [bind].
    rewrite FQ_init_int by assumption. cbn [bind].
    rewrite (mul_F a _ (m a)) by auto. f_equal. apply F_eq_iff. cbn [n F].
    symmetry. apply Z.mul_mod_idemp_r. assumption.
  - intros E. rewrite Hd. rewrite E in Hi. cbn in Hi. injection Hi as <-.
    unfold zero. rewrite FQ_init_int, Z.mul_0_r by assumption. reflexivity.
Qed.

Lemma div_is_mul_by_inverse_witness :
  m (mkFQ 5 7) <> 0 /\ m (mkFQ 3 7) = m (mkFQ 5 7) /\
  div (mkFQ 5 7) (VFQ (mkFQ 3 7)) = (i <- finv (mkFQ 3 7) ;; mul (mkFQ 5 7) (VFQ i)).
Proof.
  assert (H1 : m (mkFQ 5 7) <> 0) by (cbn; lia).
  assert (H2 : m (mkFQ 3 7) = m (mkFQ 5 7)) by reflexivity.
  split; [exact H1|]. split; [exact H2|].
  exact (proj1 (div_is_mul_by_inverse (mkFQ 5 7) (mkFQ 3 7) H1 H2)).
Defined.

Lemma mod_cancel q x u v :
  0 <= x < q -> (u * v) mod q = 1 -> (x * (u * v)) mod q = x.
Proof.
  intros Hx H. rewrite <- Z.mul_mod_idemp_r, H, Z.mul_1_r by lia.
  apply Z.mod_small. assumption.
Qed.

(** X8: in a prime field, multiplication undoes the division by a
    non-zero element, and division undoes the multiplication. *)
Theorem div_mul_round_trip (a b : FQ) :
  Z.prime (m a) -> in_range a -> m b = m a -> n b mod m a <> 0 ->
  (d <- div a (VFQ b) ;; mul d (VFQ b)) = Ok a /\
  (p <- mul a (VFQ b) ;; div p (VFQ b)) = Ok a.
Proof.
  intros Hp Hr Hm Hb. pose proof (Z.prime_ge_2 _ Hp) as Hge.
  destruct a as [x q]. unfold in_range in Hr. cbn [n m] in *.
  assert (Hq : q <> 0) by lia.
  destruct (inv_coprime (n b) q ltac:(lia) (prime_coprime q (n b) Hp Hb))
    as (i & Hi & _ & Hone).
  unfold div. rewrite !other_n_FQ by assumption. cbn [bind n m].
  rewrite Hi. cbn [bind]. rewrite reduce_twice by assumption. cbn [bind].
  rewrite (mul_F _ b q), (mul_F _ b q) by auto. cbn [bind].
  rewrite other_n_FQ by assumption. cbn [bind n m F].
  rewrite Hi. cbn [bind]. rewrite reduce_twice by assumption.
  unfold F. split; do 2 f_equal.
  - rewrite Z.mul_mod_idemp_l by assumption.
    replace (x * i * n b) with (x * (n b * i)) by ring.
    apply mod_cancel; assumption.
  - rewrite Z.mul_mod_idemp_l by assumption.
    replace (x * n b * i) with (x * (n b * i)) by ring.
    apply mod_cancel; assumption.
Qed.

Lemma div_mul_round_trip_witness :
  Z.prime (m (mkFQ 5 7)) /\ in_range (mkFQ 5 7) /\ m (mkFQ 3 7) = m (mkFQ 5 7) /\
  n (mkFQ 3 7) mod m (mkFQ 5 7) <> 0 /\
  (d <- div (mkFQ 5 7) (VFQ (mkFQ 3 7)) ;; mul d (VFQ (mkFQ 3 7))) = Ok (mkFQ 5 7).
Proof.
  assert (H1 : Z.prime (m (mkFQ 5 7))) by (cbn; apply prime_by_trial_sound; reflexivity).
  assert (H2 : in_range (mkFQ 5 7)) by (unfold in_range; cbn; lia).
  assert (H3 : m (mkFQ 3 7) = m (mkFQ 5 7)) by reflexivity.
  assert (H4 : n (mkFQ 3 7) mod m (mkFQ 5 7) <> 0) by (cbn; lia).
  split; [exact H1|]. split; [exact H2|]. split; [exact H3|]. split; [exact H4|].
  exact (proj1 (div_mul_round_trip (mkFQ 5 7) (mkFQ 3 7) H1 H2 H3 H4)).
Defined.

(** X9: [inv] tests its argument against 0 before it reduces it.  A
    non-zero multiple of the modulus therefore gets the inverse 1: dividing
    by such an integer returns the dividend, while dividing by the field
    element made of the same integer returns zero. *)
Theorem inv_multiple_of_modulus (a : FQ) (k : Z) :
  in_range a -> 1 < m a -> k <> 0 ->
  inv (k * m a) (m a) = Ok 1 /\
  div a (VInt (k * m a)) = Ok a /\
  (z <- FQ_init (VInt (k * m a)) (m a) ;; div a (VFQ z)) = zero (m a).
Proof.
  intros Hr Hq Hk. destruct a as [x q]. unfold in_range in Hr. cbn [n m] in *.
  assert (Hinv : inv (k * q) q = Ok 1).
  { unfold inv. destruct (Z.eqb_spec (k * q) 0) as [E|_]; [nia|].
    rewrite pymod_ok by lia. cbn [bind]. rewrite Z.mod_mul by lia.
    unfold inv_fuel. cbn [inv_loop low]. cbn [Z.ltb Z.compare lm].
    rewrite pymod_ok by lia. rewrite Z.mod_1_l by assumption. reflexivity. }
  split; [exact Hinv|]. split.
  - unfold div. cbn [other_n bind n m]. rewrite Hinv. cbn [bind].
    rewrite reduce_twice by lia. unfold F. rewrite Z.mul_1_r, Z.mod_small by assumption.
    reflexivity.
  - rewrite FQ_init_int by lia. cbn [bind]. unfold zero.
    rewrite FQ_init_int by lia. unfold div. rewrite other_n_FQ by reflexivity.
    cbn [bind n m F]. rewrite Z.mod_mul by lia. cbn [inv Z.eqb bind].
    rewrite reduce_twice by lia. rewrite Z.mul_0_r. reflexivity.
Qed.

Lemma inv_multiple_of_modulus_witness :
  in_range (mkFQ 5 7) /\ 1 < m (mkFQ 5 7) /\ 3 <> 0 /\
  div (mkFQ 5 7) (VInt (3 * m (mkFQ 5 7))) = Ok (mkFQ 5 7).
Proof.
  assert (H1 : in_range (mkFQ 5 7)) by (unfold in_range; cbn; lia).
  assert (H2 : 1 < m (mkFQ 5 7)) by (cbn; lia).
  assert (H3 : 3 <> 0) by lia.
  split; [exact H1|]. split; [exact H2|]. split; [exact H3|].
  exact (proj1 (proj2 (inv_multiple_of_modulus (mkFQ 5 7) 3 H1 H2 H3))).
Defined.

(** X10: in a prime field the inverse is an involution, the zero element
    included. *)
Theorem finv_involutive (a : FQ) :
  Z.prime (m a) -> in_range a -> (i <- finv a ;; finv i) = Ok a.
Proof.
  intros Hp Hr. pose proof (Z.prime_ge_2 _ Hp) as Hge.
  destruct (Z.eq_dec (n a) 0) as [E|NE].
  - rewrite (finv_zero a ltac:(lia) E). cbn [bind].
    rewrite (finv_zero (mkFQ 0 (m a))) by (cbn; lia || reflexivity).
    destruct a as [x q]. cbn in *. subst x. reflexivity.
  - assert (Hg : Z.gcd (n a) (m a) = 1).
    { apply prime_coprime; [assumption|].
      unfold in_range in Hr. rewrite Z.mod_small by assumption. assumption. }
    destruct (finv_coprime a ltac:(lia) Hg) as (i & Hi & Hir & Hone).
    rewrite Hi. cbn [bind].
    assert (Hg' : Z.gcd i (m a) = 1).
    { apply prime_coprime; [assumption|]. intros E.
      rewrite <- Z.mul_mod_idemp_r, E, Z.mul_0_r, Z.mod_0_l in Hone by lia.
      discriminate. }
    destruct (finv_coprime (mkFQ i (m a)) ltac:(cbn; lia) Hg') as (j & Hj & Hjr & Hone').
    cbn [n m] in *. rewrite Hj. destruct a as [x q]. cbn [n m] in *.
    do 2 f_equal. unfold in_range in Hr. cbn [n m] in Hr.
    rewrite (Z.mul_comm x i) in Hone.
    pose proof (inverse_unique q i j x ltac:(lia) Hone' Hone) as E.
    rewrite !Z.mod_small in E by lia. assumption.
Qed.

Lemma finv_involutive_witness :
  Z.prime (m (mkFQ 5 7)) /\ in_range (mkFQ 5 7) /\
  (i <- finv (mkFQ 5 7) ;; finv i) = Ok (mkFQ 5 7).
Proof.
  assert (H1 : Z.prime (m (mkFQ 5 7))) by (cbn; apply prime_by_trial_sound; reflexivity).
  assert (H2 : in_range (mkFQ 5 7)) by (unfold in_range; cbn; lia).
  split; [exact H1|]. split; [exact H2|].
  exact (finv_involutive (mkFQ 5 7) H1 H2).
Defined.

(** * Further properties of jubjub.py *)

(** ** Affine addition on the curve *)

Lemma Point_valid_F (p : Point) :
  Point_in_field p -> Point_valid p = Ok true ->
  p = mkPoint (F Q (n (Point_x p))) (F Q (n (Point_y p))) /\
  on_curve (n (Point_x p)) (n (Point_y p)) = true.
Proof.
  intros Hf Hv. pose proof (Point_in_field_F p Hf) as Ep. split; [exact Ep|].
  rewrite Ep, Point_valid_eval in Hv. injection Hv as Hv. exact Hv.
Qed.

(** X11: on two valid affine points [Point.add] never divides by zero:
    the two denominators [1 + D x1 x2 y1 y2] and [1 - D x1 x2 y1 y2] are
    not 0 in the field (the addition law is complete), and the point it
    returns is valid again. *)
Theorem Point_add_valid (p q : Point) :
  Point_in_field p -> Point_in_field q ->
  Point_valid p = Ok true -> Point_valid q = Ok true ->
  (1 + JUBJUB_D * n (Point_x p) * n (Point_x q) * n (Point_y p) * n (Point_y q))
    mod JUBJUB_Q <> 0 /\
  (1 - JUBJUB_D * n (Point_x p) * n (Point_x q) * n (Point_y p) * n (Point_y q))
    mod JUBJUB_Q <> 0 /\
  exists r, Point_add p q = Ok r /\ Point_in_field r /\ Point_valid r = Ok true.
Proof.
  intros Hp Hq Hvp Hvq.
  destruct (Point_valid_F p Hp Hvp) as [Ep Hcp].
  destruct (Point_valid_F q Hq Hvq) as [Eq Hcq].
  destruct (add_denominators_nonzero _ _ _ _ Hcp Hcq) as [Hd1 Hd2].
  split; [exact Hd1|]. split; [exact Hd2|].
  rewrite Ep, Eq.
  destruct (Point_add_on_curve _ _ _ _ Hcp Hcq) as (x3 & y3 & Hadd & _ & Hc3).
  eexists. split; [exact Hadd|]. split; [split; apply F_in_field|].
  rewrite Point_valid_eval, Hc3. reflexivity.
Qed.

Lemma Point_add_valid_witness :
  Point_in_field affine_a /\ Point_valid affine_a = Ok true /\
  exists r, Point_add affine_a affine_a = Ok r /\ Point_in_field r /\
            Point_valid r = Ok true.
Proof.
  assert (Hv : Point_valid affine_a = Ok true) by (vm_compute; reflexivity).
  split; [exact affine_a_in_field|]. split; [exact Hv|].
  exact (proj2 (proj2 (Point_add_valid affine_a affine_a
                         affine_a_in_field affine_a_in_field Hv Hv))).
Defined.

(** ** Extended addition and doubling against the affine law *)

Lemma Point_add_identity_left x2 y2 :
  Point_add (mkPoint (F Q (0 * invz Q 1)) (F Q (1 * invz Q 1)))
            (mkPoint (F Q x2) (F Q y2))
  = Ok (mkPoint (F Q x2) (F Q y2)).
Proof.
  rewrite Point_add_eval, invz_one.
  replace ((0 * 1) mod Q =? 0) with true by (vm_compute; reflexivity).
  replace ((1 * 1) mod Q =? 0) with false by (vm_compute; reflexivity).
  cbv beta iota delta [andb].
  replace (1 + JUBJUB_D * (0 * 1) * x2 * (1 * 1) * y2) with 1 by ring.
  replace (1 - JUBJUB_D * (0 * 1) * x2 * (1 * 1) * y2) with 1 by ring.
  rewrite invz_one. do 2 f_equal; f_equal; ring.
Qed.

Lemma Etec_result_wellformed (r : EtecPoint) (c : result EtecPoint) :
  (exists r', c = Ok r' /\ Etec_wellformed r') -> c = Ok r -> Etec_wellformed r.
Proof. intros (r' & E & H) E'. rewrite E in E'. injection E' as <-. exact H. Qed.

(** X12: [EtecPoint.add] on two well-formed extended points (reduced
    coordinates, on the curve, [T Z = X Y]) does not raise, returns a
    well-formed point, and that point taken to affine coordinates is what
    [Point.add] returns on the affine forms of the two operands. *)
Theorem Etec_add_agrees (a p : EtecPoint) :
  Etec_wellformed a -> Etec_wellformed p ->
  exists r pa pp s,
    Etec_add a p = Ok r /\ Etec_wellformed r /\
    Etec_as_point a = Ok pa /\ Etec_as_point p = Ok pp /\
    Point_add pa pp = Ok s /\ Etec_as_point r = Ok s.
Proof.
  intros Ha Hp. pose proof (Etec_add_closed a p Ha Hp) as Hcl.
  destruct (Etec_wellformed_F a Ha) as (x1 & y1 & t1 & z1 & -> & Hc1 & Ht1).
  destruct (Etec_wellformed_F p Hp) as (x2 & y2 & t2 & z2 & -> & Hc2 & Ht2).
  rewrite Etec_add_eval in Hcl |- *. rewrite !Etec_as_point_eval.
  destruct (is_etec_infinity x1 y1 t1 z1) eqn:Ei.
  - pose proof (is_etec_infinity_true _ _ _ _ Ei) as E.
    assert (Ea : Etec_as_point (mkEtec (F Q x1) (F Q y1) (F Q t1) (F Q z1))
                 = Etec_as_point (mkEtec (F Q 0) (F Q 1) (F Q 0) (F Q 1)))
      by (rewrite E; reflexivity).
    rewrite !Etec_as_point_eval in Ea. rewrite Ea.
    do 4 eexists. split; [reflexivity|]. split; [exact Hp|].
    split; [reflexivity|]. split; [reflexivity|].
    split; [apply Point_add_identity_left | apply Etec_as_point_eval].
  - pose proof (on_curve_nonzero_Z _ _ _ Hc1) as Hz1.
    pose proof (on_curve_nonzero_Z _ _ _ Hc2) as Hz2.
    apply Z.eqb_neq in Hz1, Hz2. rewrite Hz1, Hz2 in Hcl |- *.
    pose proof (etec_add_coords_sound _ _ _ _ _ _ _ _ Hc1 Ht1 Hc2 Ht2) as Hs.
    pose proof (Point_add_coords (x1 * invz Q z1) (y1 * invz Q z1)
                  (x2 * invz Q z2) (y2 * invz Q z2)
                  (on_curve_not_zero_pair _ _ Hc1)) as Hadd.
    destruct (etec_add_coords _ _ _ _ _ _ _ _) as [[[X Y] T] Z].
    destruct (affine_add_coords _ _ _ _) as [x3 y3].
    destruct Hs as (_ & EX & EY & _).
    do 4 eexists. split; [reflexivity|].
    split; [exact (Etec_result_wellformed _ _ Hcl eq_refl)|].
    split; [reflexivity|]. split; [reflexivity|].
    split; [exact Hadd|]. rewrite Etec_as_point_eval, EX, EY. reflexivity.
Qed.

Lemma etec_a_wellformed : Etec_wellformed etec_a.
Proof.
  split; [exact etec_a_in_field|]. split; [vm_compute; reflexivity|].
  apply congruent_mod. vm_compute. reflexivity.
Qed.

Lemma Etec_add_agrees_witness :
  Etec_wellformed etec_a /\
  exists r pa pp s,
    Etec_add etec_a etec_a = Ok r /\ Etec_wellformed r /\
    Etec_as_point etec_a = Ok pa /\ Etec_as_point etec_a = Ok pp /\
    Point_add pa pp = Ok s /\ Etec_as_point r = Ok s.
Proof.
  split; [exact etec_a_wellformed|].
  exact (Etec_add_agrees etec_a etec_a etec_a_wellformed etec_a_wellformed).
Defined.

(** X13: [EtecPoint.double] on a well-formed extended point does not
    raise, returns a well-formed point, and that point taken to affine
    coordinates is what [Point.add] returns on the affine form of the
    operand and itself. *)
Theorem Etec_double_agrees (p : EtecPoint) :
  Etec_wellformed p ->
  exists r pa s,
    Etec_double p = Ok r /\ Etec_wellformed r /\
    Etec_as_point p = Ok pa /\ Point_add pa pa = Ok s /\ Etec_as_point r = Ok s.
Proof.
  intros Hp. pose proof (Etec_double_closed p Hp) as Hcl.
  destruct (Etec_wellformed_F p Hp) as (x & y & t & z & -> & Hc & Ht).
  rewrite Etec_double_eval in Hcl |- *. rewrite !Etec_as_point_eval.
  destruct (is_etec_infinity x y t z) eqn:Ei.
  - pose proof (is_etec_infinity_true _ _ _ _ Ei) as E.
    assert (Ea : Etec_as_point (mkEtec (F Q x) (F Q y) (F Q t) (F Q z))
                 = Etec_as_point (mkEtec (F Q 0) (F Q 1) (F Q 0) (F Q 1)))
      by (rewrite E; reflexivity).
    rewrite !Etec_as_point_eval in Ea. rewrite Ea.
    do 3 eexists. split; [reflexivity|]. split; [exact etec_infinity_wellformed|].
    split; [reflexivity|].
    split; [apply Point_add_identity_left | apply Etec_as_point_eval].
  - pose proof (etec_double_coords_sound _ _ _ _ Hc Ht) as Hs.
    pose proof (Point_add_coords (x * invz Q z) (y * invz Q z)
                  (x * invz Q z) (y * invz Q z)
                  (on_curve_not_zero_pair _ _ Hc)) as Hadd.
    destruct (etec_double_coords _ _ _ _) as [[[X Y] T] Z].
    destruct (affine_add_coords _ _ _ _) as [x3 y3].
    destruct Hs as (_ & EX & EY & _).
    do 3 eexists. split; [reflexivity|].
    split; [exact (Etec_result_wellformed _ _ Hcl eq_refl)|].
    split; [reflexivity|].
    split; [exact Hadd|]. rewrite Etec_as_point_eval, EX, EY. reflexivity.
Qed.

Lemma Etec_double_agrees_witness :
  Etec_wellformed etec_a /\
  exists r pa s,
    Etec_double etec_a = Ok r /\ Etec_wellformed r /\
    Etec_as_point etec_a = Ok pa /\ Point_add pa pa = Ok s /\ Etec_as_point r = Ok s.
Proof.
  split; [exact etec_a_wellformed|].
  exact (Etec_double_agrees etec_a etec_a_wellformed).
Defined.

(** ** Projective addition and doubling against the affine law *)

(** The coordinates that [ProjPoint.add] computes are, up to a common
    non-zero factor, those of the affine sum. *)
Lemma proj_add_coords_sound x1 y1 z1 x2 y2 z2 :
  on_curve (x1 * invz Q z1) (y1 * invz Q z1) = true ->
  on_curve (x2 * invz Q z2) (y2 * invz Q z2) = true ->
  let '(X, Y, Z) := proj_add_coords x1 y1 z1 x2 y2 z2 in
  let '(x3, y3) :=
    affine_add_coords (x1 * invz Q z1) (y1 * invz Q z1) (x2 * invz Q z2) (y2 * invz Q z2) in
  Z mod Q <> 0 /\ F Q (X * invz Q Z) = F Q x3 /\ F Q (Y * invz Q Z) = F Q y3.
Proof.
  intros Hc1 Hc2.
  pose proof (on_curve_nonzero_Z _ _ _ Hc1) as Hz1.
  pose proof (on_curve_nonzero_Z _ _ _ Hc2) as Hz2.
  pose proof (invz_unit z1 Hz1) as Hu1. pose proof (invz_unit z2 Hz2) as Hu2.
  destruct (add_denominators_nonzero _ _ _ _ Hc1 Hc2) as [Hd1 Hd2].
  pose proof (affine_of z1 _ x1 Hu1) as Hx1. pose proof (affine_of z1 _ y1 Hu1) as Hy1.
  pose proof (affine_of z2 _ x2 Hu2) as Hx2. pose proof (affine_of z2 _ y2 Hu2) as Hy2.
  unfold affine_add_coords, JUBJUB_Q.
  set (a1 := x1 * invz Q z1) in *. set (b1 := y1 * invz Q z1) in *.
  set (a2 := x2 * invz Q z2) in *. set (b2 := y2 * invz Q z2) in *.
  set (d1 := 1 + JUBJUB_D * a1 * a2 * b1 * b2) in *.
  set (d2 := 1 - JUBJUB_D * a1 * a2 * b1 * b2) in *.
  clearbody a1 b1 a2 b2.
  set (w := z1 * z2 * (z1 * z2)).
  assert (Hw : w mod Q <> 0) by (unfold w; repeat apply nonzero_mul; assumption).
  unfold proj_add_coords. cbv zeta.
  assert (HF : z1 * z2 * (z1 * z2) - x1 * x2 * (y1 * y2) * JUBJUB_D == w * d2).
  { rewrite Hx1, Hy1, Hx2, Hy2. apply congruent_ring. unfold w, d2. ring. }
  assert (HG : z1 * z2 * (z1 * z2) + x1 * x2 * (y1 * y2) * JUBJUB_D == w * d1).
  { rewrite Hx1, Hy1, Hx2, Hy2. apply congruent_ring. unfold w, d1. ring. }
  assert (HT : (x1 + y1) * (x2 + y2) - x1 * x2 - y1 * y2
               == z1 * z2 * (a1 * b2 + b1 * a2)).
  { rewrite Hx1, Hy1, Hx2, Hy2. apply congruent_ring. ring. }
  assert (HH : y1 * y2 - x1 * x2 * JUBJUB_A
               == z1 * z2 * (b1 * b2 - JUBJUB_A * a1 * a2)).
  { rewrite Hx1, Hy1, Hx2, Hy2. apply congruent_ring. ring. }
  set (f := z1 * z2 * (z1 * z2) - x1 * x2 * (y1 * y2) * JUBJUB_D) in *.
  set (g := z1 * z2 * (z1 * z2) + x1 * x2 * (y1 * y2) * JUBJUB_D) in *.
  set (t5 := (x1 + y1) * (x2 + y2) - x1 * x2 - y1 * y2) in *.
  set (h := y1 * y2 - x1 * x2 * JUBJUB_A) in *.
  assert (HZ1 : f * g == w * w * d2 * d1).
  { rewrite HF, HG. apply congruent_ring. ring. }
  split; [|split].
  - apply (nonzero_congruent _ _ HZ1). repeat apply nonzero_mul; assumption.
  - apply (scale_quotient (w * w * d2)); [repeat apply nonzero_mul; assumption| |exact HZ1].
    change (z1 * z2 * (f * t5) == w * w * d2 * (a1 * b2 + b1 * a2)).
    rewrite HF, HT. apply congruent_ring. unfold w. ring.
  - apply (scale_quotient (w * w * d1)); [repeat apply nonzero_mul; assumption| |].
    + change (z1 * z2 * (g * h) == w * w * d1 * (b1 * b2 - JUBJUB_A * a1 * a2)).
      rewrite HG, HH. apply congruent_ring. unfold w. ring.
    + change (f * g == w * w * d1 * d2). rewrite HZ1. apply congruent_ring. ring.
Qed.

Lemma proj_double_coords_sound x y z :
  on_curve (x * invz Q z) (y * invz Q z) = true ->
  let '(X, Y, Z) := proj_double_coords x y z in
  let '(x3, y3) :=
    affine_add_coords (x * invz Q z) (y * invz Q z) (x * invz Q z) (y * invz Q z) in
  Z mod Q <> 0 /\ F Q (X * invz Q Z) = F Q x3 /\ F Q (Y * invz Q Z) = F Q y3.
Proof.
  intros Hc. pose proof (on_curve_nonzero_Z _ _ _ Hc) as Hz.
  pose proof (proj_add_coords_sound x y z x y z Hc Hc) as Hadd.
  pose proof (proj_double_add_coords x y z Hz Hc) as Hco. cbv zeta in Hco.
  destruct (proj_double_coords x y z) as [[X Y] Z].
  destruct (proj_add_coords x y z x y z) as [[X' Y'] Z'].
  destruct (affine_add_coords _ _ _ _) as [x3 y3].
  destruct Hco as (Hl & HX & HY & HZ). destruct Hadd as (HZ' & EX & EY).
  split; [|split].
  - apply Z.eqb_neq. rewrite <- (zero_iff_scaled _ Z Z' Hl HZ).
    apply Z.eqb_neq. exact HZ'.
  - rewrite <- EX. symmetry. exact (scale_quotient _ X Z X' Z' Hl HX HZ).
  - rewrite <- EY. symmetry. exact (scale_quotient _ Y Z Y' Z' Hl HY HZ).
Qed.

Lemma Proj_valid_F (p : ProjPoint) :
  Proj_in_field p -> Proj_valid p = Ok true ->
  exists x y z,
    p = mkProj (F Q x) (F Q y) (F Q z) /\
    on_curve (x * invz Q z) (y * invz Q z) = true /\ z mod Q <> 0.
Proof.
  intros Hf Hv. pose proof (Proj_in_field_F p Hf) as Ep.
  exists (n (Proj_x p)), (n (Proj_y p)), (n (Proj_z p)).
  split; [exact Ep|]. rewrite Ep, Proj_valid_eval in Hv.
  destruct (Z.eqb_spec (n (Proj_z p) mod Q) 0) as [|Hz]; [discriminate|].
  injection Hv as Hv. split; assumption.
Qed.

Lemma Proj_as_point_ok x y z :
  z mod Q <> 0 ->
  Proj_as_point (mkProj (F Q x) (F Q y) (F Q z))
  = Ok (mkPoint (F Q (x * invz Q z)) (F Q (y * invz Q z))).
Proof.
  intros Hz. rewrite Proj_as_point_eval. apply Z.eqb_neq in Hz. rewrite Hz.
  reflexivity.
Qed.

Lemma Proj_valid_ok x y z :
  z mod Q <> 0 -> on_curve (x * invz Q z) (y * invz Q z) = true ->
  Proj_valid (mkProj (F Q x) (F Q y) (F Q z)) = Ok true.
Proof.
  intros Hz Hc. rewrite Proj_valid_eval. apply Z.eqb_neq in Hz. rewrite Hz, Hc.
  reflexivity.
Qed.

Lemma one_nonzero : 1 mod Q <> 0.
Proof. vm_compute. discriminate. Qed.

(** X14: [ProjPoint.add] on two valid projective points with reduced
    coordinates returns a valid point, and that point taken to affine
    coordinates is what [Point.add] returns on the affine forms of the two
    operands. *)
Theorem Proj_add_agrees (a p : ProjPoint) :
  Proj_in_field a -> Proj_in_field p ->
  Proj_valid a = Ok true -> Proj_valid p = Ok true ->
  exists r pa pp s,
    Proj_add a p = Ok r /\ Proj_in_field r /\ Proj_valid r = Ok true /\
    Proj_as_point a = Ok pa /\ Proj_as_point p = Ok pp /\
    Point_add pa pp = Ok s /\ Proj_as_point r = Ok s.
Proof.
  intros Ha Hp Hva Hvp.
  destruct (Proj_valid_F a Ha Hva) as (x1 & y1 & z1 & E1 & Hc1 & Hz1).
  destruct (Proj_valid_F p Hp Hvp) as (x2 & y2 & z2 & E2 & Hc2 & Hz2).
  subst a p. rewrite Proj_add_eval.
  destruct (is_proj_infinity x1 y1 z1) eqn:Ei.
  - rewrite (is_proj_infinity_true _ _ _ Ei).
    rewrite (Proj_as_point_ok 0 1 1 one_nonzero), (Proj_as_point_ok x2 y2 z2 Hz2).
    do 4 eexists. split; [reflexivity|]. split; [exact Hp|]. split; [exact Hvp|].
    split; [reflexivity|]. split; [reflexivity|].
    split; [apply Point_add_identity_left | exact (Proj_as_point_ok x2 y2 z2 Hz2)].
  - rewrite (Proj_as_point_ok x1 y1 z1 Hz1), (Proj_as_point_ok x2 y2 z2 Hz2).
    pose proof (proj_add_coords_sound _ _ _ _ _ _ Hc1 Hc2) as Hs.
    pose proof (affine_sum_on_curve _ _ _ _ Hc1 Hc2) as Hon.
    pose proof (Point_add_coords (x1 * invz Q z1) (y1 * invz Q z1)
                  (x2 * invz Q z2) (y2 * invz Q z2)
                  (on_curve_not_zero_pair _ _ Hc1)) as Hadd.
    destruct (proj_add_coords _ _ _ _ _ _) as [[X Y] Z].
    destruct (affine_add_coords _ _ _ _) as [x3 y3].
    destruct Hs as (HZ & EX & EY).
    do 4 eexists. split; [reflexivity|].
    split; [repeat split; apply F_in_field|].
    split; [apply (Proj_valid_ok _ _ _ HZ);
            rewrite (on_curve_F_eq _ _ _ _ EX EY); exact Hon|].
    split; [reflexivity|]. split; [reflexivity|].
    split; [exact Hadd|]. rewrite (Proj_as_point_ok _ _ _ HZ), EX, EY. reflexivity.
Qed.

Lemma Proj_add_agrees_witness :
  Proj_in_field proj_a /\ Proj_valid proj_a = Ok true /\
  exists r pa pp s,
    Proj_add proj_a proj_a = Ok r /\ Proj_in_field r /\ Proj_valid r = Ok true /\
    Proj_as_point proj_a = Ok pa /\ Proj_as_point proj_a = Ok pp /\
    Point_add pa pp = Ok s /\ Proj_as_point r = Ok s.
Proof.
  assert (Hv : Proj_valid proj_a = Ok true) by (vm_compute; reflexivity).
  split; [exact proj_a_in_field|]. split; [exact Hv|].
  exact (Proj_add_agrees proj_a proj_a proj_a_in_field proj_a_in_field Hv Hv).
Defined.

(** X15: [ProjPoint.double] on a valid projective point with reduced
    coordinates returns a valid point, and that point taken to affine
    coordinates is what [Point.add] returns on the affine form of the
    operand and itself. *)
Theorem Proj_double_agrees (p : ProjPoint) :
  Proj_in_field p -> Proj_valid p = Ok true ->
  exists r pa s,
    Proj_double p = Ok r /\ Proj_in_field r /\ Proj_valid r = Ok true /\
    Proj_as_point p = Ok pa /\ Point_add pa pa = Ok s /\ Proj_as_point r = Ok s.
Proof.
  intros Hp Hvp.
  destruct (Proj_valid_F p Hp Hvp) as (x & y & z & E & Hc & Hz).
  subst p. rewrite Proj_double_eval.
  destruct (is_proj_infinity x y z) eqn:Ei.
  - rewrite (is_proj_infinity_true _ _ _ Ei).
    rewrite (Proj_as_point_ok 0 1 1 one_nonzero).
    do 3 eexists. split; [reflexivity|].
    split; [repeat split; apply F_in_field|].
    split; [vm_compute; reflexivity|].
    split; [reflexivity|].
    split; [apply Point_add_identity_left
           | exact (Proj_as_point_ok 0 1 1 one_nonzero)].
  - rewrite (Proj_as_point_ok x y z Hz).
    pose proof (proj_double_coords_sound _ _ _ Hc) as Hs.
    pose proof (affine_sum_on_curve _ _ _ _ Hc Hc) as Hon.
    pose proof (Point_add_coords (x * invz Q z) (y * invz Q z)
                  (x * invz Q z) (y * invz Q z)
                  (on_curve_not_zero_pair _ _ Hc)) as Hadd.
    destruct (proj_double_coords _ _ _) as [[X Y] Z].
    destruct (affine_add_coords _ _ _ _) as [x3 y3].
    destruct Hs as (HZ & EX & EY).
    do 3 eexists. split; [reflexivity|].
    split; [repeat split; apply F_in_field|].
    split; [apply (Proj_valid_ok _ _ _ HZ);
            rewrite (on_curve_F_eq _ _ _ _ EX EY); exact Hon|].
    split; [reflexivity|].
    split; [exact Hadd|]. rewrite (Proj_as_point_ok _ _ _ HZ), EX, EY. reflexivity.
Qed.

Lemma Proj_double_agrees_witness :
  Proj_in_field proj_a /\ Proj_valid proj_a = Ok true /\
  exists r pa s,
    Proj_double proj_a = Ok r /\ Proj_in_field r /\ Proj_valid r = Ok true /\
    Proj_as_point proj_a = Ok pa /\ Point_add pa pa = Ok s /\ Proj_as_point r = Ok s.
Proof.
  assert (Hv : Proj_valid proj_a = Ok true) by (vm_compute; reflexivity).
  split; [exact proj_a_in_field|]. split; [exact Hv|].
  exact (Proj_double_agrees proj_a proj_a_in_field Hv).
Defined.

(** ** Negation and subtraction *)

Lemma on_curve_opp x y : on_curve (- x) y = on_curve x y.
Proof. unfold on_curve. rewrite Z.mul_opp_opp. reflexivity. Qed.

Lemma on_curve_congruent_args x y x' y' :
  x' == x -> y' == y -> on_curve x' y' = on_curve x y.
Proof. intros Hx Hy. apply on_curve_F_eq; apply congruent_F; assumption. Qed.

(** The affine sum of a point of the curve and its opposite is (0, 1). *)
Lemma affine_add_opposite a b a2 b2 :
  on_curve a b = true -> a2 == - a -> b2 == b ->
  let '(x3, y3) := affine_add_coords a b a2 b2 in
  F Q x3 = F Q 0 /\ F Q y3 = F Q 1.
Proof.
  intros Hc Ha2 Hb2.
  assert (Hc2 : on_curve a2 b2 = true).
  { rewrite (on_curve_congruent_args (- a) b a2 b2 Ha2 Hb2), on_curve_opp. exact Hc. }
  destruct (add_denominators_nonzero a b a2 b2 Hc Hc2) as [_ Hd].
  apply invz_unit in Hd. apply on_curve_congruent in Hc.
  unfold affine_add_coords, JUBJUB_Q.
  set (w := 1 - JUBJUB_D * a * a2 * b * b2) in *.
  set (i1 := invz Q (1 + JUBJUB_D * a * a2 * b * b2)). set (i2 := invz Q w) in *.
  split; apply congruent_F.
  - rewrite Ha2, Hb2. apply congruent_ring. ring.
  - transitivity (w * i2); [|exact Hd].
    assert (Hn : b * b2 - JUBJUB_A * a * a2 == w).
    { unfold w. rewrite Ha2, Hb2.
      transitivity (a * a * JUBJUB_A + b * b); [apply congruent_ring; ring|].
      rewrite Hc. apply congruent_ring. ring. }
    rewrite Hn. reflexivity.
Qed.

Lemma Point_neg_eval x y :
  Point_neg (mkPoint (F Q x) (F Q y)) = Ok (mkPoint (F Q (- x)) (F Q y)).
Proof.
  unfold Point_neg. cbv beta iota delta [Point_x Point_y]. fq_eval. reflexivity.
Qed.

Lemma Proj_neg_eval x y z :
  Proj_neg (mkProj (F Q x) (F Q y) (F Q z)) = Ok (mkProj (F Q (- x)) (F Q y) (F Q z)).
Proof.
  unfold Proj_neg. cbv beta iota delta [Proj_x Proj_y Proj_z]. fq_eval. reflexivity.
Qed.

Lemma Etec_neg_eval x y t z :
  Etec_neg (mkEtec (F Q x) (F Q y) (F Q t) (F Q z))
  = Ok (mkEtec (F Q (- x)) (F Q y) (F Q (- t)) (F Q z)).
Proof.
  unfold Etec_neg. cbv beta iota delta [Etec_x Etec_y Etec_t Etec_z]. fq_eval.
  reflexivity.
Qed.

(** X16: the negation of a valid affine point is valid, negating twice
    gives the point back, and the point minus itself ([__sub__], that is
    [self.add(other.neg())]) is the identity (0, 1). *)
Theorem Point_neg_laws (p : Point) :
  Point_in_field p -> Point_valid p = Ok true ->
  exists np,
    Point_neg p = Ok np /\ Point_in_field np /\ Point_valid np = Ok true /\
    Point_neg np = Ok p /\ Point_add p np = Point_infinity /\
    Point_sub p p = Point_infinity.
Proof.
  intros Hf Hv. destruct (Point_valid_F p Hf Hv) as [Ep Hc].
  remember (n (Point_x p)) as x. remember (n (Point_y p)) as y.
  rewrite Ep. unfold Point_sub. rewrite Point_neg_eval, bind_ret.
  assert (Hadd : Point_add (mkPoint (F Q x) (F Q y)) (mkPoint (F Q (- x)) (F Q y))
                 = Point_infinity).
  { rewrite (Point_add_coords _ _ _ _ (on_curve_not_zero_pair _ _ Hc)).
    pose proof (affine_add_opposite x y (- x) y Hc
                  ltac:(reflexivity) ltac:(reflexivity)) as H.
    destruct (affine_add_coords _ _ _ _) as [x3 y3]. destruct H as [-> ->].
    symmetry. exact Point_infinity_eval. }
  eexists. split; [reflexivity|]. split; [split; apply F_in_field|].
  split; [rewrite Point_valid_eval, on_curve_opp, Hc; reflexivity|].
  split; [rewrite Point_neg_eval, Z.opp_involutive; reflexivity|].
  split; exact Hadd.
Qed.

Lemma Point_neg_laws_witness :
  Point_in_field affine_a /\ Point_valid affine_a = Ok true /\
  Point_sub affine_a affine_a = Point_infinity.
Proof.
  assert (Hv : Point_valid affine_a = Ok true) by (vm_compute; reflexivity).
  split; [exact affine_a_in_field|]. split; [exact Hv|].
  destruct (Point_neg_laws affine_a affine_a_in_field Hv) as (np & _ & _ & _ & _ & _ & H).
  exact H.
Defined.

Lemma is_proj_infinity_congruent x y z :
  is_proj_infinity x y z = true -> x == 0 /\ y == 1 /\ z == 1.
Proof.
  unfold is_proj_infinity. intros H.
  apply andb_true_iff in H as [Hx H]. apply andb_true_iff in H as [Hy Hz].
  apply Z.eqb_eq in Hx, Hy, Hz. repeat split; apply congruent_mod; assumption.
Qed.

Lemma is_etec_infinity_congruent x y t z :
  is_etec_infinity x y t z = true -> x == 0 /\ y == 1 /\ t == 0 /\ z == 1.
Proof.
  unfold is_etec_infinity. intros H.
  apply andb_true_iff in H as [Hx H]. apply andb_true_iff in H as [Hy H].
  apply andb_true_iff in H as [Ht Hz].
  apply Z.eqb_eq in Hx, Hy, Ht, Hz. repeat split; apply congruent_mod; assumption.
Qed.

(** The affine form of the opposite of the identity tuple. *)
Lemma opposite_of_identity x y z :
  x == 0 -> y == 1 -> z == 1 ->
  F Q (- x * invz Q z) = F Q 0 /\ F Q (y * invz Q z) = F Q 1.
Proof.
  intros Hx Hy Hz. rewrite (invz_cong 1 z Hz), invz_one.
  split; apply congruent_F; [rewrite Hx | rewrite Hy]; apply congruent_ring; ring.
Qed.

(** X17: in projective and in extended coordinates, a valid point minus
    itself does not raise and is, taken to affine coordinates, the
    identity (0, 1). *)
Theorem sub_self_is_identity :
  (forall p : ProjPoint,
     Proj_in_field p -> Proj_valid p = Ok true ->
     exists r, Proj_sub p p = Ok r /\ Proj_as_point r = Point_infinity) /\
  (forall p : EtecPoint,
     Etec_in_field p -> Etec_valid p = Ok true ->
     (n (Etec_t p) * n (Etec_z p)) mod JUBJUB_Q
       = (n (Etec_x p) * n (Etec_y p)) mod JUBJUB_Q ->
     exists r, Etec_sub p p = Ok r /\ Etec_as_point r = Point_infinity).
Proof.
  split.
  - intros p Hf Hv. destruct (Proj_valid_F p Hf Hv) as (x & y & z & -> & Hc & Hz).
    unfold Proj_sub. rewrite Proj_neg_eval, bind_ret, Proj_add_eval.
    rewrite Point_infinity_eval.
    destruct (is_proj_infinity x y z) eqn:Ei.
    + destruct (is_proj_infinity_congruent _ _ _ Ei) as (Hx & Hy & Hz1).
      destruct (opposite_of_identity x y z Hx Hy Hz1) as [E1 E2].
      eexists. split; [reflexivity|].
      rewrite (Proj_as_point_ok _ _ _ Hz), E1, E2. reflexivity.
    + assert (Hc' : on_curve (- x * invz Q z) (y * invz Q z) = true).
      { rewrite Z.mul_opp_l, on_curve_opp. exact Hc. }
      pose proof (proj_add_coords_sound _ _ _ _ _ _ Hc Hc') as Hs.
      pose proof (affine_add_opposite (x * invz Q z) (y * invz Q z)
                    (- x * invz Q z) (y * invz Q z) Hc
                    ltac:(apply congruent_ring; ring) ltac:(reflexivity)) as Ho.
      destruct (proj_add_coords _ _ _ _ _ _) as [[X Y] Z].
      destruct (affine_add_coords _ _ _ _) as [x3 y3].
      destruct Hs as (HZ & EX & EY). destruct Ho as [E1 E2].
      eexists. split; [reflexivity|].
      rewrite (Proj_as_point_ok _ _ _ HZ), EX, EY, E1, E2. reflexivity.
  - intros p Hf Hv Hco.
    assert (Hw : Etec_wellformed p).
    { split; [exact Hf|]. split; [exact Hv|]. apply congruent_mod. exact Hco. }
    destruct (Etec_wellformed_F p Hw) as (x & y & t & z & -> & Hc & Ht).
    pose proof (on_curve_nonzero_Z _ _ _ Hc) as Hz.
    unfold Etec_sub. rewrite Etec_neg_eval, bind_ret, Etec_add_eval.
    rewrite Point_infinity_eval.
    destruct (is_etec_infinity x y t z) eqn:Ei.
    + destruct (is_etec_infinity_congruent _ _ _ _ Ei) as (Hx & Hy & _ & Hz1).
      destruct (opposite_of_identity x y z Hx Hy Hz1) as [E1 E2].
      eexists. split; [reflexivity|].
      rewrite Etec_as_point_eval, E1, E2. reflexivity.
    + apply Z.eqb_neq in Hz. rewrite Hz.
      assert (Hc' : on_curve (- x * invz Q z) (y * invz Q z) = true).
      { rewrite Z.mul_opp_l, on_curve_opp. exact Hc. }
      assert (Ht' : - t * z == - x * y).
      { transitivity (- (t * z)); [apply congruent_ring; ring|].
        rewrite Ht. apply congruent_ring. ring. }
      pose proof (etec_add_coords_sound _ _ _ _ _ _ _ _ Hc Ht Hc' Ht') as Hs.
      pose proof (affine_add_opposite (x * invz Q z) (y * invz Q z)
                    (- x * invz Q z) (y * invz Q z) Hc
                    ltac:(apply congruent_ring; ring) ltac:(reflexivity)) as Ho.
      destruct (etec_add_coords _ _ _ _ _ _ _ _) as [[[X Y] T] Z].
      destruct (affine_add_coords _ _ _ _) as [x3 y3].
      destruct Hs as (_ & EX & EY & _). destruct Ho as [E1 E2].
      eexists. split; [reflexivity|].
      rewrite Etec_as_point_eval, EX, EY, E1, E2. reflexivity.
Qed.

(** ** Commutativity of the affine addition, and the all-zero pair *)

(** X18: on affine points with reduced coordinates, [add] is commutative
    as long as neither operand is the all-zero pair (0, 0); the all-zero
    pair is neutral on the left and absorbing on the right:
    [(0,0).add(q)] is [q] and [q.add((0,0))] is (0, 0). *)
Theorem Point_add_commutes (p q : Point) :
  Point_in_field p -> Point_in_field q ->
  (~ (n (Point_x p) = 0 /\ n (Point_y p) = 0) ->
   ~ (n (Point_x q) = 0 /\ n (Point_y q) = 0) ->
   Point_add p q = Point_add q p) /\
  (n (Point_x p) = 0 -> n (Point_y p) = 0 ->
   Point_add p q = Ok q /\ Point_add q p = Ok p).
Proof.
  intros Hp Hq. pose proof (Point_in_field_F p Hp) as Ep.
  pose proof (Point_in_field_F q Hq) as Eq.
  destruct Hp as [[_ Hx1] [_ Hy1]]. destruct Hq as [[_ Hx2] [_ Hy2]].
  unfold JUBJUB_Q in *.
  remember (n (Point_x p)) as x1. remember (n (Point_y p)) as y1.
  remember (n (Point_x q)) as x2. remember (n (Point_y q)) as y2.
  rewrite Ep, Eq, !Point_add_eval.
  rewrite (Z.mod_small x1), (Z.mod_small y1), (Z.mod_small x2), (Z.mod_small y2)
    by assumption.
  split.
  - intros Hn1 Hn2.
    assert (G1 : (x1 =? 0) && (y1 =? 0) = false).
    { destruct (Z.eqb_spec x1 0); [|reflexivity].
      destruct (Z.eqb_spec y1 0); [|reflexivity]. exfalso. apply Hn1. split; assumption. }
    assert (G2 : (x2 =? 0) && (y2 =? 0) = false).
    { destruct (Z.eqb_spec x2 0); [|reflexivity].
      destruct (Z.eqb_spec y2 0); [|reflexivity]. exfalso. apply Hn2. split; assumption. }
    rewrite G1, G2. apply affine_quotients_congr; ring.
  - intros E1 E2. rewrite E1, E2. cbn [Z.eqb andb]. split; [reflexivity|].
    destruct ((x2 =? 0) && (y2 =? 0)); [reflexivity|].
    do 2 f_equal; apply congruent_F; apply congruent_ring; ring.
Qed.

Lemma Point_add_commutes_witness :
  Point_in_field affine_a /\
  Point_in_field (mkPoint (F Q 0) (F Q 0)) /\
  Point_add (mkPoint (F Q 0) (F Q 0)) affine_a = Ok affine_a /\
  Point_add affine_a (mkPoint (F Q 0) (F Q 0)) = Ok (mkPoint (F Q 0) (F Q 0)).
Proof.
  assert (Hz : Point_in_field (mkPoint (F Q 0) (F Q 0))) by (split; apply F_in_field).
  split; [exact affine_a_in_field|]. split; [exact Hz|].
  exact (proj2 (Point_add_commutes (mkPoint (F Q 0) (F Q 0)) affine_a
                  Hz affine_a_in_field) eq_refl eq_refl).
Defined.

(** ** Conversions between the representations *)

(** X19: an affine point with reduced coordinates, taken to extended or
    to projective coordinates and back, is the point itself; the two
    forms convert into each other, the extended one has [T Z = X Y], and
    both are valid when the point is. *)
Theorem conversions_round_trip (p : Point) :
  Point_in_field p ->
  exists e j,
    Point_as_etec p = Ok e /\ Point_as_proj p = Ok j /\
    Etec_as_point e = Ok p /\ Proj_as_point j = Ok p /\
    Etec_as_proj e = Ok j /\ Proj_as_etec j = Ok e /\
    Etec_in_field e /\ Proj_in_field j /\ Etec_coherent e /\
    (Point_valid p = Ok true -> Etec_valid e = Ok true /\ Proj_valid j = Ok true).
Proof.
  intros Hp. pose proof (Point_in_field_F p Hp) as Ep.
  remember (n (Point_x p)) as x. remember (n (Point_y p)) as y. rewrite Ep.
  exists (mkEtec (F Q x) (F Q y) (F Q (x * y)) (F Q 1)), (mkProj (F Q x) (F Q y) (F Q 1)).
  assert (E1 : F Q (x * invz Q 1) = F Q x) by (rewrite invz_one, Z.mul_1_r; reflexivity).
  assert (E2 : F Q (y * invz Q 1) = F Q y) by (rewrite invz_one, Z.mul_1_r; reflexivity).
  split; [unfold Point_as_etec; cbv beta iota delta [Point_x Point_y]; fq_eval;
          reflexivity|].
  split; [unfold Point_as_proj; cbv beta iota delta [Point_x Point_y]; fq_eval;
          reflexivity|].
  split; [rewrite Etec_as_point_eval, E1, E2; reflexivity|].
  split; [rewrite (Proj_as_point_ok _ _ _ one_nonzero), E1, E2; reflexivity|].
  split; [reflexivity|].
  split; [unfold Proj_as_etec; cbv beta iota delta [Proj_x Proj_y Proj_z]; fq_eval;
          reflexivity|].
  split; [repeat split; apply F_in_field|].
  split; [repeat split; apply F_in_field|].
  split.
  - unfold Etec_coherent. cbn [Etec_x Etec_y Etec_t Etec_z n F].
    rewrite !mod_congruent. apply congruent_ring. ring.
  - rewrite Point_valid_eval, Etec_valid_eval, (Proj_valid_eval x y 1).
    replace (1 mod Q =? 0) with false by (vm_compute; reflexivity).
    rewrite (on_curve_F_eq _ _ _ _ E1 E2). intros H. split; exact H.
Qed.

Lemma conversions_round_trip_witness :
  Point_in_field affine_a /\
  exists e j,
    Point_as_etec affine_a = Ok e /\ Point_as_proj affine_a = Ok j /\
    Etec_as_point e = Ok affine_a /\ Proj_as_point j = Ok affine_a.
Proof.
  split; [exact affine_a_in_field|].
  destruct (conversions_round_trip affine_a affine_a_in_field)
    as (e & j & H1 & H2 & H3 & H4 & _).
  exists e, j. repeat split; assumption.
Defined.

(** X20: [ProjPoint.rescale] on a projective point with [Z != 0] returns
    a point with [Z = 1] that has the same affine form, and rescaling it
    again changes nothing. *)
Theorem Proj_rescale_laws (p : ProjPoint) :
  Proj_in_field p -> n (Proj_z p) <> 0 ->
  exists r,
    Proj_rescale p = Ok r /\ Proj_in_field r /\ n (Proj_z r) = 1 /\
    Proj_rescale r = Ok r /\ Proj_as_point r = Proj_as_point p.
Proof.
  intros Hp Hz. pose proof (Proj_in_field_F p Hp) as Ep.
  destruct Hp as (_ & _ & _ & Hzr). unfold JUBJUB_Q in Hzr.
  remember (n (Proj_x p)) as x. remember (n (Proj_y p)) as y.
  remember (n (Proj_z p)) as z.
  assert (Hz' : z mod Q <> 0) by (rewrite Z.mod_small; assumption).
  rewrite Ep, Proj_rescale_eval.
  assert (E : forall u, F Q (u * invz Q 1) = F Q u)
    by (intros u; rewrite invz_one, Z.mul_1_r; reflexivity).
  eexists. split; [reflexivity|]. split; [repeat split; apply F_in_field|].
  split; [reflexivity|].
  split; [rewrite Proj_rescale_eval, !E; reflexivity|].
  rewrite (Proj_as_point_ok _ _ _ one_nonzero), (Proj_as_point_ok _ _ _ Hz'), !E.
  reflexivity.
Qed.

Lemma Proj_rescale_laws_witness :
  Proj_in_field proj_a /\ n (Proj_z proj_a) <> 0 /\
  exists r, Proj_rescale proj_a = Ok r /\ Proj_rescale r = Ok r.
Proof.
  assert (Hz : n (Proj_z proj_a) <> 0) by (vm_compute; discriminate).
  split; [exact proj_a_in_field|]. split; [exact Hz|].
  destruct (Proj_rescale_laws proj_a proj_a_in_field Hz) as (r & H1 & _ & _ & H2 & _).
  exists r. split; assumption.
Defined.

(** ** Validity of a tuple with [Z = 0] *)

(** X21: a tuple with [Z = 0] is never valid: [EtecPoint.valid] answers
    [False] on it, and [ProjPoint.valid] raises [AssertionError], whatever
    the other coordinates are. *)
Theorem valid_with_zero_Z (x y t z : FQ) :
  in_field x -> in_field y -> in_field z -> n z = 0 ->
  Etec_valid (mkEtec x y t z) = Ok false /\
  Proj_valid (mkProj x y z) = Raise AssertionError.
Proof.
  intros Hx Hy Hz E.
  rewrite (in_field_F x Hx), (in_field_F y Hy), (in_field_F z Hz), E. split.
  - unfold Etec_valid, Etec_as_point. cbv beta iota delta [Etec_x Etec_y Etec_z].
    fq_eval. rewrite Point_valid_eval.
    rewrite (invz_zero SNARK_SCALAR_FIELD 0) by reflexivity.
    rewrite !Z.mul_0_r. vm_compute. reflexivity.
  - rewrite Proj_valid_eval. reflexivity.
Qed.

Lemma valid_with_zero_Z_witness :
  in_field (F Q 3) /\ in_field (F Q 4) /\ in_field (F Q 0) /\ n (F Q 0) = 0 /\
  Etec_valid (mkEtec (F Q 3) (F Q 4) (F Q 12) (F Q 0)) = Ok false /\
  Proj_valid (mkProj (F Q 3) (F Q 4) (F Q 0)) = Raise AssertionError.
Proof.
  assert (H4 : n (F Q 0) = 0) by reflexivity.
  split; [apply F_in_field|]. split; [apply F_in_field|]. split; [apply F_in_field|].
  split; [exact H4|].
  exact (valid_with_zero_Z (F Q 3) (F Q 4) (F Q 12) (F Q 0)
           (F_in_field 3) (F_in_field 4) (F_in_field 0) H4).
Defined.

(** ** Scalar multiplication by 0, 1 and 2 *)

Section MultSmall.
Context {P : Type} `{CurveOps P}.
Variable good : P -> Prop.
Hypothesis Hdbl : forall p, good p -> exists r, double p = Ok r /\ good r.
Hypothesis Hid : forall i p, infinity = Ok i -> good p -> add i p = Ok p.

Lemma mult_small (p i : P) (fuel : nat) :
  infinity = Ok i -> good p ->
  exists d, double p = Ok d /\
    mult fuel p (VInt 0) = Returns i /\
    mult (S fuel) p (VInt 1) = Returns p /\
    mult (S (S fuel)) p (VInt 2) = Returns d.
Proof.
  intros Hi Hp. destruct (Hdbl p Hp) as (d & Hd & Hgd).
  destruct (Hdbl d Hgd) as (d' & Hd' & _).
  exists d. split; [exact Hd|]. unfold mult. cbn [mult_scalar]. rewrite Hi.
  split; [|split].
  - destruct fuel; reflexivity.
  - cbn [mult_loop]. change (1 =? 0) with false. change (Z.land 1 1 =? 0) with false.
    cbn [negb]. rewrite (Hid i p Hi Hp), Hd. change (1 / 2) with 0.
    destruct fuel; reflexivity.
  - cbn [mult_loop]. change (2 =? 0) with false. change (Z.land 2 1 =? 0) with true.
    cbn [negb]. rewrite Hd. change (2 / 2) with 1.
    change (1 =? 0) with false. change (Z.land 1 1 =? 0) with false.
    cbn [negb]. rewrite (Hid i d Hi Hgd), Hd'. change (1 / 2) with 0.
    destruct fuel; reflexivity.
Qed.

End MultSmall.

Lemma Point_add_identity_exact (i p : Point) :
  Point_infinity = Ok i -> Point_in_field p -> Point_add i p = Ok p.
Proof.
  intros Hi Hp. rewrite Point_infinity_eval in Hi. injection Hi as <-.
  rewrite (Point_in_field_F p Hp), Point_add_eval.
  replace ((0 mod Q =? 0) && (1 mod Q =? 0)) with false by (vm_compute; reflexivity).
  do 2 f_equal; apply congruent_F.
  - replace (1 + JUBJUB_D * 0 * n (Point_x p) * 1 * n (Point_y p)) with 1 by ring.
    rewrite invz_one. apply congruent_ring. ring.
  - replace (1 - JUBJUB_D * 0 * n (Point_x p) * 1 * n (Point_y p)) with 1 by ring.
    rewrite invz_one. apply congruent_ring. ring.
Qed.

Lemma Proj_add_identity_exact (i p : ProjPoint) :
  Proj_infinity = Ok i -> Proj_in_field p -> Proj_add i p = Ok p.
Proof.
  intros Hi Hp. rewrite Proj_infinity_eval in Hi. injection Hi as <-.
  rewrite (Proj_in_field_F p Hp). exact (proj1 (Proj_identity_F _ _ _)).
Qed.

Lemma Etec_add_identity_exact (i p : EtecPoint) :
  Etec_infinity = Ok i -> Etec_in_field p -> Etec_add i p = Ok p.
Proof.
  intros Hi Hp. rewrite Etec_infinity_eval in Hi. injection Hi as <-.
  rewrite (Etec_in_field_F p Hp). exact (proj1 (Etec_identity_F _ _ _ _)).
Qed.

Lemma Etec_double_in_field (p : EtecPoint) :
  Etec_in_field p -> exists r, Etec_double p = Ok r /\ Etec_in_field r.
Proof.
  intros Hp. rewrite (Etec_in_field_F p Hp), Etec_double_eval.
  destruct (is_etec_infinity _ _ _ _).
  - eexists. split; [reflexivity|]. repeat split; apply F_in_field.
  - destruct (etec_double_coords _ _ _ _) as [[[X Y] T] Z].
    eexists. split; [reflexivity|]. repeat split; apply F_in_field.
Qed.

(** X22: on a point with reduced coordinates in the default field, in
    each of the three representations, [mult(0)] returns the identity,
    [mult(1)] returns the point itself, as the same tuple, and [mult(2)]
    returns what [double] returns; the loop needs no more rounds than the
    scalar has bits. *)
Theorem mult_small_scalars (fuel : nat) :
  (forall (p i : Point),
     Point_in_field p -> Point_infinity = Ok i ->
     exists d, Point_double p = Ok d /\
       mult fuel p (VInt 0) = Returns i /\
       mult (S fuel) p (VInt 1) = Returns p /\
       mult (S (S fuel)) p (VInt 2) = Returns d) /\
  (forall (p i : ProjPoint),
     Proj_in_field p -> Proj_infinity = Ok i ->
     exists d, Proj_double p = Ok d /\
       mult fuel p (VInt 0) = Returns i /\
       mult (S fuel) p (VInt 1) = Returns p /\
       mult (S (S fuel)) p (VInt 2) = Returns d) /\
  (forall (p i : EtecPoint),
     Etec_in_field p -> Etec_infinity = Ok i ->
     exists d, Etec_double p = Ok d /\
       mult fuel p (VInt 0) = Returns i /\
       mult (S fuel) p (VInt 1) = Returns p /\
       mult (S (S fuel)) p (VInt 2) = Returns d).
Proof.
  split; [|split]; intros p i Hp Hi.
  - exact (mult_small Point_in_field Point_double_closed Point_add_identity_exact
             p i fuel Hi Hp).
  - exact (mult_small Proj_in_field Proj_double_closed Proj_add_identity_exact
             p i fuel Hi Hp).
  - exact (mult_small Etec_in_field Etec_double_in_field Etec_add_identity_exact
             p i fuel Hi Hp).
Qed.
